(** * writer-doc: the linguistic aggregation and indexing engine

    A shallow embedding of [analyzer/collocations.py],
    [analyzer/dictionary.py] and [analyzer/statistics.py], and the
    properties their specification states about them.

    Conventions of the embedding.
    - A Python [str] is a [string]; one [ascii] stands for one character.
    - A Python [int] is a [Z]; positions produced by [enumerate], [range]
      and [len] are [nat].
    - A [dict] (and a [Counter], a [defaultdict]) is an association list in
      insertion order without repeated keys: Python dicts iterate in
      insertion order and [Counter.most_common] is a stable sort of that
      order, so the order is part of the behaviour.
    - A subscript that can fail ([tokens[j]], [entries[key]]) lives in the
      [result] monad and raises the exception Python would raise. *)

From Stdlib Require Import String Ascii List ZArith Arith Lia Bool.
From Stdlib Require Import Permutation Sorted OrderedTypeEx.
Import ListNotations.
Local Open Scope string_scope.
Local Open Scope list_scope.

(** Python's [str]. *)
Abbreviation str := string (only parsing).

(* ================================================================== *)
(** ** Python primitives *)
(* ================================================================== *)

Module Py.

(** *** Exceptions *)

Inductive exn := IndexError | KeyError.

Inductive result (A : Type) : Type :=
| Ok (a : A)
| Raise (e : exn).
Arguments Ok {A} a.
Arguments Raise {A} e.

Definition bind {A B} (m : result A) (k : A -> result B) : result B :=
  match m with
  | Ok a => k a
  | Raise e => Raise e
  end.

(** [for x in xs: s = body(s, x)], where the body may raise. *)
Fixpoint for_each {S X} (body : S -> X -> result S) (xs : list X) (s : S)
  : result S :=
  match xs with
  | [] => Ok s
  | x :: rest => bind (body s x) (for_each body rest)
  end.

(** *** Strings *)

(** [str.lower], character by character: the capitals A-Z and, above
    127, the Latin-1 capitals (192-222 without the multiplication sign). *)
Definition lower_char (c : ascii) : ascii :=
  let n := nat_of_ascii c in
  if ((65 <=? n)%nat && (n <=? 90)%nat)
     || ((192 <=? n)%nat && (n <=? 222)%nat && negb (n =? 215)%nat)
  then ascii_of_nat (n + 32) else c.

Fixpoint lower (s : str) : str :=
  match s with
  | EmptyString => EmptyString
  | String c r => String (lower_char c) (lower r)
  end.

(** The characters [str.strip()] removes: tab, line feed, vertical tab,
    form feed, carriage return, the four separators 28-31, space, next
    line (133) and no-break space (160). *)
Definition is_space (c : ascii) : bool :=
  let n := nat_of_ascii c in
  ((9 <=? n)%nat && (n <=? 13)%nat) || ((28 <=? n)%nat && (n <=? 32)%nat)
  || (n =? 133)%nat || (n =? 160)%nat.

Fixpoint lstrip (s : str) : str :=
  match s with
  | EmptyString => EmptyString
  | String c r => if is_space c then lstrip r else s
  end.

Fixpoint rstrip (s : str) : str :=
  match s with
  | EmptyString => EmptyString
  | String c r =>
      match rstrip r with
      | EmptyString => if is_space c then EmptyString else String c EmptyString
      | r' => String c r'
      end
  end.

Definition strip (s : str) : str := rstrip (lstrip s).

(** [noun.startswith(q)] *)
Definition startswith (s q : str) : bool := String.prefix q s.

(** [sep.join(words)] *)
Definition join (sep : str) (words : list str) : str := String.concat sep words.

(** [lemma or text]: [None] and the empty string are both falsy. *)
Definition or_text (lemma : option str) (text : str) : str :=
  match lemma with
  | Some (String c r) => String c r
  | _ => text
  end.

(** [x in xs] for a tuple, list or set of strings. *)
Definition str_in (x : str) (xs : list str) : bool :=
  existsb (String.eqb x) xs.

(** *** Slices *)

(** [xs[a:b]] for [0 <= a], [0 <= b]. *)
Definition slice {A} (xs : list A) (a b : nat) : list A :=
  firstn (b - a) (skipn a xs).

(** [xs[:n]] for an arbitrary int [n]: a negative [n] counts from the end. *)
Definition slice_to {A} (xs : list A) (n : Z) : list A :=
  if (0 <=? n)%Z then firstn (Z.to_nat n) xs
  else firstn (length xs - Z.to_nat (- n)) xs.

(** [range(a, b)] *)
Definition range (a b : nat) : list nat := seq a (b - a).

(** [enumerate(xs)] *)
Definition enumerate {A} (xs : list A) : list (nat * A) :=
  combine (seq 0 (length xs)) xs.

(** *** Stable sorting

    [sorted] is stable, also with [reverse=True].  [before y x] says that
    [y] must come strictly before [x]; an element is inserted in front of
    the first one that need not precede it, so equal elements keep the
    order they had. *)

Fixpoint insert_by {A} (before : A -> A -> bool) (x : A) (l : list A) : list A :=
  match l with
  | [] => [x]
  | y :: r => if before y x then y :: insert_by before x r else x :: l
  end.

Definition sorted_by {A} (before : A -> A -> bool) (l : list A) : list A :=
  fold_right (insert_by before) [] l.

(** [sorted(l, key=key)] *)
Definition sorted_asc {A} (key : A -> Z) : list A -> list A :=
  sorted_by (fun y x => (key y <? key x)%Z).

(** [sorted(l, key=key, reverse=True)] *)
Definition sorted_desc {A} (key : A -> Z) : list A -> list A :=
  sorted_by (fun y x => (key x <? key y)%Z).

(** [sorted(s)] for strings, by code point. *)
Definition sorted_str : list str -> list str :=
  sorted_by String.ltb.

(** *** Sets of strings: a list without repetition. *)

Definition set_add (s : list str) (x : str) : list str :=
  if str_in x s then s else s ++ [x].

(** *** Dictionaries *)

(** Keys are compared with [==]; [HashableLaws] states that the
    comparison decides equality. *)
Class Hashable (K : Type) := key_eqb : K -> K -> bool.

Class HashableLaws (K : Type) `{Hashable K} :=
  key_eqb_eq : forall a b : K, key_eqb a b = true <-> a = b.

#[export] Instance Hashable_str : Hashable str := String.eqb.

Definition pair_eqb (a b : str * str) : bool :=
  String.eqb (fst a) (fst b) && String.eqb (snd a) (snd b).

#[export] Instance Hashable_pair : Hashable (str * str) := pair_eqb.

Definition dict (K V : Type) := list (K * V).

Section Dict.
Context {K V : Type} `{Hashable K}.

(** [d.get(k)] *)
Fixpoint get (d : dict K V) (k : K) : option V :=
  match d with
  | [] => None
  | (k', v) :: r => if key_eqb k' k then Some v else get r k
  end.

(** [k in d] *)
Definition mem (d : dict K V) (k : K) : bool :=
  match get d k with Some _ => true | None => false end.

(** [d[k] = v]: an existing key keeps its place, a new one goes last. *)
Fixpoint set (d : dict K V) (k : K) (v : V) : dict K V :=
  match d with
  | [] => [(k, v)]
  | (k', v') :: r =>
      if key_eqb k' k then (k', v) :: r else (k', v') :: set r k v
  end.

(** [d[k]] on a plain dict. *)
Definition subscript (d : dict K V) (k : K) : result V :=
  match get d k with
  | Some v => Ok v
  | None => Raise KeyError
  end.

(** [d[k]] on a [defaultdict]: a missing key is first bound to the
    default.  Returns the dictionary after the access and the value. *)
Definition default_subscript (dflt : V) (d : dict K V) (k : K)
  : dict K V * V :=
  match get d k with
  | Some v => (d, v)
  | None => (set d k dflt, dflt)
  end.

Definition keys (d : dict K V) : list K := map fst d.
Definition values (d : dict K V) : list V := map snd d.
End Dict.

(** [Counter]: a missing key reads as 0 and is not inserted by the read. *)
Definition count_of {K} `{Hashable K} (c : dict K Z) (k : K) : Z :=
  match get c k with Some n => n | None => 0%Z end.

(** [c[k] += 1] *)
Definition incr {K} `{Hashable K} (c : dict K Z) (k : K) : dict K Z :=
  set c k (count_of c k + 1)%Z.

(** [c.most_common()]: [sorted(c.items(), key=itemgetter(1), reverse=True)] *)
Definition most_common {K} (c : dict K Z) : list (K * Z) :=
  sorted_desc snd c.

(** [c.most_common(n)], through [heapq.nlargest]: nothing for [n <= 0],
    otherwise the first [n] of the stable descending order. *)
Definition most_common_n {K} (n : Z) (c : dict K Z) : list (K * Z) :=
  if (n <=? 0)%Z then [] else firstn (Z.to_nat n) (most_common c).

(** [sum(xs)] *)
Definition sum_ints (xs : list Z) : Z := fold_left Z.add xs 0%Z.

(** [len(xs)] as an int. *)
Definition len {A} (xs : list A) : Z := Z.of_nat (List.length xs).

End Py.

Import Py.

Notation "x <- m ;; k" := (Py.bind m (fun x => k))
  (at level 61, m at next level, right associativity).

(* ================================================================== *)
(** ** The input contract: annotated tokens and documents *)
(* ================================================================== *)

(** A token as the NLP producer hands it over.  [addr] is the identity of
    the token object (what [is] compares); the other fields are the
    attributes the analyzers read. *)
Record Token := mkToken {
  addr : nat;
  text : str;
  lemma : option str;
  pos : str;
  id : str;
  head_id : option str;
  rel : option str;
  start : option Z
}.

Record Sent := mkSent { sent_tokens : list Token }.

(** [doc.sents] is the sentence-grouped view, [doc.tokens] the flat one. *)
Record Doc := mkDoc {
  sents : list Sent;
  tokens : list Token
}.

(** [(token.lemma or token.text).lower()] *)
Definition lemma_of (t : Token) : str := lower (or_text (lemma t) (text t)).

(** [a is b] *)
Definition is_ (a b : Token) : bool := Nat.eqb (addr a) (addr b).

(* ================================================================== *)
(** ** analyzer/collocations.py *)
(* ================================================================== *)

Module Collocations.

Definition ADJ_LIKE_POS : list str := ["ADJ"; "VERB"].

(** A pair is keyed by (noun lemma, adjective lemma). *)
Abbreviation pair_key := (str * str)%type (only parsing).

(** The two accumulators of [extract_noun_adj_pairs]. *)
Record PairState := mkPairState {
  pair_counter : dict pair_key Z;
  pair_examples : dict pair_key (list str)
}.

Definition empty_state : PairState := mkPairState [] [].

(** The guarded append shared by both strategies:
    [if len(pair_examples[pair]) < 3: ... if phrase not in
    pair_examples[pair]: pair_examples[pair].append(phrase)].
    Reading [pair_examples[pair]] binds a missing pair to the empty list. *)
Definition add_example (examples : dict pair_key (list str)) (p : pair_key)
    (phrase : str) : dict pair_key (list str) :=
  let '(examples1, cur) := default_subscript [] examples p in
  if (List.length cur <? 3)%nat then
    if str_in phrase cur then examples1
    else set examples1 p (cur ++ [phrase])
  else examples1.

(** [{t.id: t for t in sent.tokens}]: a later token with the same id
    replaces the earlier one. *)
Definition id_to_token (s : Sent) : dict str Token :=
  fold_left (fun d t => set d (id t) t) (sent_tokens s) [].

(** [id_to_token.get(token.head_id)] *)
Definition resolve_head (ids : dict str Token) (t : Token) : option Token :=
  match head_id t with
  | Some h => get ids h
  | None => None
  end.

(** [t.start if hasattr(t, 'start') and t.start else 0] *)
Definition start_key (t : Token) : Z :=
  match start t with
  | Some z => if (z =? 0)%Z then 0%Z else z
  | None => 0%Z
  end.

(** Body of the inner loop of strategy 1. *)
Definition pass1_token (ids : dict str Token) (st : PairState) (token : Token)
    : PairState :=
  if match rel token with Some r => String.eqb r "amod" | None => false end
     && str_in (pos token) ADJ_LIKE_POS
  then
    match resolve_head ids token with
    | Some head =>
        if str_in (pos head) ["NOUN"; "PROPN"] then
          let noun_lemma := lemma_of head in
          let adj_lemma := lemma_of token in
          let p := (noun_lemma, adj_lemma) in
          let counter := incr (pair_counter st) p in
          let tokens_sorted := sorted_asc start_key [head; token] in
          let phrase := join " " (map text tokens_sorted) in
          mkPairState counter (add_example (pair_examples st) p phrase)
        else st
    | None => st
    end
  else st.

Definition pass1_sent (st : PairState) (s : Sent) : PairState :=
  fold_left (pass1_token (id_to_token s)) (sent_tokens s) st.

(** Strategy 1, dependency-based. *)
Definition pass1 (d : Doc) (st : PairState) : PairState :=
  fold_left pass1_sent (sents d) st.

(** Body of [for j in range(start, end)] of strategy 2. *)
Definition pass2_neighbor (toks : list Token) (i : nat) (noun_lemma : str)
    (st : PairState) (j : nat) : result PairState :=
  if (j =? i)%nat then Ok st
  else
    match nth_error toks j with
    | None => Raise IndexError
    | Some other =>
        if negb (String.eqb (pos other) "ADJ") then Ok st
        else
          let adj_lemma := lemma_of other in
          let p := (noun_lemma, adj_lemma) in
          if mem (pair_counter st) p then Ok st
          else
            let counter := incr (pair_counter st) p in
            let lo := Nat.min i j in
            let hi := Nat.max i j in
            let phrase := join " " (map text (slice toks lo (hi + 1))) in
            Ok (mkPairState counter (add_example (pair_examples st) p phrase))
    end.

(** Body of [for i, token in enumerate(tokens)] of strategy 2. *)
Definition pass2_token (toks : list Token) (st : PairState)
    (it : nat * Token) : result PairState :=
  let '(i, token) := it in
  if negb (str_in (pos token) ["NOUN"; "PROPN"]) then Ok st
  else
    let noun_lemma := lemma_of token in
    let start := Nat.max 0 (i - 2) in
    let end_ := Nat.min (List.length toks) (i + 3) in
    for_each (pass2_neighbor toks i noun_lemma) (range start end_) st.

(** Strategy 2, window-based. *)
Definition pass2 (d : Doc) (st : PairState) : result PairState :=
  let toks := tokens d in
  for_each (pass2_token toks) (enumerate toks) st.

(** Output records. *)
Record PairEntry := mkPairEntry {
  pe_noun : str; pe_adj : str; pe_count : Z; pe_examples : list str
}.
Record AdjEntry := mkAdjEntry {
  ae_adj : str; ae_count : Z; ae_examples : list str
}.
Record NounEntry := mkNounEntry { ne_noun : str; ne_count : Z }.

Record CollocationIndex := mkIndex {
  noun_adj_index : dict str (list AdjEntry);
  adj_noun_index : dict str (list NounEntry);
  pair_list : list PairEntry;
  total_pairs : Z;
  unique_pairs : Z
}.

(** [index[k].append(x)] on a [defaultdict(list)]. *)
Definition append_to {V} (index : dict str (list V)) (k : str) (x : V)
    : dict str (list V) :=
  let '(index1, cur) := default_subscript [] index k in
  set index1 k (cur ++ [x]).

(** [for k in index: index[k].sort(key=count, reverse=True)] *)
Definition sort_lists {V} (count : V -> Z) (index : dict str (list V))
    : dict str (list V) :=
  map (fun kv => (fst kv, sorted_desc count (snd kv))) index.

(** The accumulators of the output loop. *)
Record Built := mkBuilt {
  b_noun_adj : dict str (list AdjEntry);
  b_adj_noun : dict str (list NounEntry);
  b_pairs : list PairEntry
}.

Definition build_step (examples_of : dict pair_key (list str)) (b : Built)
    (item : pair_key * Z) : Built :=
  let '((noun, adj), count) := item in
  let examples :=
    match get examples_of (noun, adj) with Some e => e | None => [] end in
  mkBuilt
    (append_to (b_noun_adj b) noun (mkAdjEntry adj count examples))
    (append_to (b_adj_noun b) adj (mkNounEntry noun count))
    (b_pairs b ++ [mkPairEntry noun adj count examples]).

Definition build_output (st : PairState) : CollocationIndex :=
  let b := fold_left (build_step (pair_examples st))
             (most_common (pair_counter st)) (mkBuilt [] [] []) in
  mkIndex
    (sort_lists ae_count (b_noun_adj b))
    (sort_lists ne_count (b_adj_noun b))
    (b_pairs b)
    (sum_ints (values (pair_counter st)))
    (len (pair_counter st)).

Definition extract_noun_adj_pairs (d : Doc) : result CollocationIndex :=
  let st1 := pass1 d empty_state in
  st2 <- pass2 d st1 ;;
  Ok (build_output st2).

(** The loop of [search_adjectives_for_noun] that removes repeated
    adjectives; [len(result) >= limit] is tested after every item. *)
Fixpoint dedup_loop (limit : Z) (items : list AdjEntry) (seen : list str)
    (result : list AdjEntry) : list AdjEntry :=
  match items with
  | [] => result
  | item :: rest =>
      let '(seen1, result1) :=
        if negb (str_in (ae_adj item) seen)
        then (set_add seen (ae_adj item), result ++ [item])
        else (seen, result) in
      if (len result1 >=? limit)%Z then result1
      else dedup_loop limit rest seen1 result1
  end.

(** [matches]: the lists of every noun that starts with the query, in the
    order of the index. *)
Definition prefix_matches (index : dict str (list AdjEntry)) (q : str)
    : list AdjEntry :=
  flat_map (fun kv => if startswith (fst kv) q then snd kv else []) index.

Definition search_adjectives_for_noun (index : dict str (list AdjEntry))
    (query : str) (limit : Z) : list AdjEntry :=
  let query_lower := lower (strip query) in
  match get index query_lower with
  | Some adjs => slice_to adjs limit
  | None =>
      dedup_loop limit (sorted_desc ae_count (prefix_matches index query_lower))
        [] []
  end.

End Collocations.

(* ================================================================== *)
(** ** analyzer/dictionary.py *)
(* ================================================================== *)

Module Dictionary.

Definition INCLUDE_POS : list str :=
  ["NOUN"; "ADJ"; "VERB"; "ADV"; "PROPN"; "PRON"; "NUM"; "DET"; "INTJ"].

(** An entry is keyed by (lowercased lemma, POS). *)
Abbreviation dict_key := (str * str)%type (only parsing).

Record Entry := mkEntry {
  e_lemma : str;
  e_pos : str;
  e_count : Z;
  e_surface_forms : list str;
  e_example : str
}.

(** [for i, t in enumerate(tokens): if t is target_token: idx = i; break] *)
Fixpoint find_token (target : Token) (toks : list Token) (i : nat)
    : option nat :=
  match toks with
  | [] => None
  | t :: rest => if is_ t target then Some i else find_token target rest (S i)
  end.

Definition _extract_context (d : Doc) (target_token : Token) (window : nat)
    : str :=
  let toks := tokens d in
  match find_token target_token toks 0 with
  | None => text target_token
  | Some idx =>
      let start := Nat.max 0 (idx - window) in
      let end_ := Nat.min (List.length toks) (idx + window + 1) in
      join " " (map text (slice toks start end_))
  end.

(** The three accumulators of [build_dictionary]. *)
Record BuildState := mkBuildState {
  entries : dict dict_key Entry;
  form_sets : dict dict_key (list str);
  freq : dict dict_key Z
}.

Definition empty_state : BuildState := mkBuildState [] [] [].

(** The key of a token: [((token.lemma or token.text).lower(), token.pos)] *)
Definition key_of (t : Token) : dict_key := (lemma_of t, pos t).

(** Body of the first loop. *)
Definition scan_token (d : Doc) (st : BuildState) (token : Token)
    : BuildState :=
  if negb (str_in (pos token) INCLUDE_POS) then st
  else
    let lemma := lemma_of token in
    let pos := pos token in
    let key := (lemma, pos) in
    let freq1 := incr (freq st) key in
    let '(forms1, cur) := default_subscript [] (form_sets st) key in
    let forms2 := set forms1 key (set_add cur (lower (text token))) in
    let entries1 :=
      if negb (mem (entries st) key) then
        let example := _extract_context d token 6 in
        set (entries st) key (mkEntry lemma pos 0 [] example)
      else entries st in
    mkBuildState entries1 forms2 freq1.

(** Body of the second loop.  The entry taken from [entries] is updated in
    place and appended; every key is visited once, so no later iteration
    reads the updated object and the accumulators need not be threaded. *)
Definition merge_item (st : BuildState) (res : list Entry) (item : dict_key * Z)
    : result (list Entry) :=
  let '(key, cnt) := item in
  entry <- subscript (entries st) key ;;
  let forms := snd (default_subscript [] (form_sets st) key) in
  Ok (res ++ [mkEntry (e_lemma entry) (e_pos entry) cnt
                      (sorted_str forms) (e_example entry)]).

(** The first loop, run over a stretch [toks] of the token stream (the
    context of an example is always taken in the whole document). *)
Definition scan_over (d : Doc) (toks : list Token) : BuildState :=
  fold_left (scan_token d) toks empty_state.

Definition scan (d : Doc) : BuildState := scan_over d (tokens d).

Definition build_dictionary (d : Doc) : result (list Entry) :=
  let st := scan d in
  for_each (merge_item st) (most_common (freq st)) [].

End Dictionary.

(* ================================================================== *)
(** ** analyzer/statistics.py *)
(* ================================================================== *)

Module Statistics.

Definition CONTENT_POS : list str := ["NOUN"; "ADJ"; "VERB"; "ADV"; "PROPN"].

Record LemmaCount := mkLemmaCount { lc_lemma : str; lc_count : Z }.

(** The two ratios are computed in floating point.  The float type and the
    three operations the function applies to it are parameters: true
    division of two ints, multiplication of a float by an int and
    [round(x, ndigits)]. *)
Section WithFloats.
Variable float : Type.
Variable truediv : Z -> Z -> float.
Variable mul_int : float -> Z -> float.
Variable round_to : float -> Z -> float.

(** The ratios are the int [0] or a float. *)
Inductive number :=
| Int (z : Z)
| Float (f : float).

(** The report, without the static label table [POS_LABELS_RU]. *)
Record Report := mkReport {
  total_tokens : Z;
  total_words : Z;
  unique_lemmas : Z;
  vocabulary_richness : number;
  avg_word_length : number;
  pos_distribution : dict str Z;
  top_nouns : list LemmaCount;
  top_adj : list LemmaCount;
  top_verbs : list LemmaCount;
  top_adv : list LemmaCount;
  top_propn : list LemmaCount
}.

Record ScanState := mkScanState {
  pos_counter : dict str Z;
  lemma_counters : dict str (dict str Z);
  all_lemmas : dict str Z;
  total_chars : Z;
  word_count : Z
}.

(** [{pos: Counter() for pos in CONTENT_POS}] *)
Definition initial_state : ScanState :=
  mkScanState [] (map (fun p => (p, [])) CONTENT_POS) [] 0 0.

(** Body of the loop over [doc.tokens]. *)
Definition scan_token (st : ScanState) (token : Token) : result ScanState :=
  let pos := pos token in
  let lemma := lemma_of token in
  let pos_counter1 := incr (pos_counter st) pos in
  if str_in pos ["PUNCT"; "SYM"] then
    Ok (mkScanState pos_counter1 (lemma_counters st) (all_lemmas st)
          (total_chars st) (word_count st))
  else
    let word_count1 := (word_count st + 1)%Z in
    let total_chars1 :=
      (total_chars st + Z.of_nat (String.length (text token)))%Z in
    let all_lemmas1 := incr (all_lemmas st) lemma in
    if str_in pos CONTENT_POS then
      c <- subscript (lemma_counters st) pos ;;
      Ok (mkScanState pos_counter1 (set (lemma_counters st) pos (incr c lemma))
            all_lemmas1 total_chars1 word_count1)
    else
      Ok (mkScanState pos_counter1 (lemma_counters st) all_lemmas1
            total_chars1 word_count1).

(** [_top(pos)] *)
Definition top (st : ScanState) (top_n : Z) (pos : str)
    : result (list LemmaCount) :=
  c <- subscript (lemma_counters st) pos ;;
  Ok (map (fun lc => mkLemmaCount (fst lc) (snd lc)) (most_common_n top_n c)).

Definition compute_statistics (d : Doc) (top_n : Z) : result Report :=
  st <- for_each scan_token (tokens d) initial_state ;;
  let unique := len (all_lemmas st) in
  let richness :=
    if (word_count st =? 0)%Z then Int 0
    else Float (round_to (mul_int (truediv unique (word_count st)) 100) 2) in
  let avg_len :=
    if (word_count st =? 0)%Z then Int 0
    else Float (round_to (truediv (total_chars st) (word_count st)) 2) in
  nouns <- top st top_n "NOUN" ;;
  adjs <- top st top_n "ADJ" ;;
  verbs <- top st top_n "VERB" ;;
  advs <- top st top_n "ADV" ;;
  propns <- top st top_n "PROPN" ;;
  Ok (mkReport (len (tokens d)) (word_count st) unique richness avg_len
        (most_common (pos_counter st)) nouns adjs verbs advs propns).
End WithFloats.

Arguments Int {float} z.
Arguments Float {float} f.

End Statistics.

(* ================================================================== *)
(** ** Specification-level notions

    What the specification talks about, stated on the document alone and
    independently of the loops above. *)
(* ================================================================== *)

Module Spec.

(** [a] occurs before [b] in [l]. *)
Definition precedes {A} (l : list A) (a b : A) : Prop :=
  exists l1 l2 l3, l = l1 ++ a :: l2 ++ b :: l3.

(** Position of the first element that satisfies [p]. *)
Fixpoint first_index {A} (p : A -> bool) (l : list A) : option nat :=
  match l with
  | [] => None
  | x :: r => if p x then Some 0 else option_map S (first_index p r)
  end.

(** *** Collocations *)

(** The head a token's [head_id] resolves to: with the id-to-token lookup
    of a sentence, the last token of the sentence that carries that id. *)
Definition head_of (s : Sent) (t : Token) : option Token :=
  match head_id t with
  | Some h => find (fun x => String.eqb (id x) h) (rev (sent_tokens s))
  | None => None
  end.

(** The pair the syntactic pass records at token [t] of sentence [s]: the
    relation is [amod], the POS is ADJ or VERB, the head exists and is a
    NOUN or PROPN. *)
Definition syntactic_pair (s : Sent) (t : Token) : option (str * str) :=
  match rel t, head_of s t with
  | Some r, Some h =>
      if String.eqb r "amod"
         && (String.eqb (pos t) "ADJ" || String.eqb (pos t) "VERB")
         && (String.eqb (pos h) "NOUN" || String.eqb (pos h) "PROPN")
      then Some (lemma_of h, lemma_of t)
      else None
  | _, _ => None
  end.

Definition recordings_of_sent (s : Sent) : list (str * str) :=
  flat_map (fun t => match syntactic_pair s t with
                     | Some p => [p]
                     | None => []
                     end) (sent_tokens s).

(** Every recording of the syntactic pass, in document order. *)
Definition pass1_recordings (d : Doc) : list (str * str) :=
  flat_map recordings_of_sent (sents d).

(** How often the syntactic pass records the pair [p]. *)
Definition pass1_count (d : Doc) (p : str * str) : nat :=
  List.length (filter (pair_eqb p) (pass1_recordings d)).

(** What the window pass may do to a counter: a pair that has an entry
    keeps its count, and a pair without one stays without or enters with
    count 1. *)
Definition window_extends (c c' : dict (str * str) Z) : Prop :=
  forall p, match get c p with
            | Some n => get c' p = Some n
            | None => get c' p = None \/ get c' p = Some 1%Z
            end.

(** [index.get(k, [])] *)
Definition lookup_list {V} (index : dict str (list V)) (k : str) : list V :=
  match get index k with Some l => l | None => [] end.

(** The three records the output loop derives from one item of the
    counter. *)
Definition examples_for (examples : dict (str * str) (list str))
    (p : str * str) : list str :=
  match get examples p with Some e => e | None => [] end.

Definition pair_entry_of (examples : dict (str * str) (list str))
    (item : str * str * Z) : Collocations.PairEntry :=
  Collocations.mkPairEntry (fst (fst item)) (snd (fst item)) (snd item)
    (examples_for examples (fst item)).

Definition adj_entry_of (examples : dict (str * str) (list str))
    (item : str * str * Z) : Collocations.AdjEntry :=
  Collocations.mkAdjEntry (snd (fst item)) (snd item)
    (examples_for examples (fst item)).

Definition noun_entry_of (item : str * str * Z) : Collocations.NounEntry :=
  Collocations.mkNounEntry (fst (fst item)) (snd item).

(** Two tokens of a sentence at different positions carry the same id. *)
Definition id_collision (s : Sent) : Prop :=
  exists i j a b, i <> j
    /\ nth_error (sent_tokens s) i = Some a
    /\ nth_error (sent_tokens s) j = Some b
    /\ id a = id b.

(** The [head_id] of [t] names no token of the sentence. *)
Definition head_unresolved (s : Sent) (t : Token) : Prop :=
  forall x, In x (sent_tokens s) -> head_id t <> Some (id x).

(** Keeping, of every adjective, the first entry that carries it. *)
Fixpoint dedup_by_adj (seen : list str) (items : list Collocations.AdjEntry)
    : list Collocations.AdjEntry :=
  match items with
  | [] => []
  | x :: r =>
      if str_in (Collocations.ae_adj x) seen then dedup_by_adj seen r
      else x :: dedup_by_adj (Collocations.ae_adj x :: seen) r
  end.

(** Every entry of the index, key after key. *)
Definition all_entries (index : dict str (list Collocations.AdjEntry))
    : list Collocations.AdjEntry :=
  concat (values index).

(** *** Dictionary *)

Definition included (t : Token) : bool :=
  str_in (pos t) Dictionary.INCLUDE_POS.

(** [t] is a content token whose key is [k]. *)
Definition has_key (k : Dictionary.dict_key) (t : Token) : bool :=
  included t && pair_eqb k (Dictionary.key_of t).

(** The tokens counted under the key [k], in document order. *)
Definition occurrences (toks : list Token) (k : Dictionary.dict_key)
    : list Token :=
  filter (has_key k) toks.

(** The lowercased surface texts of the tokens counted under [k], each
    once, in the order in which they are first met. *)
Definition forms_of (toks : list Token) (k : Dictionary.dict_key)
    : list str :=
  fold_left set_add (map (fun t => lower (text t)) (occurrences toks k)) [].

(** Flat position at which the key [k] is first seen. *)
Definition first_seen (d : Doc) (k : Dictionary.dict_key) : option nat :=
  first_index (has_key k) (tokens d).

(** The context window around flat position [i]: the surface texts of the
    tokens at most [w] positions away, joined by single spaces. *)
Definition context_window (d : Doc) (i w : nat) : str :=
  join " " (map text (slice (tokens d) (i - w) (Nat.min (List.length (tokens d)) (i + w + 1)))).

(** Position [j] is at most [w] positions away from position [i]. *)
Definition near (i w j : nat) : bool :=
  (i <=? j + w)%nat && (j <=? i + w)%nat.

(** The tokens of the document at most [w] flat positions away from
    position [i], in document order. *)
Definition tokens_near (d : Doc) (i w : nat) : list Token :=
  map snd (filter (fun jt => near i w (fst jt)) (enumerate (tokens d))).

(** The entry the dictionary holds for an item [(key, count)] of the
    frequency counter: forms sorted, example taken at the first token
    counted under the key. *)
Definition entry_for (d : Doc) (item : Dictionary.dict_key * Z)
    : Dictionary.Entry :=
  Dictionary.mkEntry (fst (fst item)) (snd (fst item)) (snd item)
    (sorted_str (forms_of (tokens d) (fst item)))
    (match occurrences (tokens d) (fst item) with
     | t :: _ => Dictionary._extract_context d t 6
     | [] => ""
     end).

(** An address names one token object. *)
Definition addresses_consistent (d : Doc) : Prop :=
  forall a b, In a (tokens d) -> In b (tokens d) -> addr a = addr b -> a = b.

Definition entry_key (e : Dictionary.Entry) : Dictionary.dict_key :=
  (Dictionary.e_lemma e, Dictionary.e_pos e).

(** *** Statistics *)

Definition is_word (t : Token) : bool :=
  negb (str_in (pos t) ["PUNCT"; "SYM"]).

Definition words (d : Doc) : list Token := filter is_word (tokens d).

(** The distinct lowercased lemmas of the words. *)
Definition distinct_lemmas (d : Doc) : list str :=
  nodup string_dec (map lemma_of (words d)).

(** Sum of the surface lengths of a list of tokens, and of the words. *)
Definition chars_of (ts : list Token) : Z :=
  fold_right (fun t acc => (Z.of_nat (String.length (text t)) + acc)%Z) 0%Z ts.

Definition word_chars (d : Doc) : Z := chars_of (words d).

End Spec.

Import Spec.

(* ================================================================== *)
(** ** Sample documents *)
(* ================================================================== *)

Module Samples.

(** A token with a lemma; the k-th token object starts at offset [10 * k]. *)
Definition tok (k : nat) (text lemma pos id : str)
    (head_id rel : option str) : Token :=
  mkToken k text (Some lemma) pos id head_id rel (Some (10 * Z.of_nat k)%Z).

(** "old house. house old": the first occurrence is an [amod] relation, the
    second is found by the window only. *)
Definition old_1 := tok 0 "old" "old" "ADJ" "1_1" (Some "1_2") (Some "amod").
Definition house_1 := tok 1 "house" "house" "NOUN" "1_2" (Some "1_0") (Some "root").
Definition dot_1 := tok 2 "." "." "PUNCT" "1_3" (Some "1_2") (Some "punct").
Definition house_2 := tok 3 "House" "house" "NOUN" "2_1" (Some "2_0") (Some "root").
Definition old_2 := tok 4 "Old" "old" "ADJ" "2_2" (Some "2_1") (Some "conj").

Definition precedence_doc : Doc :=
  mkDoc [mkSent [old_1; house_1; dot_1]; mkSent [house_2; old_2]]
        [old_1; house_1; dot_1; house_2; old_2].

(** "red house red red": no syntactic relation, three window
    co-occurrences of (house, red). *)
Definition red_1 := tok 0 "red" "red" "ADJ" "1_1" None None.
Definition house_3 := tok 1 "house" "house" "NOUN" "1_2" None None.
Definition red_2 := tok 2 "red" "red" "ADJ" "1_3" None None.
Definition red_3 := tok 3 "red" "red" "ADJ" "1_4" None None.

Definition window_doc : Doc :=
  mkDoc [mkSent [red_1; house_3; red_2; red_3]]
        [red_1; house_3; red_2; red_3].

(** A sentence in which two tokens carry the id "1_2". *)
Definition locked :=
  tok 0 "locked" "locked" "VERB" "1_1" (Some "1_2") (Some "amod").
Definition tree := tok 1 "tree" "tree" "NOUN" "1_2" (Some "1_0") (Some "root").
Definition hill := tok 2 "hill" "hill" "NOUN" "1_2" (Some "1_0") (Some "root").

Definition collision_sent : Sent := mkSent [locked; tree; hill].
Definition collision_doc : Doc := mkDoc [collision_sent] [locked; tree; hill].

(** An [amod] token whose head id names no token of its sentence. *)
Definition lost :=
  tok 0 "lost" "lost" "VERB" "1_1" (Some "1_9") (Some "amod").
Definition key_tok := tok 1 "key" "key" "NOUN" "1_2" (Some "1_0") (Some "root").

Definition dangling_sent : Sent := mkSent [lost; key_tok].
Definition dangling_doc : Doc := mkDoc [dangling_sent] [lost; key_tok].

(** "Old house, houses red": the key (house, NOUN) occurs twice with two
    surface forms; (old, ADJ) and (red, ADJ) tie at one occurrence. *)
Definition w_old := tok 0 "Old" "old" "ADJ" "1_1" (Some "1_2") (Some "amod").
Definition w_house := tok 1 "house" "house" "NOUN" "1_2" None None.
Definition w_comma := tok 2 "," "," "PUNCT" "1_3" None None.
Definition w_houses := tok 3 "houses" "house" "NOUN" "1_4" None None.
Definition w_red := tok 4 "red" "red" "ADJ" "1_5" None None.

Definition dictionary_doc : Doc :=
  mkDoc [mkSent [w_old; w_house; w_comma; w_houses; w_red]]
        [w_old; w_house; w_comma; w_houses; w_red].

(** Floating-point expressions left uninterpreted: a model of the float
    operations that records which operation was applied to what. *)
Inductive fexpr :=
| FDiv (a b : Z)
| FMul (x : fexpr) (k : Z)
| FRound (x : fexpr) (ndigits : Z).

(** A document of punctuation only. *)
Definition punct_doc : Doc :=
  mkDoc [mkSent [dot_1; w_comma]] [dot_1; w_comma].

(** A noun index with one key. *)
Definition house_index : dict str (list Collocations.AdjEntry) :=
  [("house", [Collocations.mkAdjEntry "old" 2 ["old house"];
              Collocations.mkAdjEntry "red" 1 ["red house"]])].

(** "Once upon a time there was an old house on a hill and the houses
    were red.": eighteen tokens, longer than a context window.  The key
    (house, NOUN) is first seen at position 8 and again at position 14,
    the key (a, DET) at positions 2, 6 and 10. *)
Definition c_once := tok 0 "Once" "once" "ADV" "1_1" None None.
Definition c_upon := tok 1 "upon" "upon" "ADP" "1_2" None None.
Definition c_a1 := tok 2 "a" "a" "DET" "1_3" None None.
Definition c_time := tok 3 "time" "time" "NOUN" "1_4" None None.
Definition c_there := tok 4 "there" "there" "PRON" "1_5" None None.
Definition c_was := tok 5 "was" "be" "AUX" "1_6" None None.
Definition c_an := tok 6 "an" "a" "DET" "1_7" None None.
Definition c_old := tok 7 "old" "old" "ADJ" "1_8" (Some "1_9") (Some "amod").
Definition c_house := tok 8 "house" "house" "NOUN" "1_9" None None.
Definition c_on := tok 9 "on" "on" "ADP" "1_10" None None.
Definition c_a2 := tok 10 "a" "a" "DET" "1_11" None None.
Definition c_hill := tok 11 "hill" "hill" "NOUN" "1_12" None None.
Definition c_and := tok 12 "and" "and" "CCONJ" "1_13" None None.
Definition c_the := tok 13 "the" "the" "DET" "1_14" None None.
Definition c_houses := tok 14 "houses" "house" "NOUN" "1_15" None None.
Definition c_were := tok 15 "were" "be" "AUX" "1_16" None None.
Definition c_red := tok 16 "red" "red" "ADJ" "1_17" None None.
Definition c_dot := tok 17 "." "." "PUNCT" "1_18" None None.

Definition story_tokens : list Token :=
  [c_once; c_upon; c_a1; c_time; c_there; c_was; c_an; c_old; c_house;
   c_on; c_a2; c_hill; c_and; c_the; c_houses; c_were; c_red; c_dot].

Definition story_doc : Doc := mkDoc [mkSent story_tokens] story_tokens.

(** "old house. old hill. Old hill. red hill.": two nouns share the
    adjective "old", with counts 1 and 2. *)
Definition h_old1 := tok 0 "old" "old" "ADJ" "1_1" (Some "1_2") (Some "amod").
Definition h_house := tok 1 "house" "house" "NOUN" "1_2" None None.
Definition h_old2 := tok 2 "old" "old" "ADJ" "2_1" (Some "2_2") (Some "amod").
Definition h_hill1 := tok 3 "hill" "hill" "NOUN" "2_2" None None.
Definition h_old3 := tok 4 "Old" "old" "ADJ" "3_1" (Some "3_2") (Some "amod").
Definition h_hill2 := tok 5 "hill" "hill" "NOUN" "3_2" None None.
Definition h_red := tok 6 "red" "red" "ADJ" "4_1" (Some "4_2") (Some "amod").
Definition h_hill3 := tok 7 "hill" "hill" "NOUN" "4_2" None None.

Definition hills_doc : Doc :=
  mkDoc [mkSent [h_old1; h_house]; mkSent [h_old2; h_hill1];
         mkSent [h_old3; h_hill2]; mkSent [h_red; h_hill3]]
        [h_old1; h_house; h_old2; h_hill1; h_old3; h_hill2; h_red; h_hill3].

End Samples.

(* ================================================================== *)
(** ** app.py: the upload filter *)
(* ================================================================== *)

Module App.

(** [Config.ALLOWED_EXTENSIONS] *)
Definition ALLOWED_EXTENSIONS : list str := ["txt"].

(** ["." in filename] *)
Fixpoint contains_char (c : ascii) (s : str) : bool :=
  match s with
  | EmptyString => false
  | String a r => Ascii.eqb a c || contains_char c r
  end.

(** The split point of [s.rsplit(c, 1)]: what stands before and after the
    last [c], if there is one. *)
Fixpoint rsplit_last (c : ascii) (s : str) : option (str * str) :=
  match s with
  | EmptyString => None
  | String a r =>
      match rsplit_last c r with
      | Some (before, after) => Some (String a before, after)
      | None => if Ascii.eqb a c then Some (EmptyString, r) else None
      end
  end.

(** [s.rsplit(c, 1)]: one or two pieces. *)
Definition rsplit1 (c : ascii) (s : str) : list str :=
  match rsplit_last c s with
  | Some (before, after) => [before; after]
  | None => [s]
  end.

(** [xs[i]] on a list. *)
Definition item {A} (xs : list A) (i : nat) : result A :=
  match nth_error xs i with
  | Some x => Ok x
  | None => Raise IndexError
  end.

(** ["." in filename and
     filename.rsplit(".", 1)[1].lower() in Config.ALLOWED_EXTENSIONS] *)
Definition _allowed_file (filename : str) : result bool :=
  if contains_char "." filename then
    ext <- item (rsplit1 "." filename) 1 ;;
    Ok (str_in (lower ext) ALLOWED_EXTENSIONS)
  else Ok false.

(** The name [api_export] gives the download:
    [cached["filename"].rsplit(".", 1)[0] + "_analysis.json"] *)
Definition export_filename (filename : str) : result str :=
  stem <- item (rsplit1 "." filename) 0 ;;
  Ok (stem ++ "_analysis.json")%string.

End App.

(* ================================================================== *)
(** ** analyzer/pipeline.py *)
(* ================================================================== *)

Module Pipeline.

(** [analyze_text] runs the NLP producer and reads the clock twice.  The
    producer ([process_text], which wraps the external tagger and parser)
    and the rounded elapsed time are parameters, as are the float
    operations of the statistics. *)
Section WithCollaborators.
Variable float : Type.
Variable truediv : Z -> Z -> float.
Variable mul_int : float -> Z -> float.
Variable round_to : float -> Z -> float.
Variable process_text : str -> Doc.
Variable elapsed : float.

Record Meta := mkMeta {
  char_count : Z;
  processing_time_sec : float
}.

Record Analysis := mkAnalysis {
  meta : Meta;
  dictionary : list Dictionary.Entry;
  statistics : Statistics.Report float;
  collocations : Collocations.CollocationIndex
}.

Definition analyze_text (text : str) (top_n : Z) : result Analysis :=
  let doc := process_text text in
  dictionary <- Dictionary.build_dictionary doc ;;
  stats <- Statistics.compute_statistics float truediv mul_int round_to
             doc top_n ;;
  collocations <- Collocations.extract_noun_adj_pairs doc ;;
  Ok (mkAnalysis (mkMeta (Z.of_nat (String.length text)) elapsed)
        dictionary stats collocations).
End WithCollaborators.

End Pipeline.

(* ================================================================== *)
(** ** Further specification-level notions *)
(* ================================================================== *)

Module Notions.

Definition is_noun (t : Token) : bool := str_in (pos t) ["NOUN"; "PROPN"].

(** The window pass meets the pair [p]: a NOUN or PROPN token with lemma
    [fst p] has, at most two flat positions away, an ADJ token with lemma
    [snd p]. *)
Definition window_pair (d : Doc) (p : str * str) : Prop :=
  exists i j n a,
    nth_error (tokens d) i = Some n /\ nth_error (tokens d) j = Some a
    /\ i <> j /\ (i <= j + 2)%nat /\ (j <= i + 2)%nat
    /\ is_noun n = true /\ pos a = "ADJ"
    /\ p = (lemma_of n, lemma_of a).

(** The one way in which the two strategies change their accumulators:
    recording a pair together with a phrase. *)
Definition record (st : Collocations.PairState) (p : str * str)
    (phrase : str) : Collocations.PairState :=
  Collocations.mkPairState
    (incr (Collocations.pair_counter st) p)
    (Collocations.add_example (Collocations.pair_examples st) p phrase).

(** What holds of the examples kept for the pairs of a state: every
    counted pair has at least one, no pair has more than three, none is
    kept twice. *)
Definition examples_ok (st : Collocations.PairState) : Prop :=
  forall p,
    (mem (Collocations.pair_counter st) p = true ->
     exists l, get (Collocations.pair_examples st) p = Some l /\ l <> [])
    /\ (forall l, get (Collocations.pair_examples st) p = Some l ->
          (List.length l <= 3)%nat /\ NoDup l).

(** An index as the output loop keeps it: keys without repetition, no key
    bound to the empty list. *)
Definition lists_nonempty {V} (index : dict str (list V)) : Prop :=
  NoDup (keys index) /\ forall k l, get index k = Some l -> l <> [].

(** The key of an entry of the pair list. *)
Definition pair_of (e : Collocations.PairEntry) : str * str :=
  (Collocations.pe_noun e, Collocations.pe_adj e).

(** The flat view holds every token object once. *)
Definition distinct_objects (d : Doc) : Prop :=
  NoDup (map addr (tokens d)).

(** The flat view lists the tokens of the sentences in order. *)
Definition flat_view (d : Doc) : Prop :=
  tokens d = flat_map sent_tokens (sents d).

(** The tokens with POS [p], and how many of them have the lemma [l]. *)
Definition with_pos (p : str) (toks : list Token) : list Token :=
  filter (fun t => String.eqb (pos t) p) toks.

Definition lemma_count (p l : str) (toks : list Token) : nat :=
  List.length (filter (fun t => String.eqb (lemma_of t) l) (with_pos p toks)).

(** What it means for [l] to be the top-[top_n] list of the lemmas with POS
    [p]: lemmas listed once, by count descending, at most [top_n] of them,
    each with the number of its tokens; and a lemma of that POS that is
    not listed means the list is full and holds no smaller count. *)
Definition top_list_of (top_n : Z) (p : str) (toks : list Token)
    (l : list Statistics.LemmaCount) : Prop :=
  NoDup (map Statistics.lc_lemma l)
  /\ StronglySorted
       (fun a b => (Statistics.lc_count b <= Statistics.lc_count a)%Z) l
  /\ (List.length l <= Z.to_nat top_n)%nat
  /\ (forall x, In x l ->
        Statistics.lc_count x
        = Z.of_nat (lemma_count p (Statistics.lc_lemma x) toks)
        /\ (1 <= Statistics.lc_count x)%Z)
  /\ (forall lem, (1 <= lemma_count p lem toks)%nat ->
        ~ In lem (map Statistics.lc_lemma l) ->
        List.length l = Z.to_nat top_n
        /\ forall x, In x l ->
             (Z.of_nat (lemma_count p lem toks) <= Statistics.lc_count x)%Z).

(** The five top lists of a report, each with its POS. *)
Definition tops_of {float : Type} (r : Statistics.Report float)
    : list (str * list Statistics.LemmaCount) :=
  [("NOUN", Statistics.top_nouns float r);
   ("ADJ", Statistics.top_adj float r);
   ("VERB", Statistics.top_verbs float r);
   ("ADV", Statistics.top_adv float r);
   ("PROPN", Statistics.top_propn float r)].

End Notions.

Import Notions.

(* ================================================================== *)
(** ** Facts about the Python primitives *)
(* ================================================================== *)

Module PyFacts.

#[export] Instance HashableLaws_str : HashableLaws str.
Proof. exact String.eqb_eq. Qed.

#[export] Instance HashableLaws_pair : HashableLaws (str * str).
Proof.
  intros [a1 a2] [b1 b2]; unfold key_eqb, Hashable_pair, pair_eqb; simpl.
  rewrite andb_true_iff, !String.eqb_eq. split.
  - intros [-> ->]; reflexivity.
  - intros [= -> ->]; auto.
Qed.

Lemma str_in_In x xs : str_in x xs = true <-> In x xs.
Proof.
  unfold str_in. rewrite existsb_exists. split.
  - intros (y & Hy & E). apply String.eqb_eq in E. now subst.
  - intros Hx. exists x. split; [assumption | apply String.eqb_refl].
Qed.

Lemma str_in_false x xs : str_in x xs = false <-> ~ In x xs.
Proof.
  rewrite <- str_in_In. destruct (str_in x xs); split; congruence.
Qed.

(** *** Dictionaries *)

Section DictFacts.
Context {K V : Type} `{HashableLaws K}.
Implicit Types (d : dict K V) (k : K) (v : V).

Lemma key_eqb_refl k : key_eqb k k = true.
Proof. now apply key_eqb_eq. Qed.

Lemma key_eqb_neq k k' : k <> k' -> key_eqb k k' = false.
Proof.
  intros N. destruct (key_eqb k k') eqn:E; [|reflexivity].
  apply key_eqb_eq in E. contradiction.
Qed.

Lemma key_eq_dec k k' : {k = k'} + {k <> k'}.
Proof.
  destruct (key_eqb k k') eqn:E.
  - left. now apply key_eqb_eq.
  - right. intros ->. rewrite key_eqb_refl in E. discriminate.
Qed.

Lemma get_set_same d k v : get (set d k v) k = Some v.
Proof.
  induction d as [|[k' v'] r IH]; simpl.
  - now rewrite key_eqb_refl.
  - destruct (key_eqb k' k) eqn:E; simpl; rewrite E; auto.
Qed.

Lemma get_set_other d k k' v : k <> k' -> get (set d k v) k' = get d k'.
Proof.
  intros N. induction d as [|[k0 v0] r IH]; simpl.
  - now rewrite key_eqb_neq.
  - destruct (key_eqb k0 k) eqn:E; simpl.
    + apply key_eqb_eq in E. subst k0. now rewrite key_eqb_neq.
    + now rewrite IH.
Qed.

Lemma get_None_keys d k : get d k = None <-> ~ In k (keys d).
Proof.
  induction d as [|[k0 v0] r IH]; simpl.
  - tauto.
  - destruct (key_eqb k0 k) eqn:E.
    + apply key_eqb_eq in E. subst. split; [discriminate | tauto].
    + rewrite IH. split; [|tauto].
      intros N [->|?]; [|tauto]. rewrite key_eqb_refl in E. discriminate.
Qed.

Lemma get_Some_In d k v : get d k = Some v -> In (k, v) d.
Proof.
  induction d as [|[k0 v0] r IH]; simpl; [discriminate|].
  destruct (key_eqb k0 k) eqn:E.
  - apply key_eqb_eq in E. intros [= ->]. subst. now left.
  - auto.
Qed.

Lemma In_get_Some d k v : NoDup (keys d) -> In (k, v) d -> get d k = Some v.
Proof.
  induction d as [|[k0 v0] r IH]; simpl; [tauto|].
  intros ND [[= -> ->]|Hin].
  - now rewrite key_eqb_refl.
  - inversion ND as [|? ? Hk0 ND']; subst.
    destruct (key_eqb k0 k) eqn:E.
    + apply key_eqb_eq in E. subst. exfalso. apply Hk0.
      change k with (fst (k, v)). now apply in_map.
    + auto.
Qed.

Lemma mem_true d k : mem d k = true <-> In k (keys d).
Proof.
  unfold mem. destruct (get d k) eqn:E.
  - split; [intros _ | reflexivity].
    apply get_Some_In in E. change k with (fst (k, v)). now apply in_map.
  - apply get_None_keys in E. split; [discriminate | contradiction].
Qed.

Lemma keys_set d k v :
  keys (set d k v) = if mem d k then keys d else keys d ++ [k].
Proof.
  unfold mem. induction d as [|[k0 v0] r IH]; simpl; [reflexivity|].
  destruct (key_eqb k0 k) eqn:E; simpl; [reflexivity|].
  rewrite IH. now destruct (get r k).
Qed.

Lemma NoDup_keys_set d k v : NoDup (keys d) -> NoDup (keys (set d k v)).
Proof.
  intros ND. rewrite keys_set. destruct (mem d k) eqn:E; [assumption|].
  apply NoDup_app; [assumption | repeat constructor; intros [] | ].
  intros x Hx [<-|[]].
  apply mem_true in Hx. congruence.
Qed.

End DictFacts.

(** *** Loops in the [result] monad *)

Lemma for_each_invariant {S X} (P : S -> Prop) (body : S -> X -> result S)
    (xs : list X) :
  (forall s x, In x xs -> P s -> exists s', body s x = Ok s' /\ P s') ->
  forall s, P s -> exists s', for_each body xs s = Ok s' /\ P s'.
Proof.
  induction xs as [|x rest IH]; intros Hbody s Hs; simpl.
  - eauto.
  - destruct (Hbody s x (or_introl eq_refl) Hs) as (s1 & -> & Hs1). simpl.
    apply IH; [|assumption]. intros s0 y Hy. apply Hbody. now right.
Qed.

(** *** Order of occurrence *)

Lemma precedes_cons_same {A} (l : list A) (x a b : A) :
  precedes l a b -> precedes (x :: l) a b.
Proof. intros (l1 & l2 & l3 & ->). now exists (x :: l1), l2, l3. Qed.

Lemma precedes_head {A} (l : list A) (a b : A) :
  In b l -> precedes (a :: l) a b.
Proof.
  intros Hb. apply in_split in Hb as (l2 & l3 & ->). now exists [], l2, l3.
Qed.

Lemma precedes_cons_inv {A} (l : list A) (x a b : A) :
  precedes (x :: l) a b -> (x = a /\ In b l) \/ precedes l a b.
Proof.
  intros (l1 & l2 & l3 & E). destruct l1 as [|y l1]; simpl in E.
  - injection E as -> ->. left. split; [reflexivity|].
    apply in_or_app. right. now left.
  - injection E as -> ->. right. now exists l1, l2, l3.
Qed.

Lemma precedes_filter {A} (f : A -> bool) (l : list A) (a b : A) :
  precedes l a b -> f a = true -> f b = true -> precedes (filter f l) a b.
Proof.
  intros (l1 & l2 & l3 & ->) Ha Hb.
  exists (filter f l1), (filter f l2), (filter f l3).
  rewrite filter_app. simpl. rewrite Ha, filter_app. simpl. now rewrite Hb.
Qed.

Lemma precedes_filter_inv {A} (f : A -> bool) (l : list A) (a b : A) :
  precedes (filter f l) a b -> precedes l a b.
Proof.
  induction l as [|x l IH]; simpl; intros Hp.
  - destruct Hp as ([|? ?] & ? & ? & E); discriminate E.
  - destruct (f x).
    + apply precedes_cons_inv in Hp as [[-> Hb]|Hp].
      * apply precedes_head. apply filter_In in Hb. tauto.
      * apply precedes_cons_same. auto.
    + apply precedes_cons_same. auto.
Qed.

Lemma precedes_map_inv {A B} (g : A -> B) (l : list A) (a' b' : B) :
  precedes (map g l) a' b' ->
  exists a b, g a = a' /\ g b = b' /\ precedes l a b.
Proof.
  induction l as [|x l IH]; simpl; intros Hp.
  - destruct Hp as ([|? ?] & ? & ? & E); discriminate E.
  - apply precedes_cons_inv in Hp as [[<- Hb]|Hp].
    + apply in_map_iff in Hb as (b & <- & Hb).
      exists x, b. repeat split. now apply precedes_head.
    + destruct (IH Hp) as (a & b & <- & <- & Hab).
      exists a, b. repeat split. now apply precedes_cons_same.
Qed.

Lemma precedes_sorted {A} (R : A -> A -> Prop) (l : list A) (a b : A) :
  StronglySorted R l -> precedes l a b -> R a b.
Proof.
  induction 1 as [|x l Hs IH Hall]; intros Hp.
  - destruct Hp as ([|? ?] & ? & ? & E); discriminate E.
  - apply precedes_cons_inv in Hp as [[-> Hb]|Hp]; [|auto].
    rewrite Forall_forall in Hall. auto.
Qed.

Lemma precedes_snoc_inv {A} (l : list A) (c a b : A) :
  precedes (l ++ [c]) a b -> precedes l a b \/ (In a l /\ b = c).
Proof.
  intros (l1 & l2 & l3 & E).
  destruct l3 as [|z l3] using rev_ind.
  - right. change (l1 ++ a :: l2 ++ [b]) with (l1 ++ (a :: l2) ++ [b]) in E.
    rewrite app_assoc in E. apply app_inj_tail in E as [-> ->].
    split; [|reflexivity]. apply in_or_app. right. now left.
  - clear IHl3. left.
    replace (l1 ++ a :: l2 ++ b :: l3 ++ [z])
      with ((l1 ++ a :: l2 ++ b :: l3) ++ [z]) in E.
    + apply app_inj_tail in E as [-> _]. now exists l1, l2, l3.
    + rewrite <- app_assoc. simpl. f_equal. f_equal.
      rewrite <- app_assoc. reflexivity.
Qed.

Lemma precedes_map {A B} (g : A -> B) (l : list A) (a b : A) :
  precedes l a b -> precedes (map g l) (g a) (g b).
Proof.
  intros (l1 & l2 & l3 & ->). exists (map g l1), (map g l2), (map g l3).
  rewrite map_app. simpl. now rewrite map_app.
Qed.

(** *** Stable sorting *)

Section Sorting.
Context {A : Type} (before : A -> A -> bool).

Lemma insert_by_perm x l : Permutation (insert_by before x l) (x :: l).
Proof.
  induction l as [|y r IH]; simpl; [reflexivity|].
  destruct (before y x); [|reflexivity].
  rewrite IH. apply perm_swap.
Qed.

Lemma sorted_by_perm l : Permutation (sorted_by before l) l.
Proof.
  induction l as [|x r IH]; simpl; [reflexivity|].
  rewrite insert_by_perm. now constructor.
Qed.

Lemma sorted_by_In l x : In x (sorted_by before l) <-> In x l.
Proof.
  split; apply Permutation_in;
    [apply sorted_by_perm | symmetry; apply sorted_by_perm].
Qed.

(** A class of elements no two of which are strictly ordered keeps its
    order. *)
Lemma insert_by_filter (f : A -> bool) x l :
  (forall y, before y x = true -> f y = true -> f x = true -> False) ->
  filter f (insert_by before x l) = filter f (x :: l).
Proof.
  intros Hcls. induction l as [|y r IH]; simpl; [reflexivity|].
  destruct (before y x) eqn:Eb; [|reflexivity].
  simpl in *. rewrite IH.
  destruct (f y) eqn:Ey, (f x) eqn:Ex; try reflexivity.
  exfalso. eauto.
Qed.

Lemma sorted_by_stable (f : A -> bool) l :
  (forall x y, before y x = true -> f y = true -> f x = true -> False) ->
  filter f (sorted_by before l) = filter f l.
Proof.
  intros Hcls. induction l as [|x r IH]; simpl; [reflexivity|].
  rewrite insert_by_filter by eauto. simpl. now rewrite IH.
Qed.

Hypothesis before_asym : forall x y, before y x = true -> before x y = false.
Hypothesis not_before_trans :
  forall a b c, before b a = false -> before c b = false -> before c a = false.

Lemma insert_by_sorted x l :
  StronglySorted (fun a b => before b a = false) l ->
  StronglySorted (fun a b => before b a = false) (insert_by before x l).
Proof.
  induction 1 as [|y r Hs IH Hall]; simpl.
  - repeat constructor.
  - destruct (before y x) eqn:Eb.
    + constructor; [assumption|].
      eapply Permutation_Forall; [symmetry; apply insert_by_perm|].
      constructor; auto.
    + constructor; [now constructor|].
      constructor; [assumption|].
      eapply Forall_impl; [|exact Hall]. simpl. eauto.
Qed.

Lemma sorted_by_sorted l :
  StronglySorted (fun a b => before b a = false) (sorted_by before l).
Proof.
  induction l as [|x r IH]; simpl; [constructor | now apply insert_by_sorted].
Qed.
End Sorting.

Lemma StronglySorted_weaken {A} (R R' : A -> A -> Prop) (l : list A) :
  (forall a b, R a b -> R' a b) -> StronglySorted R l -> StronglySorted R' l.
Proof.
  intros Himp. induction 1 as [|x l Hs IH Hall]; constructor; auto.
  eapply Forall_impl; [|exact Hall]. auto.
Qed.

Lemma sorted_desc_sorted {A} (key : A -> Z) (l : list A) :
  StronglySorted (fun a b => (key b <= key a)%Z) (sorted_desc key l).
Proof.
  eapply StronglySorted_weaken; [|apply sorted_by_sorted].
  - intros a b E. simpl in E. apply Z.ltb_ge in E. exact E.
  - intros x y E. apply Z.ltb_lt in E. apply Z.ltb_ge. lia.
  - intros a b c E1 E2. apply Z.ltb_ge in E1, E2. apply Z.ltb_ge. lia.
Qed.

(** Stability of [sorted(..., reverse=True)]: elements with equal keys keep
    their relative order. *)
Lemma sorted_desc_stable {A} (key : A -> Z) (l : list A) (a b : A) :
  precedes (sorted_desc key l) a b -> key a = key b -> precedes l a b.
Proof.
  intros Hp E.
  apply (precedes_filter (fun x => (key x =? key a)%Z)) in Hp.
  - unfold sorted_desc in Hp. rewrite sorted_by_stable in Hp.
    + now apply precedes_filter_inv in Hp.
    + intros x y Hlt Hy Hx.
      apply Z.ltb_lt in Hlt. apply Z.eqb_eq in Hy, Hx. lia.
  - apply Z.eqb_refl.
  - apply Z.eqb_eq. auto.
Qed.


(** *** Counters *)

Section Counters.
Context {K : Type} `{HashableLaws K}.
Implicit Types (c : dict K Z) (k : K).

Lemma get_incr c k k' :
  get (incr c k) k'
  = if key_eqb k k' then Some (count_of c k + 1)%Z else get c k'.
Proof.
  unfold incr. destruct (key_eqb k k') eqn:E.
  - apply key_eqb_eq in E. subst. apply get_set_same.
  - apply get_set_other. intros ->. rewrite key_eqb_refl in E. discriminate.
Qed.

Lemma NoDup_keys_incr c k : NoDup (keys c) -> NoDup (keys (incr c k)).
Proof. apply NoDup_keys_set. Qed.

Lemma NoDup_keys_fold_incr (l : list K) c :
  NoDup (keys c) -> NoDup (keys (fold_left incr l c)).
Proof.
  revert c. induction l as [|k l IH]; intros c ND; simpl; [assumption|].
  apply IH, NoDup_keys_incr, ND.
Qed.

(** Counting a list of keys into a counter. *)
Lemma get_fold_incr (l : list K) c k :
  get (fold_left incr l c) k
  = match List.length (filter (key_eqb k) l) with
    | O => get c k
    | S n => Some (count_of c k + Z.of_nat (S n))%Z
    end.
Proof.
  revert c. induction l as [|x l IH]; intros c; simpl; [reflexivity|].
  rewrite IH. unfold count_of at 1. rewrite get_incr.
  destruct (key_eqb k x) eqn:E; simpl.
  - apply key_eqb_eq in E. subst x. rewrite key_eqb_refl.
    destruct (List.length (filter (key_eqb k) l)); f_equal; lia.
  - destruct (key_eqb x k) eqn:E'.
    + apply key_eqb_eq in E'. subst. rewrite key_eqb_refl in E. discriminate.
    + reflexivity.
Qed.
End Counters.

Lemma fold_right_add_perm (l l' : list Z) :
  Permutation l l' -> fold_right Z.add 0%Z l = fold_right Z.add 0%Z l'.
Proof. induction 1; simpl; lia. Qed.

Lemma sum_ints_fold_right (l : list Z) : sum_ints l = fold_right Z.add 0%Z l.
Proof.
  unfold sum_ints.
  enough (G : forall a, fold_left Z.add l a = (a + fold_right Z.add 0 l)%Z)
    by (rewrite G; lia).
  induction l as [|x l IH]; intros a; simpl; [lia|]. rewrite IH. lia.
Qed.

End PyFacts.

Import PyFacts.

(* ================================================================== *)
(** ** The collocation extractor *)
(* ================================================================== *)

Module CollocationFacts.
Import Collocations.

(** *** Strategy 1 records exactly the syntactic pairs *)

Lemma get_id_to_token (s : Sent) (h : str) :
  get (id_to_token s) h
  = find (fun x => String.eqb (id x) h) (rev (sent_tokens s)).
Proof.
  unfold id_to_token.
  induction (sent_tokens s) as [|x l IH] using rev_ind; [reflexivity|].
  rewrite fold_left_app, rev_app_distr. simpl.
  destruct (String.eqb (id x) h) eqn:E.
  - apply String.eqb_eq in E. subst h. apply get_set_same.
  - rewrite get_set_other; [exact IH|].
    now apply String.eqb_neq.
Qed.

Lemma resolve_head_of (s : Sent) (t : Token) :
  resolve_head (id_to_token s) t = head_of s t.
Proof.
  unfold resolve_head, head_of. destruct (head_id t); [|reflexivity].
  apply get_id_to_token.
Qed.

Lemma pass1_token_counter (s : Sent) (st : PairState) (t : Token) :
  pair_counter (pass1_token (id_to_token s) st t)
  = match syntactic_pair s t with
    | Some p => incr (pair_counter st) p
    | None => pair_counter st
    end.
Proof.
  unfold pass1_token, syntactic_pair. rewrite resolve_head_of.
  unfold ADJ_LIKE_POS, str_in. simpl.
  destruct (rel t) as [r|]; simpl; [|reflexivity].
  destruct (String.eqb r "amod"); simpl;
    [|destruct (head_of s t); reflexivity].
  destruct (String.eqb (pos t) "ADJ"), (String.eqb (pos t) "VERB"); simpl;
    destruct (head_of s t) as [h|]; simpl; try reflexivity;
    destruct (String.eqb (pos h) "NOUN"), (String.eqb (pos h) "PROPN");
    reflexivity.
Qed.

Lemma pass1_sent_counter (s : Sent) (st : PairState) :
  pair_counter (pass1_sent st s)
  = fold_left incr (recordings_of_sent s) (pair_counter st).
Proof.
  unfold pass1_sent, recordings_of_sent.
  generalize (sent_tokens s) as l. intros l. revert st.
  induction l as [|t l IH]; intros st; simpl; [reflexivity|].
  rewrite IH, pass1_token_counter, fold_left_app.
  destruct (syntactic_pair s t); reflexivity.
Qed.

Lemma pass1_counter (d : Doc) (st : PairState) :
  pair_counter (pass1 d st)
  = fold_left incr (pass1_recordings d) (pair_counter st).
Proof.
  unfold pass1, pass1_recordings. revert st.
  induction (sents d) as [|s l IH]; intros st; simpl; [reflexivity|].
  rewrite IH, pass1_sent_counter, fold_left_app. reflexivity.
Qed.

(** After strategy 1 the counter holds, for every pair, the number of its
    syntactic recordings, and no entry for a pair never recorded. *)
Lemma pass1_get (d : Doc) (p : pair_key) :
  get (pair_counter (pass1 d empty_state)) p
  = match pass1_count d p with
    | O => None
    | S n => Some (Z.of_nat (S n))
    end.
Proof.
  rewrite pass1_counter, get_fold_incr. unfold pass1_count. simpl.
  reflexivity.
Qed.

Lemma pass1_NoDup (d : Doc) :
  NoDup (keys (pair_counter (pass1 d empty_state))).
Proof. rewrite pass1_counter. apply NoDup_keys_fold_incr. constructor. Qed.

(** *** Strategy 2 never touches an existing entry and never raises *)

Lemma window_extends_refl c : window_extends c c.
Proof. intros p. destruct (get c p); auto. Qed.

Lemma window_extends_trans c1 c2 c3 :
  window_extends c1 c2 -> window_extends c2 c3 -> window_extends c1 c3.
Proof.
  intros H12 H23 p. specialize (H12 p). specialize (H23 p).
  destruct (get c1 p) as [n|].
  - now rewrite H12 in H23.
  - destruct H12 as [E|E]; rewrite E in H23; auto.
Qed.

Lemma window_extends_incr (c : dict pair_key Z) (p : pair_key) :
  mem c p = false -> window_extends c (incr c p).
Proof.
  intros Hm q.
  assert (Ep : get c p = None).
  { unfold mem in Hm. destruct (get c p); [discriminate | reflexivity]. }
  rewrite get_incr. unfold count_of. rewrite Ep.
  destruct (key_eqb p q) eqn:E.
  - apply key_eqb_eq in E. subst q. rewrite Ep. now right.
  - destruct (get c q); auto.
Qed.

(** The invariant of the loops of strategy 2, relative to the counter [c0]
    the pass starts from. *)
Lemma pass2_neighbor_ok (c0 : dict pair_key Z) toks i noun_lemma st j :
  (j < List.length toks)%nat ->
  window_extends c0 (pair_counter st) /\ NoDup (keys (pair_counter st)) ->
  exists st', pass2_neighbor toks i noun_lemma st j = Ok st'
    /\ window_extends c0 (pair_counter st')
    /\ NoDup (keys (pair_counter st')).
Proof.
  intros Hj [Hext ND]. unfold pass2_neighbor.
  destruct (j =? i)%nat; [eauto|].
  destruct (nth_error toks j) as [other|] eqn:En.
  2:{ apply nth_error_None in En. lia. }
  destruct (negb (String.eqb (pos other) "ADJ")); [eauto|].
  destruct (mem (pair_counter st) (noun_lemma, lemma_of other)) eqn:Em;
    [eauto|].
  eexists. split; [reflexivity|]. simpl. split.
  - eapply window_extends_trans; [exact Hext|].
    now apply window_extends_incr.
  - now apply NoDup_keys_incr.
Qed.

Lemma pass2_token_ok (c0 : dict pair_key Z) toks st it :
  window_extends c0 (pair_counter st) /\ NoDup (keys (pair_counter st)) ->
  exists st', pass2_token toks st it = Ok st'
    /\ window_extends c0 (pair_counter st')
    /\ NoDup (keys (pair_counter st')).
Proof.
  intros Hst. destruct it as [i token]. unfold pass2_token.
  destruct (negb (str_in (pos token) ["NOUN"; "PROPN"])); [eauto|].
  apply (for_each_invariant
           (fun s => window_extends c0 (pair_counter s)
                     /\ NoDup (keys (pair_counter s)))); [|assumption].
  intros s j Hj Hs. apply pass2_neighbor_ok; [|assumption].
  unfold range in Hj. apply in_seq in Hj. lia.
Qed.

Lemma pass2_ok (d : Doc) (st : PairState) :
  NoDup (keys (pair_counter st)) ->
  exists st', pass2 d st = Ok st'
    /\ window_extends (pair_counter st) (pair_counter st')
    /\ NoDup (keys (pair_counter st')).
Proof.
  intros ND. unfold pass2.
  apply (for_each_invariant
           (fun s => window_extends (pair_counter st) (pair_counter s)
                     /\ NoDup (keys (pair_counter s)))).
  - intros s it _ Hs. now apply pass2_token_ok.
  - split; [apply window_extends_refl | assumption].
Qed.

(** *** The output loop *)

Lemma build_step_eq examples b item :
  build_step examples b item
  = mkBuilt
      (append_to (b_noun_adj b) (fst (fst item)) (adj_entry_of examples item))
      (append_to (b_adj_noun b) (snd (fst item)) (noun_entry_of item))
      (b_pairs b ++ [pair_entry_of examples item]).
Proof. destruct item as [[n a] c]. reflexivity. Qed.

Lemma lookup_append_to {V} (index : dict str (list V)) k x k' :
  lookup_list (append_to index k x) k'
  = if String.eqb k k' then lookup_list index k' ++ [x]
    else lookup_list index k'.
Proof.
  unfold append_to, default_subscript, lookup_list.
  destruct (String.eqb k k') eqn:E.
  - apply String.eqb_eq in E. subst k'.
    destruct (get index k) eqn:G; rewrite get_set_same; reflexivity.
  - apply String.eqb_neq in E.
    destruct (get index k) eqn:G; rewrite !get_set_other by assumption;
      reflexivity.
Qed.

Lemma fold_build_pairs examples l b :
  b_pairs (fold_left (build_step examples) l b)
  = b_pairs b ++ map (pair_entry_of examples) l.
Proof.
  revert b. induction l as [|x l IH]; intros b; simpl.
  - now rewrite app_nil_r.
  - rewrite IH, build_step_eq. simpl. now rewrite <- app_assoc.
Qed.

Lemma fold_build_noun_adj examples l b n :
  lookup_list (b_noun_adj (fold_left (build_step examples) l b)) n
  = lookup_list (b_noun_adj b) n
    ++ map (adj_entry_of examples)
         (filter (fun item => String.eqb (fst (fst item)) n) l).
Proof.
  revert b. induction l as [|x l IH]; intros b; simpl.
  - now rewrite app_nil_r.
  - rewrite IH, build_step_eq. simpl. rewrite lookup_append_to.
    destruct (String.eqb (fst (fst x)) n); simpl; [|reflexivity].
    now rewrite <- app_assoc.
Qed.

Lemma fold_build_adj_noun examples l b a :
  lookup_list (b_adj_noun (fold_left (build_step examples) l b)) a
  = lookup_list (b_adj_noun b) a
    ++ map noun_entry_of
         (filter (fun item => String.eqb (snd (fst item)) a) l).
Proof.
  revert b. induction l as [|x l IH]; intros b; simpl.
  - now rewrite app_nil_r.
  - rewrite IH, build_step_eq. simpl. rewrite lookup_append_to.
    destruct (String.eqb (snd (fst x)) a); simpl; [|reflexivity].
    now rewrite <- app_assoc.
Qed.

Lemma lookup_sort_lists {V} (count : V -> Z) (index : dict str (list V)) k :
  lookup_list (sort_lists count index) k
  = sorted_desc count (lookup_list index k).
Proof.
  unfold lookup_list, sort_lists.
  induction index as [|[k0 l0] r IH]; simpl; [reflexivity|].
  destruct (key_eqb k0 k); [reflexivity | exact IH].
Qed.

Lemma pair_list_build (st : PairState) :
  pair_list (build_output st)
  = map (pair_entry_of (pair_examples st)) (most_common (pair_counter st)).
Proof. unfold build_output. simpl. now rewrite fold_build_pairs. Qed.

Lemma In_most_common (c : dict pair_key Z) (p : pair_key) (n : Z) :
  NoDup (keys c) -> (In (p, n) (most_common c) <-> get c p = Some n).
Proof.
  intros ND. unfold most_common, sorted_desc. rewrite sorted_by_In. split.
  - now apply In_get_Some.
  - apply get_Some_In.
Qed.

(** The entries of the three views are the entries of the final counter. *)
Lemma In_pair_list (st : PairState) (e : PairEntry) :
  NoDup (keys (pair_counter st)) ->
  In e (pair_list (build_output st)) <->
  exists p n, get (pair_counter st) p = Some n
              /\ e = pair_entry_of (pair_examples st) (p, n).
Proof.
  intros ND. rewrite pair_list_build, in_map_iff. split.
  - intros ([p n] & <- & Hin). exists p, n. split; [|reflexivity].
    now apply In_most_common.
  - intros (p & n & G & ->). exists (p, n). split; [reflexivity|].
    now apply In_most_common.
Qed.

Lemma In_noun_adj_index (st : PairState) (N : str) (e : AdjEntry) :
  NoDup (keys (pair_counter st)) ->
  In e (lookup_list (noun_adj_index (build_output st)) N) <->
  exists a n, get (pair_counter st) (N, a) = Some n
              /\ e = adj_entry_of (pair_examples st) ((N, a), n).
Proof.
  intros ND. unfold build_output. simpl.
  rewrite lookup_sort_lists. unfold sorted_desc at 1. rewrite sorted_by_In.
  rewrite fold_build_noun_adj. simpl. rewrite in_map_iff. split.
  - intros ([[n0 a] n] & <- & Hin). apply filter_In in Hin as [Hin E].
    simpl in E. apply String.eqb_eq in E. subst n0.
    exists a, n. split; [|reflexivity]. now apply In_most_common.
  - intros (a & n & G & ->). exists ((N, a), n). split; [reflexivity|].
    apply filter_In. split; [now apply In_most_common|].
    simpl. apply String.eqb_refl.
Qed.

Lemma In_adj_noun_index (st : PairState) (A : str) (e : NounEntry) :
  NoDup (keys (pair_counter st)) ->
  In e (lookup_list (adj_noun_index (build_output st)) A) <->
  exists n c, get (pair_counter st) (n, A) = Some c
              /\ e = noun_entry_of ((n, A), c).
Proof.
  intros ND. unfold build_output. simpl.
  rewrite lookup_sort_lists. unfold sorted_desc at 1. rewrite sorted_by_In.
  rewrite fold_build_adj_noun. simpl. rewrite in_map_iff. split.
  - intros ([[n a0] c] & <- & Hin). apply filter_In in Hin as [Hin E].
    simpl in E. apply String.eqb_eq in E. subst a0.
    exists n, c. split; [|reflexivity]. now apply In_most_common.
  - intros (n & c & G & ->). exists ((n, A), c). split; [reflexivity|].
    apply filter_In. split; [now apply In_most_common|].
    simpl. apply String.eqb_refl.
Qed.

(** The extractor always returns, and what it returns is built from a
    counter that extends the counter of strategy 1. *)
Lemma extract_ok (d : Doc) :
  exists st, extract_noun_adj_pairs d = Ok (build_output st)
    /\ window_extends (pair_counter (pass1 d empty_state)) (pair_counter st)
    /\ NoDup (keys (pair_counter st)).
Proof.
  destruct (pass2_ok d (pass1 d empty_state) (pass1_NoDup d))
    as (st & E & Hext & ND).
  exists st. unfold extract_noun_adj_pairs. rewrite E. simpl. auto.
Qed.

(** *** The claims about the extractor *)

Import Samples.

(** C1 (precedence of the syntactic pass).  A pair that the syntactic pass
    records at least once is present in the returned index, and in each of
    the three views (pair list, noun index, adjective index) its count is
    the number of syntactic recordings: the window pass adds nothing to
    it, wherever else the pair co-occurs in the document. *)
Theorem syntactic_count_is_final (d : Doc) (N A : str) :
  (1 <= pass1_count d (N, A))%nat ->
  exists idx, extract_noun_adj_pairs d = Ok idx
    /\ (exists e, In e (pair_list idx) /\ pe_noun e = N /\ pe_adj e = A)
    /\ (forall e, In e (pair_list idx) -> pe_noun e = N -> pe_adj e = A ->
          pe_count e = Z.of_nat (pass1_count d (N, A)))
    /\ (forall e, In e (lookup_list (noun_adj_index idx) N) -> ae_adj e = A ->
          ae_count e = Z.of_nat (pass1_count d (N, A)))
    /\ (forall e, In e (lookup_list (adj_noun_index idx) A) -> ne_noun e = N ->
          ne_count e = Z.of_nat (pass1_count d (N, A))).
Proof.
  intros Hrec.
  destruct (extract_ok d) as (st & Hex & Hext & ND).
  assert (G : get (pair_counter st) (N, A)
              = Some (Z.of_nat (pass1_count d (N, A)))).
  { specialize (Hext (N, A)). rewrite pass1_get in Hext.
    destruct (pass1_count d (N, A)); [lia | exact Hext]. }
  exists (build_output st). split; [exact Hex|]. repeat split.
  - exists (pair_entry_of (pair_examples st)
              ((N, A), Z.of_nat (pass1_count d (N, A)))).
    split; [|split; reflexivity].
    apply In_pair_list; eauto.
  - intros e He Hn Ha. apply In_pair_list in He as ([n a] & c & G' & ->);
      [|assumption].
    simpl in *. subst. congruence.
  - intros e He Ha. apply In_noun_adj_index in He as (a & c & G' & ->);
      [|assumption].
    simpl in *. subst. congruence.
  - intros e He Hn. apply In_adj_noun_index in He as (n & c & G' & ->);
      [|assumption].
    simpl in *. subst. congruence.
Qed.

Lemma syntactic_count_is_final_witness :
  exists idx, extract_noun_adj_pairs precedence_doc = Ok idx
    /\ exists e, In e (pair_list idx)
         /\ pe_noun e = "house" /\ pe_adj e = "old" /\ pe_count e = 1%Z.
Proof.
  destruct (syntactic_count_is_final precedence_doc "house" "old")
    as (idx & Hex & (e & He & Hn & Ha) & Hcount & _).
  - vm_compute. lia.
  - exists idx. split; [exact Hex|]. exists e. repeat split; try assumption.
    now rewrite (Hcount e He Hn Ha).
Defined.

(** C2 (totals).  [total_pairs] is the sum of the counts of [pair_list],
    [unique_pairs] is its length, and the entries of [pair_list] have
    pairwise distinct (noun, adjective) keys. *)
Theorem totals_match_pair_list (d : Doc) :
  exists idx, extract_noun_adj_pairs d = Ok idx
    /\ total_pairs idx = sum_ints (map pe_count (pair_list idx))
    /\ unique_pairs idx = len (pair_list idx)
    /\ NoDup (map (fun e => (pe_noun e, pe_adj e)) (pair_list idx)).
Proof.
  destruct (extract_ok d) as (st & Hex & _ & ND).
  exists (build_output st). split; [exact Hex|].
  rewrite pair_list_build.
  assert (Hperm : Permutation (most_common (pair_counter st)) (pair_counter st))
    by apply sorted_by_perm.
  repeat split.
  - unfold build_output. simpl. rewrite map_map. simpl.
    rewrite !sum_ints_fold_right. apply fold_right_add_perm.
    unfold values. symmetry. now apply Permutation_map.
  - unfold build_output, len. simpl. rewrite length_map.
    now rewrite (Permutation_length Hperm).
  - rewrite map_map. simpl.
    apply (Permutation_NoDup (l := keys (pair_counter st))); [|exact ND].
    unfold keys. symmetry.
    rewrite (map_ext _ fst) by (intros [[? ?] ?]; reflexivity).
    now apply Permutation_map.
Qed.

(** C9 (window-only pairs count once).  A pair the syntactic pass never
    records has count 1 in every view of the returned index, however many
    window co-occurrences the document has; and one iteration of the
    window loop leaves the count of every pair that already has an entry
    as it was. *)
Theorem window_only_pair_counts_once (d : Doc) (N A : str) :
  pass1_count d (N, A) = 0%nat ->
  (exists idx, extract_noun_adj_pairs d = Ok idx
    /\ (forall e, In e (pair_list idx) -> pe_noun e = N -> pe_adj e = A ->
          pe_count e = 1%Z)
    /\ (forall e, In e (lookup_list (noun_adj_index idx) N) -> ae_adj e = A ->
          ae_count e = 1%Z)
    /\ (forall e, In e (lookup_list (adj_noun_index idx) A) -> ne_noun e = N ->
          ne_count e = 1%Z))
  /\ (forall toks i noun_lemma st j st' p n,
        pass2_neighbor toks i noun_lemma st j = Ok st' ->
        get (pair_counter st) p = Some n ->
        get (pair_counter st') p = Some n).
Proof.
  intros Hnone. split.
  - destruct (extract_ok d) as (st & Hex & Hext & ND).
    assert (G : forall c, get (pair_counter st) (N, A) = Some c -> c = 1%Z).
    { intros c Hc. specialize (Hext (N, A)). rewrite pass1_get, Hnone in Hext.
      destruct Hext; congruence. }
    exists (build_output st). split; [exact Hex|]. repeat split.
    + intros e He Hn Ha. apply In_pair_list in He as ([n a] & c & G' & ->);
        [|assumption].
      simpl in *. subst. auto.
    + intros e He Ha. apply In_noun_adj_index in He as (a & c & G' & ->);
        [|assumption].
      simpl in *. subst. auto.
    + intros e He Hn. apply In_adj_noun_index in He as (n & c & G' & ->);
        [|assumption].
      simpl in *. subst. auto.
  - intros toks i noun_lemma st j st' p n Hstep Hp.
    unfold pass2_neighbor in Hstep.
    destruct (j =? i)%nat; [congruence|].
    destruct (nth_error toks j) as [other|]; [|discriminate].
    destruct (negb (String.eqb (pos other) "ADJ")); [congruence|].
    destruct (mem (pair_counter st) (noun_lemma, lemma_of other)) eqn:Em;
      [congruence|].
    injection Hstep as <-. simpl.
    pose proof (window_extends_incr _ _ Em p) as Hext.
    now rewrite Hp in Hext.
Qed.

Lemma window_only_pair_counts_once_witness :
  pass1_count window_doc ("house", "red") = 0%nat
  /\ exists idx, extract_noun_adj_pairs window_doc = Ok idx
       /\ forall e, In e (pair_list idx) ->
            pe_noun e = "house" -> pe_adj e = "red" -> pe_count e = 1%Z.
Proof.
  split; [reflexivity|].
  destruct (window_only_pair_counts_once window_doc "house" "red" eq_refl)
    as [(idx & Hex & Hone & _) _].
  exists idx. split; assumption.
Defined.

(** C6 as the code has it.  The extractor returns on every document.  An
    [amod] token whose head id names no token of its sentence (or that has
    no head id) is passed over by the syntactic pass: no pair is recorded
    for it and the accumulators are unchanged.  Two tokens with the same
    id do not make the extractor raise: the id resolves to the last token
    of the sentence that carries it. *)
Theorem extractor_returns_on_every_document
    (d : Doc) (s : Sent) (t : Token) (st : PairState) :
  head_unresolved s t ->
  (exists idx, extract_noun_adj_pairs d = Ok idx)
  /\ syntactic_pair s t = None
  /\ pass1_token (id_to_token s) st t = st
  /\ (forall h, get (id_to_token s) h
                = find (fun x => String.eqb (id x) h) (rev (sent_tokens s))).
Proof.
  intros Hun.
  assert (Hhead : head_of s t = None).
  { unfold head_of. destruct (head_id t) as [h|] eqn:Eh; [|reflexivity].
    destruct (find _ _) as [x|] eqn:Ef; [|reflexivity].
    apply find_some in Ef as [Hin E]. apply String.eqb_eq in E.
    apply in_rev in Hin. exfalso. apply (Hun x Hin). congruence. }
  split; [|split; [|split]].
  - destruct (extract_ok d) as (st' & Hex & _). eauto.
  - unfold syntactic_pair. rewrite Hhead. now destruct (rel t).
  - unfold pass1_token. rewrite resolve_head_of, Hhead.
    now destruct (_ && _).
  - apply get_id_to_token.
Qed.

Lemma extractor_returns_on_every_document_witness :
  head_unresolved dangling_sent lost
  /\ extract_noun_adj_pairs dangling_doc
     = Ok (mkIndex [] [] [] 0 0).
Proof.
  assert (Hun : head_unresolved dangling_sent lost).
  { intros x [<-|[<-|[]]]; discriminate. }
  split; [exact Hun|].
  destruct (extractor_returns_on_every_document
              dangling_doc dangling_sent lost empty_state Hun)
    as ((idx & Hex) & _).
  rewrite Hex. vm_compute in Hex. congruence.
Defined.

(** C6 as stated fails: a sentence in which two tokens carry the id "1_2"
    is processed without an exception, and the [amod] token attaches to
    the last of the two. *)
Lemma id_collision_does_not_raise :
  In collision_sent (sents collision_doc)
  /\ id_collision collision_sent
  /\ extract_noun_adj_pairs collision_doc
     = Ok (mkIndex
             [("hill", [mkAdjEntry "locked" 1 ["locked hill"]])]
             [("locked", [mkNounEntry "hill" 1])]
             [mkPairEntry "hill" "locked" 1 ["locked hill"]]
             1 1)
  /\ ~ (exists e, extract_noun_adj_pairs collision_doc = Raise e).
Proof.
  split; [now left|]. split; [|split].
  - exists 1%nat, 2%nat, tree, hill. repeat split. discriminate.
  - reflexivity.
  - intros [e He]. vm_compute in He. discriminate.
Qed.

(** *** Search *)

Lemma dedup_by_adj_seen (s1 s2 : list str) (l : list AdjEntry) :
  (forall x, str_in x s1 = str_in x s2) ->
  dedup_by_adj s1 l = dedup_by_adj s2 l.
Proof.
  revert s1 s2. induction l as [|x l IH]; intros s1 s2 Hs; simpl;
    [reflexivity|].
  rewrite <- Hs. destruct (str_in (ae_adj x) s1); [now apply IH|].
  f_equal. apply IH. intros y. simpl. now rewrite Hs.
Qed.

Lemma str_in_set_add (s : list str) (a x : str) :
  str_in a s = false -> str_in x (set_add s a) = str_in x (a :: s).
Proof.
  intros Ha. unfold set_add. rewrite Ha. unfold str_in.
  rewrite existsb_app. simpl. rewrite orb_false_r. apply orb_comm.
Qed.

(** With a limit of at least 1 the loop returns the first [limit] entries
    of the deduplicated list. *)
Lemma dedup_loop_spec (limit : Z) (items : list AdjEntry) (seen : list str)
    (res : list AdjEntry) :
  (len res < limit)%Z ->
  dedup_loop limit items seen res
  = res ++ firstn (Z.to_nat limit - List.length res) (dedup_by_adj seen items).
Proof.
  revert seen res. induction items as [|x l IH]; intros seen res Hlen; simpl.
  - now rewrite firstn_nil, app_nil_r.
  - unfold len in *.
    destruct (str_in (ae_adj x) seen) eqn:Es; simpl; rewrite Z.geb_leb.
    + destruct (Z.leb_spec limit (Z.of_nat (List.length res))); [lia|].
      now apply IH.
    + rewrite length_app. simpl.
      destruct (Z.to_nat limit - List.length res)%nat as [|k] eqn:Ek; [lia|].
      simpl.
      destruct (Z.leb_spec limit (Z.of_nat (List.length res + 1))).
      * replace k with 0%nat by lia. reflexivity.
      * rewrite IH by (rewrite length_app; simpl; lia).
        rewrite length_app, <- app_assoc. simpl.
        replace (Z.to_nat limit - (List.length res + 1))%nat with k by lia.
        do 3 f_equal. apply dedup_by_adj_seen. intros y.
        now apply str_in_set_add.
Qed.

(** The two paths of the search. *)
Lemma search_exact (index : dict str (list AdjEntry)) query limit adjs :
  get index (lower (strip query)) = Some adjs ->
  search_adjectives_for_noun index query limit = slice_to adjs limit.
Proof. unfold search_adjectives_for_noun. now intros ->. Qed.

Lemma search_prefix (index : dict str (list AdjEntry)) query limit :
  get index (lower (strip query)) = None ->
  (1 <= limit)%Z ->
  search_adjectives_for_noun index query limit
  = firstn (Z.to_nat limit)
      (dedup_by_adj []
         (sorted_desc ae_count (prefix_matches index (lower (strip query))))).
Proof.
  unfold search_adjectives_for_noun. intros -> Hl.
  rewrite dedup_loop_spec by (unfold len; simpl; lia).
  simpl. now rewrite Nat.sub_0_r.
Qed.

(** *** The ranking: sort by count, keep the first entry of every adjective *)

Lemma dedup_by_adj_In seen l x :
  In x (dedup_by_adj seen l) -> In x l /\ str_in (ae_adj x) seen = false.
Proof.
  revert seen. induction l as [|y l IH]; intros seen; simpl; [tauto|].
  destruct (str_in (ae_adj y) seen) eqn:Es.
  - intros Hx. apply IH in Hx. tauto.
  - intros [<-|Hx]; [tauto|]. apply IH in Hx as [Hin Hs]. split; [tauto|].
    simpl in Hs. apply orb_false_iff in Hs. tauto.
Qed.

Lemma dedup_by_adj_NoDup seen l : NoDup (map ae_adj (dedup_by_adj seen l)).
Proof.
  revert seen. induction l as [|y l IH]; intros seen; simpl; [constructor|].
  destruct (str_in (ae_adj y) seen); [apply IH|].
  simpl. constructor; [|apply IH].
  intros Hin. apply in_map_iff in Hin as (x & E & Hx).
  apply dedup_by_adj_In in Hx as [_ Hs]. simpl in Hs.
  rewrite E, String.eqb_refl in Hs. discriminate.
Qed.

Lemma dedup_by_adj_sorted (R : AdjEntry -> AdjEntry -> Prop) seen l :
  StronglySorted R l -> StronglySorted R (dedup_by_adj seen l).
Proof.
  intros Hs. revert seen.
  induction Hs as [|y l Hs IH Hall]; intros seen; simpl; [constructor|].
  destruct (str_in (ae_adj y) seen); [apply IH|].
  constructor; [apply IH|].
  rewrite Forall_forall in *. intros x Hx.
  apply dedup_by_adj_In in Hx. apply Hall. tauto.
Qed.

(** An entry that is kept has the highest count among the entries with
    its adjective. *)
Lemma dedup_by_adj_top seen l x y :
  StronglySorted (fun a b => (ae_count b <= ae_count a)%Z) l ->
  In x (dedup_by_adj seen l) -> In y l -> ae_adj y = ae_adj x ->
  (ae_count y <= ae_count x)%Z.
Proof.
  intros Hs. revert seen.
  induction Hs as [|z l Hs IH Hall]; intros seen Hx Hy E; simpl in *;
    [contradiction|].
  rewrite Forall_forall in Hall.
  destruct (str_in (ae_adj z) seen) eqn:Es.
  - destruct Hy as [->|Hy]; [|eauto].
    apply dedup_by_adj_In in Hx as [_ Hx]. congruence.
  - destruct Hx as [<-|Hx].
    + destruct Hy as [->|Hy]; [lia | auto].
    + destruct Hy as [->|Hy]; [|eauto].
      apply dedup_by_adj_In in Hx as [_ Hx]. simpl in Hx.
      rewrite E, String.eqb_refl in Hx. discriminate.
Qed.

(** Every adjective that is not excluded keeps an entry. *)
Lemma dedup_by_adj_covers seen l y :
  In y l -> str_in (ae_adj y) seen = false ->
  exists x, In x (dedup_by_adj seen l) /\ ae_adj x = ae_adj y.
Proof.
  revert seen. induction l as [|z l IH]; intros seen Hy Hs; simpl in *;
    [contradiction|].
  destruct (str_in (ae_adj z) seen) eqn:Es.
  - destruct Hy as [->|Hy]; [congruence|].
    destruct (IH seen Hy Hs) as (x & Hx & E). eauto.
  - destruct (String.eqb (ae_adj y) (ae_adj z)) eqn:Ez.
    + apply String.eqb_eq in Ez. exists z. split; [now left | auto].
    + destruct Hy as [->|Hy]; [rewrite String.eqb_refl in Ez; discriminate|].
      destruct (IH (ae_adj z :: seen) Hy) as (x & Hx & E).
      * simpl. now rewrite Ez.
      * exists x. split; [now right | exact E].
Qed.

(** What "deduplicated and ranked by count" means for a list of entries. *)
Lemma ranking_spec (l : list AdjEntry) :
  let ranking := dedup_by_adj [] (sorted_desc ae_count l) in
  NoDup (map ae_adj ranking)
  /\ StronglySorted (fun a b => (ae_count b <= ae_count a)%Z) ranking
  /\ (forall x, In x ranking -> In x l)
  /\ (forall y, In y l ->
        exists x, In x ranking /\ ae_adj x = ae_adj y
                  /\ (ae_count y <= ae_count x)%Z).
Proof.
  intros ranking. subst ranking.
  pose proof (sorted_desc_sorted ae_count l) as Hs.
  split; [apply dedup_by_adj_NoDup|].
  split; [now apply dedup_by_adj_sorted|].
  split.
  - intros x Hx. apply dedup_by_adj_In in Hx as [Hx _].
    now apply sorted_by_In in Hx.
  - intros y Hy.
    assert (Hy' : In y (sorted_desc ae_count l)) by now apply sorted_by_In.
    destruct (dedup_by_adj_covers [] _ y Hy' eq_refl) as (x & Hx & E).
    exists x. repeat split; try assumption.
    eapply dedup_by_adj_top; eauto.
Qed.

Lemma prefix_matches_empty (index : dict str (list AdjEntry)) :
  prefix_matches index "" = all_entries index.
Proof.
  unfold prefix_matches, all_entries, values.
  induction index as [|[k l] r IH]; simpl; [reflexivity|].
  rewrite IH. unfold startswith. now destruct k.
Qed.

(** With a limit of at least 1 the search keeps its contract: the first
    [limit] entries of the exact key, or else of the ranking of the
    entries of all nouns that start with the query, which is empty when
    no noun does. *)
Lemma search_with_positive_limit
    (index : dict str (list AdjEntry)) (query : str) (limit : Z) :
  (1 <= limit)%Z ->
  let q := lower (strip query) in
  let ranking :=
    dedup_by_adj [] (sorted_desc ae_count (prefix_matches index q)) in
  search_adjectives_for_noun index query limit
  = match get index q with
    | Some adjs => firstn (Z.to_nat limit) adjs
    | None => firstn (Z.to_nat limit) ranking
    end
  /\ NoDup (map ae_adj ranking)
  /\ StronglySorted (fun a b => (ae_count b <= ae_count a)%Z) ranking
  /\ (forall x, In x ranking -> In x (prefix_matches index q))
  /\ (forall y, In y (prefix_matches index q) ->
        exists x, In x ranking /\ ae_adj x = ae_adj y
                  /\ (ae_count y <= ae_count x)%Z)
  /\ ((forall kv, In kv index -> startswith (fst kv) q = false) ->
        ranking = []).
Proof.
  intros Hl q ranking.
  destruct (ranking_spec (prefix_matches index q)) as (H1 & H2 & H3 & H4).
  split; [|repeat (split; [assumption|])].
  - destruct (get index q) as [adjs|] eqn:Eg.
    + rewrite (search_exact _ _ _ _ Eg). unfold slice_to.
      destruct (Z.leb_spec 0 limit); [reflexivity | lia].
    + now apply search_prefix.
  - intros Hnone. subst ranking.
    replace (prefix_matches index q) with (@nil AdjEntry); [reflexivity|].
    unfold prefix_matches. symmetry. clear H1 H2 H3 H4. revert Hnone.
    induction index as [|kv r IH]; intros Hnone; simpl; [reflexivity|].
    rewrite (Hnone kv (or_introl eq_refl)). simpl.
    apply IH. intros kv' Hin. apply Hnone. now right.
Qed.

(** C4 at limit 0.  On the prefix path the limit is tested only after an
    entry has been appended, so a limit of 0 yields one entry; on the
    exact path the same limit yields none. *)
Theorem prefix_search_ignores_limit_zero :
  get house_index (lower (strip "ho")) = None
  /\ search_adjectives_for_noun house_index "ho" 0
     = [mkAdjEntry "old" 2 ["old house"]]
  /\ search_adjectives_for_noun house_index "house" 0 = [].
Proof. repeat split. Qed.

(** A query that trims to the empty string, on any index that does not
    bind the empty string, with a positive limit: every noun is a prefix
    match, and the result is the first [limit] entries of the ranking of
    the whole index (one entry per adjective, the one with the highest
    count, by count descending); it is non-empty as soon as some noun of
    the index has an entry. *)
Lemma blank_query_ranking
    (index : dict str (list AdjEntry)) (query : str) (limit : Z) :
  (0 < limit)%Z -> strip query = "" -> get index "" = None ->
  let ranking := dedup_by_adj [] (sorted_desc ae_count (all_entries index)) in
  search_adjectives_for_noun index query limit = firstn (Z.to_nat limit) ranking
  /\ NoDup (map ae_adj ranking)
  /\ StronglySorted (fun a b => (ae_count b <= ae_count a)%Z) ranking
  /\ (forall x, In x ranking -> In x (all_entries index))
  /\ (forall y, In y (all_entries index) ->
        exists x, In x ranking /\ ae_adj x = ae_adj y
                  /\ (ae_count y <= ae_count x)%Z)
  /\ (all_entries index <> [] ->
        search_adjectives_for_noun index query limit <> []).
Proof.
  intros Hl Hq Hkey ranking.
  assert (Hsearch : search_adjectives_for_noun index query limit
                    = firstn (Z.to_nat limit) ranking).
  { rewrite search_prefix; rewrite ?Hq; simpl; try assumption; [|lia].
    now rewrite prefix_matches_empty. }
  destruct (ranking_spec (all_entries index)) as (H1 & H2 & H3 & H4).
  repeat (split; [assumption|]).
  intros Hne. rewrite Hsearch.
  destruct (all_entries index) as [|y l] eqn:El; [congruence|].
  destruct (H4 y (or_introl eq_refl)) as (x & Hx & _).
  fold ranking in Hx. destruct ranking as [|r0 rs]; [contradiction|].
  destruct (Z.to_nat limit) eqn:En; [lia|]. discriminate.
Qed.

End CollocationFacts.

(* ================================================================== *)
(** ** The dictionary builder *)
(* ================================================================== *)

Module DictionaryFacts.
Import Dictionary.

(** *** First positions *)

Lemma first_index_app {A} (p : A -> bool) (l : list A) (x : A) :
  first_index p (l ++ [x])
  = match first_index p l with
    | Some i => Some i
    | None => if p x then Some (List.length l) else None
    end.
Proof.
  induction l as [|y l IH]; simpl.
  - now destruct (p x).
  - destruct (p y); [reflexivity|]. rewrite IH.
    destruct (first_index p l); [reflexivity|]. now destruct (p x).
Qed.

Lemma first_index_lt {A} (p : A -> bool) (l : list A) (i : nat) :
  first_index p l = Some i -> (i < List.length l)%nat.
Proof.
  revert i. induction l as [|y l IH]; intros i; simpl; [discriminate|].
  destruct (p y).
  - intros [= <-]. lia.
  - destruct (first_index p l) as [j|]; [|discriminate].
    intros [= <-]. specialize (IH j eq_refl). lia.
Qed.

Lemma first_index_Some {A} (p : A -> bool) (l : list A) (i : nat) :
  first_index p l = Some i ->
  (exists x, nth_error l i = Some x /\ p x = true)
  /\ (forall j y, (j < i)%nat -> nth_error l j = Some y -> p y = false).
Proof.
  revert i. induction l as [|y l IH]; intros i; simpl; [discriminate|].
  destruct (p y) eqn:Ey.
  - intros [= <-]. split; [exists y; auto|]. intros j z Hj. lia.
  - destruct (first_index p l) as [k|]; [|discriminate].
    intros [= <-]. destruct (IH k eq_refl) as [Hex Hmin].
    split; [exact Hex|].
    intros [|j] z Hj; simpl; [congruence|]. apply Hmin. lia.
Qed.

Lemma first_index_None {A} (p : A -> bool) (l : list A) :
  first_index p l = None <-> filter p l = [].
Proof.
  induction l as [|y l IH]; simpl; [tauto|].
  destruct (p y); [split; discriminate|].
  destruct (first_index p l); simpl.
  - split; [discriminate|]. intros E. apply IH in E. discriminate.
  - tauto.
Qed.


Lemma first_index_unique {A} (p : A -> bool) (l : list A) (i : nat) (x : A) :
  nth_error l i = Some x -> p x = true ->
  (forall j y, (j < i)%nat -> nth_error l j = Some y -> p y = false) ->
  first_index p l = Some i.
Proof.
  intros Hx Hp Hmin. destruct (first_index p l) as [k|] eqn:Ek.
  - apply first_index_Some in Ek as [(z & Hz & Hpz) Hmink].
    destruct (Nat.lt_trichotomy k i) as [Hlt|[->|Hlt]]; [|reflexivity|].
    + specialize (Hmin k z Hlt Hz). congruence.
    + specialize (Hmink i x Hlt Hx). congruence.
  - apply first_index_None in Ek.
    assert (Hin : In x (filter p l)).
    { apply filter_In. split; [|exact Hp]. eapply nth_error_In; eauto. }
    rewrite Ek in Hin. contradiction.
Qed.

(** The head of the filtered list sits at the first position. *)
Lemma filter_head_first_index {A} (p : A -> bool) (l : list A) x r :
  filter p l = x :: r ->
  exists i, first_index p l = Some i /\ nth_error l i = Some x.
Proof.
  induction l as [|y l IH]; simpl; [discriminate|].
  destruct (p y).
  - intros [= -> _]. now exists 0%nat.
  - intros E. destruct (IH E) as (i & -> & Hi). now exists (S i).
Qed.

Lemma find_token_first_index (target : Token) (l : list Token) (n : nat) :
  find_token target l n
  = option_map (Nat.add n) (first_index (fun t => is_ t target) l).
Proof.
  revert n. induction l as [|y l IH]; intros n; simpl; [reflexivity|].
  destruct (is_ y target); simpl; [f_equal; lia|].
  rewrite IH. destruct (first_index _ l); simpl; [f_equal; lia | reflexivity].
Qed.

(** *** The first loop *)

Lemma occurrences_snoc (pre : list Token) (t : Token) (k : dict_key) :
  occurrences (pre ++ [t]) k
  = occurrences pre k ++ (if has_key k t then [t] else []).
Proof. unfold occurrences. rewrite filter_app. reflexivity. Qed.

Lemma has_key_key_of (t : Token) :
  included t = true -> has_key (key_of t) t = true.
Proof.
  intros Hi. unfold has_key. rewrite Hi. simpl.
  apply (key_eqb_refl (key_of t)).
Qed.

Lemma has_key_other (k : dict_key) (t : Token) :
  key_of t <> k -> has_key k t = false.
Proof.
  intros N. unfold has_key.
  destruct (pair_eqb k (key_of t)) eqn:E; [|apply andb_false_r].
  apply (key_eqb_eq k (key_of t)) in E. congruence.
Qed.

Lemma has_key_true (k : dict_key) (t : Token) :
  has_key k t = true <-> included t = true /\ key_of t = k.
Proof.
  unfold has_key. rewrite andb_true_iff.
  change (pair_eqb k (key_of t)) with (key_eqb k (key_of t)).
  rewrite key_eqb_eq. intuition congruence.
Qed.

(** Entering the body of the first loop at a content token ([Hi] says the
    token is included), and naming the result of reading [form_sets]. *)
Ltac enter_scan_token Hi :=
  unfold scan_token; unfold included in Hi; rewrite Hi; simpl.

Ltac split_forms :=
  destruct (default_subscript _ _ _) as [? ?]; simpl.

Lemma scan_token_skip (d : Doc) (st : BuildState) (t : Token) :
  included t = false -> scan_token d st t = st.
Proof. unfold scan_token, included. now intros ->. Qed.

Section Scan.
Variable d : Doc.

Lemma scan_over_snoc pre t :
  scan_over d (pre ++ [t]) = scan_token d (scan_over d pre) t.
Proof. unfold scan_over. now rewrite fold_left_app. Qed.

(** [freq] counts the occurrences of every key. *)
Lemma scan_freq pre k :
  get (freq (scan_over d pre)) k
  = match List.length (occurrences pre k) with
    | O => None
    | S n => Some (Z.of_nat (S n))
    end.
Proof.
  induction pre as [|t pre IH] using rev_ind; [reflexivity|].
  rewrite scan_over_snoc, occurrences_snoc, length_app.
  destruct (included t) eqn:Hi.
  - enter_scan_token Hi. split_forms.
    change (lemma_of t, pos t) with (key_of t).
    rewrite get_incr. destruct (key_eqb (key_of t) k) eqn:E.
    + apply key_eqb_eq in E. subst k.
      rewrite has_key_key_of by exact Hi. simpl.
      unfold count_of. rewrite IH.
      destruct (List.length (occurrences pre (key_of t))) as [|n]; simpl;
        f_equal; lia.
    + rewrite has_key_other, IH.
      * simpl. now rewrite Nat.add_0_r.
      * intros Heq. rewrite Heq, key_eqb_refl in E. discriminate.
  - rewrite scan_token_skip by exact Hi.
    unfold has_key. rewrite Hi. simpl. now rewrite Nat.add_0_r.
Qed.

(** [form_sets] holds the distinct lowercased surface texts. *)
Lemma scan_form_sets pre k :
  get (form_sets (scan_over d pre)) k
  = match occurrences pre k with
    | [] => None
    | _ :: _ => Some (forms_of pre k)
    end.
Proof.
  induction pre as [|t pre IH] using rev_ind; [reflexivity|].
  rewrite scan_over_snoc. unfold forms_of. rewrite occurrences_snoc.
  destruct (included t) eqn:Hi.
  - enter_scan_token Hi.
    change (lemma_of t, pos t) with (key_of t).
    destruct (key_eq_dec (key_of t) k) as [E|N].
    + subst k. rewrite has_key_key_of by exact Hi.
      rewrite map_app, fold_left_app. simpl.
      unfold default_subscript. rewrite IH. fold (forms_of pre (key_of t)).
      destruct (occurrences pre (key_of t)) as [|o os] eqn:Eo; simpl.
      * rewrite get_set_same. unfold forms_of. now rewrite Eo.
      * rewrite get_set_same. reflexivity.
    + rewrite has_key_other by exact N. rewrite app_nil_r.
      unfold default_subscript.
      destruct (get (form_sets (scan_over d pre)) (key_of t)); simpl;
        rewrite !get_set_other by exact N; exact IH.
  - rewrite scan_token_skip by exact Hi.
    unfold has_key. rewrite Hi. simpl. rewrite app_nil_r. exact IH.
Qed.

(** [entries] holds, for every key, the entry made at its first token. *)
Lemma scan_entries pre k :
  get (entries (scan_over d pre)) k
  = match occurrences pre k with
    | [] => None
    | t :: _ => Some (mkEntry (fst k) (snd k) 0 [] (_extract_context d t 6))
    end.
Proof.
  induction pre as [|t pre IH] using rev_ind; [reflexivity|].
  rewrite scan_over_snoc, occurrences_snoc.
  destruct (included t) eqn:Hi.
  - enter_scan_token Hi. split_forms.
    change (lemma_of t, pos t) with (key_of t).
    destruct (key_eq_dec (key_of t) k) as [E|N].
    + subst k. rewrite has_key_key_of by exact Hi.
      unfold mem. rewrite IH.
      destruct (occurrences pre (key_of t)) as [|o os]; simpl.
      * apply get_set_same.
      * exact IH.
    + rewrite has_key_other by exact N. rewrite app_nil_r.
      destruct (negb _); [rewrite get_set_other by exact N|]; exact IH.
  - rewrite scan_token_skip by exact Hi.
    unfold has_key. rewrite Hi. simpl. rewrite app_nil_r. exact IH.
Qed.
End Scan.

Section ScanOrder.
Variable d : Doc.

Lemma freq_key_seen pre k :
  In k (keys (freq (scan_over d pre))) <->
  exists i, first_index (has_key k) pre = Some i.
Proof.
  rewrite <- mem_true. unfold mem. rewrite scan_freq.
  fold (occurrences pre k).
  destruct (first_index (has_key k) pre) as [i|] eqn:Ei.
  - destruct (List.length (occurrences pre k)) eqn:El.
    + apply length_zero_iff_nil in El. unfold occurrences in El.
      apply first_index_None in El. congruence.
    + split; eauto.
  - apply first_index_None in Ei. unfold occurrences. rewrite Ei. simpl.
    split; [discriminate|]. intros [i [=]].
Qed.

Lemma freq_keys_snoc pre t :
  keys (freq (scan_over d (pre ++ [t])))
  = if included t && negb (mem (freq (scan_over d pre)) (key_of t))
    then keys (freq (scan_over d pre)) ++ [key_of t]
    else keys (freq (scan_over d pre)).
Proof.
  rewrite scan_over_snoc. destruct (included t) eqn:Hi; simpl.
  - enter_scan_token Hi. split_forms.
    unfold incr. rewrite keys_set.
    change (lemma_of t, pos t) with (key_of t).
    now destruct (mem _ _).
  - now rewrite scan_token_skip.
Qed.

Lemma freq_keys_NoDup pre : NoDup (keys (freq (scan_over d pre))).
Proof.
  induction pre as [|t pre IH] using rev_ind; [constructor|].
  rewrite scan_over_snoc. destruct (included t) eqn:Hi.
  - enter_scan_token Hi. split_forms.
    now apply NoDup_keys_incr.
  - now rewrite scan_token_skip.
Qed.

(** Keys enter [freq] in the order in which they are first seen. *)
Lemma freq_keys_order pre k1 k2 :
  precedes (keys (freq (scan_over d pre))) k1 k2 ->
  exists i1 i2,
    first_index (has_key k1) pre = Some i1
    /\ first_index (has_key k2) pre = Some i2
    /\ (i1 < i2)%nat.
Proof.
  induction pre as [|t pre IH] using rev_ind.
  - intros ([|? ?] & ? & ? & E); discriminate E.
  - rewrite freq_keys_snoc.
    assert (Hkeep : forall k1 k2 : dict_key,
      (exists i1 i2, first_index (has_key k1) pre = Some i1
         /\ first_index (has_key k2) pre = Some i2 /\ (i1 < i2)%nat) ->
      exists i1 i2, first_index (has_key k1) (pre ++ [t]) = Some i1
         /\ first_index (has_key k2) (pre ++ [t]) = Some i2 /\ (i1 < i2)%nat).
    { intros a b (i1 & i2 & E1 & E2 & Hlt). exists i1, i2.
      rewrite !first_index_app, E1, E2. auto. }
    destruct (included t && negb (mem (freq (scan_over d pre)) (key_of t)))
      eqn:Enew; [|now auto].
    intros Hp. apply precedes_snoc_inv in Hp as [Hp|[Hin ->]]; [now auto|].
    apply andb_true_iff in Enew as [Hi Hm]. apply negb_true_iff in Hm.
    apply freq_key_seen in Hin as [i1 E1].
    assert (E2 : first_index (has_key (key_of t)) pre = None).
    { destruct (first_index (has_key (key_of t)) pre) as [i|] eqn:E;
        [|reflexivity].
      assert (Hin : In (key_of t) (keys (freq (scan_over d pre))))
        by (apply freq_key_seen; eauto).
      apply mem_true in Hin. congruence. }
    exists i1, (List.length pre). rewrite !first_index_app, E1, E2.
    rewrite has_key_key_of by exact Hi.
    repeat split. now apply first_index_lt in E1.
Qed.
End ScanOrder.

(** *** Sorted sets of strings *)

Lemma ltb_lt (a b : str) : String.ltb a b = true <-> String_as_OT.lt a b.
Proof.
  rewrite <- String_as_OT.cmp_lt. unfold String.ltb, String_as_OT.cmp.
  destruct (String.compare a b); split; congruence.
Qed.

Lemma ltb_false (a b : str) :
  String.ltb b a = false <-> a = b \/ String_as_OT.lt a b.
Proof.
  rewrite <- String_as_OT.cmp_lt, String_as_OT.cmp_antisym.
  unfold String.ltb, String_as_OT.cmp.
  destruct (String.compare b a) eqn:E; simpl; split; try congruence; auto.
  - intros _. left. symmetry. now apply String_as_OT.cmp_eq.
  - intros [<-|?]; [|discriminate].
    assert (G : String_as_OT.cmp a a = Eq) by now apply String_as_OT.cmp_eq.
    unfold String_as_OT.cmp in G. congruence.
Qed.

Lemma lt_irrefl (a : str) : ~ String_as_OT.lt a a.
Proof. intros H. apply String_as_OT.lt_not_eq in H. now apply H. Qed.

Lemma ltb_asym (x y : str) :
  String.ltb y x = true -> String.ltb x y = false.
Proof.
  rewrite ltb_lt. intros Hyx.
  destruct (String.ltb x y) eqn:E; [|reflexivity].
  apply ltb_lt in E. exfalso.
  exact (lt_irrefl x (String_as_OT.lt_trans _ _ _ E Hyx)).
Qed.

Lemma not_ltb_trans (a b c : str) :
  String.ltb b a = false -> String.ltb c b = false -> String.ltb c a = false.
Proof.
  rewrite !ltb_false. intros [->|Hab] [->|Hbc]; auto.
  right. exact (String_as_OT.lt_trans _ _ _ Hab Hbc).
Qed.

Lemma sorted_str_sorted (l : list str) :
  NoDup l ->
  StronglySorted (fun a b => String.ltb a b = true) (sorted_str l).
Proof.
  intros ND.
  assert (ND' : NoDup (sorted_str l)).
  { eapply Permutation_NoDup; [|exact ND]. symmetry. apply sorted_by_perm. }
  pose proof (sorted_by_sorted String.ltb ltb_asym not_ltb_trans l) as Hs.
  fold (sorted_str l) in Hs.
  induction Hs as [|x r Hs IH Hall]; constructor.
  - apply IH. now inversion ND'.
  - inversion ND' as [|? ? Hx _]; subst.
    rewrite Forall_forall in *. intros y Hy.
    apply ltb_lt. destruct (proj1 (ltb_false x y) (Hall y Hy)) as [->|H];
      [contradiction | exact H].
Qed.

Lemma In_fold_set_add (l acc : list str) (s : str) :
  In s (fold_left set_add l acc) <-> In s acc \/ In s l.
Proof.
  revert acc. induction l as [|x l IH]; intros acc; simpl; [tauto|].
  rewrite IH. unfold set_add. destruct (str_in x acc) eqn:E.
  - apply str_in_In in E. intuition (subst; auto).
  - rewrite in_app_iff. simpl. tauto.
Qed.

Lemma NoDup_fold_set_add (l acc : list str) :
  NoDup acc -> NoDup (fold_left set_add l acc).
Proof.
  revert acc. induction l as [|x l IH]; intros acc ND; simpl; [assumption|].
  apply IH. unfold set_add. destruct (str_in x acc) eqn:E; [assumption|].
  apply str_in_false in E.
  apply NoDup_app; [assumption | repeat constructor; intros [] |].
  intros y Hy [<-|[]]. contradiction.
Qed.

Lemma In_forms_of (toks : list Token) (k : dict_key) (s : str) :
  In s (forms_of toks k) <->
  exists t, In t toks /\ has_key k t = true /\ lower (text t) = s.
Proof.
  unfold forms_of. rewrite In_fold_set_add, in_map_iff. unfold occurrences.
  split.
  - intros [[]|(t & E & Ht)]. apply filter_In in Ht. exists t. tauto.
  - intros (t & Ht & Hk & E). right. exists t. split; [exact E|].
    apply filter_In. tauto.
Qed.

(** *** The second loop *)

Lemma occurrences_nonempty (d : Doc) (k : dict_key) (c : Z) :
  In (k, c) (freq (scan d)) ->
  occurrences (tokens d) k <> []
  /\ c = Z.of_nat (List.length (occurrences (tokens d) k)).
Proof.
  intros Hin.
  apply In_get_Some in Hin; [|apply freq_keys_NoDup].
  unfold scan in Hin. rewrite scan_freq in Hin.
  destruct (occurrences (tokens d) k); simpl in *; [discriminate|].
  split; congruence.
Qed.

Lemma merge_item_ok (d : Doc) (res : list Entry) (k : dict_key) (c : Z) :
  occurrences (tokens d) k <> [] ->
  merge_item (scan d) res (k, c) = Ok (res ++ [entry_for d (k, c)]).
Proof.
  intros Hne. unfold merge_item, subscript, default_subscript, entry_for, scan.
  rewrite scan_entries, scan_form_sets. simpl.
  destruct (occurrences (tokens d) k) as [|t os]; [congruence|]. reflexivity.
Qed.

Lemma merge_all (d : Doc) (items : list (dict_key * Z)) (res : list Entry) :
  (forall k c, In (k, c) items -> occurrences (tokens d) k <> []) ->
  for_each (merge_item (scan d)) items res
  = Ok (res ++ map (entry_for d) items).
Proof.
  revert res. induction items as [|[k c] items IH]; intros res Hne;
    cbn [for_each map].
  - now rewrite app_nil_r.
  - rewrite merge_item_ok by (apply (Hne k c); now left). cbn [bind].
    rewrite IH by (intros k' c' H'; apply (Hne k' c'); now right).
    now rewrite <- app_assoc.
Qed.

(** The builder always returns: one entry per item of [freq], in the order
    of [most_common]. *)
Lemma build_dictionary_eq (d : Doc) :
  build_dictionary d
  = Ok (map (entry_for d) (most_common (freq (scan d)))).
Proof.
  unfold build_dictionary. rewrite merge_all; [reflexivity|].
  intros k c Hin. apply sorted_by_In in Hin.
  now apply occurrences_nonempty in Hin.
Qed.

(** *** The claims about the dictionary *)

Import Samples.

Lemma entry_key_entry_for (d : Doc) (item : dict_key * Z) :
  entry_key (entry_for d item) = fst item.
Proof. now destruct item as [[l p] c]. Qed.

Lemma In_result (d : Doc) (e : Entry) :
  In e (map (entry_for d) (most_common (freq (scan d)))) <->
  exists k c, In (k, c) (freq (scan d)) /\ e = entry_for d (k, c).
Proof.
  rewrite in_map_iff. split.
  - intros ([k c] & <- & Hin). apply sorted_by_In in Hin. eauto.
  - intros (k & c & Hin & ->). exists (k, c). split; [reflexivity|].
    now apply sorted_by_In.
Qed.

Lemma StronglySorted_map {A B} (R : B -> B -> Prop) (f : A -> B) (l : list A) :
  StronglySorted (fun a b => R (f a) (f b)) l -> StronglySorted R (map f l).
Proof.
  induction 1 as [|x l Hs IH Hall]; simpl; constructor; [assumption|].
  rewrite Forall_forall in *. intros y Hy.
  apply in_map_iff in Hy as (z & <- & Hz). auto.
Qed.

(** C3 (what an entry counts).  The builder returns one entry per key.
    The POS of an entry is a content POS; its count is the number of
    content tokens whose key is the entry's key; its surface forms are
    strictly increasing (sorted, each once) and are exactly the lowercased
    surface texts of those tokens.  Every content token has its entry, and
    no entry has the key of a token whose POS is outside the content
    set. *)
Theorem dictionary_entries_count_content_tokens (d : Doc) :
  exists result, build_dictionary d = Ok result
    /\ NoDup (map entry_key result)
    /\ (forall e, In e result ->
          In (e_pos e) INCLUDE_POS
          /\ e_count e
             = Z.of_nat (List.length (occurrences (tokens d) (entry_key e)))
          /\ StronglySorted (fun a b => String.ltb a b = true)
               (e_surface_forms e)
          /\ (forall s, In s (e_surface_forms e) <->
                exists t, In t (tokens d) /\ has_key (entry_key e) t = true
                          /\ lower (text t) = s))
    /\ (forall t, In t (tokens d) -> included t = true ->
          exists e, In e result /\ entry_key e = key_of t)
    /\ (forall t e, included t = false -> In e result ->
          entry_key e <> key_of t).
Proof.
  exists (map (entry_for d) (most_common (freq (scan d)))).
  split; [apply build_dictionary_eq|].
  assert (Hentry : forall e,
    In e (map (entry_for d) (most_common (freq (scan d)))) ->
    In (e_pos e) INCLUDE_POS
    /\ e_count e = Z.of_nat (List.length (occurrences (tokens d) (entry_key e)))
    /\ StronglySorted (fun a b => String.ltb a b = true) (e_surface_forms e)
    /\ (forall s, In s (e_surface_forms e) <->
          exists t, In t (tokens d) /\ has_key (entry_key e) t = true
                    /\ lower (text t) = s)).
  { intros e He. apply In_result in He as (k & c & Hin & ->).
    apply occurrences_nonempty in Hin as [Hne Hc].
    rewrite entry_key_entry_for. simpl. repeat split.
    - destruct (occurrences (tokens d) k) as [|t os] eqn:Eo; [congruence|].
      assert (Ht : In t (occurrences (tokens d) k)) by (rewrite Eo; now left).
      apply filter_In in Ht as [_ Ht]. apply has_key_true in Ht as [Hi <-].
      exact (proj1 (str_in_In _ _) Hi).
    - exact Hc.
    - apply sorted_str_sorted. apply NoDup_fold_set_add. constructor.
    - intros Hs. apply sorted_by_In in Hs. now apply In_forms_of.
    - intros Hs. apply sorted_by_In. now apply In_forms_of. }
  split; [|split; [exact Hentry|split]].
  - rewrite map_map.
    rewrite (map_ext _ fst) by (intros; apply entry_key_entry_for).
    apply (Permutation_NoDup (l := keys (freq (scan d))));
      [|apply freq_keys_NoDup].
    symmetry. apply Permutation_map, sorted_by_perm.
  - intros t Ht Hi.
    assert (Hk : In (key_of t) (keys (freq (scan d)))).
    { apply freq_key_seen.
      destruct (first_index (has_key (key_of t)) (tokens d)) eqn:E; [eauto|].
      apply first_index_None in E.
      assert (Hin : In t (filter (has_key (key_of t)) (tokens d))).
      { apply filter_In. split; [exact Ht | now apply has_key_key_of]. }
      rewrite E in Hin. contradiction. }
    apply in_map_iff in Hk as ([k c] & <- & Hin).
    exists (entry_for d (k, c)). split; [|apply entry_key_entry_for].
    apply In_result. eauto.
  - intros t e Hi He Hkey. destruct (Hentry e He) as (Hpos & _).
    unfold included in Hi. apply str_in_false in Hi.
    apply Hi. unfold entry_key, key_of in Hkey. congruence.
Qed.

Lemma dictionary_entries_count_content_tokens_witness :
  exists result, build_dictionary dictionary_doc = Ok result
    /\ exists e, In e result /\ entry_key e = ("house", "NOUN")
         /\ e_count e = 2%Z /\ e_surface_forms e = ["house"; "houses"].
Proof.
  destruct (dictionary_entries_count_content_tokens dictionary_doc)
    as (result & Hres & _ & Hentry & Hall & _).
  exists result. split; [exact Hres|].
  destruct (Hall w_house) as (e & He & Hk);
    [right; now left | reflexivity |].
  exists e. split; [exact He|]. split; [exact Hk|].
  destruct (Hentry e He) as (_ & Hc & _). rewrite Hk in Hc.
  split; [exact Hc|].
  vm_compute in Hres. injection Hres as <-.
  destruct He as [<-|[<-|[<-|[]]]]; [reflexivity | discriminate Hk ..].
Defined.

(** C8 (order of the result).  The list is sorted by count, descending,
    and of two entries with the same count the one whose key is first seen
    earlier in the token stream comes first. *)
Theorem dictionary_order_is_count_then_first_seen (d : Doc) :
  exists result, build_dictionary d = Ok result
    /\ StronglySorted (fun a b => (e_count b <= e_count a)%Z) result
    /\ (forall e1 e2, precedes result e1 e2 -> e_count e1 = e_count e2 ->
          exists i1 i2,
            first_seen d (entry_key e1) = Some i1
            /\ first_seen d (entry_key e2) = Some i2
            /\ (i1 < i2)%nat).
Proof.
  exists (map (entry_for d) (most_common (freq (scan d)))).
  split; [apply build_dictionary_eq|]. split.
  - apply StronglySorted_map.
    eapply StronglySorted_weaken; [|apply (sorted_desc_sorted snd)].
    intros [k1 c1] [k2 c2]. auto.
  - intros e1 e2 Hp Hc.
    apply precedes_map_inv in Hp as (a & b & <- & <- & Hp).
    rewrite !entry_key_entry_for.
    assert (Hc' : snd a = snd b) by (destruct a, b; exact Hc).
    apply sorted_desc_stable in Hp; [|exact Hc'].
    apply (precedes_map fst) in Hp.
    exact (freq_keys_order d (tokens d) (fst a) (fst b) Hp).
Qed.

Lemma dictionary_order_is_count_then_first_seen_witness :
  exists result, build_dictionary dictionary_doc = Ok result
    /\ map entry_key result
       = [("house", "NOUN"); ("old", "ADJ"); ("red", "ADJ")]
    /\ first_seen dictionary_doc ("old", "ADJ") = Some 0%nat
    /\ first_seen dictionary_doc ("red", "ADJ") = Some 4%nat.
Proof.
  destruct (dictionary_order_is_count_then_first_seen dictionary_doc)
    as (result & Hres & _ & _).
  exists result. split; [exact Hres|].
  vm_compute in Hres. injection Hres as <-. repeat split.
Defined.

(** *** The example of an entry *)

(** In a document whose addresses are consistent, the identity search of
    [_extract_context] stops at the position of the first token counted
    under the key. *)
Lemma find_token_at_first_seen (d : Doc) (k : dict_key) (t : Token) (i : nat) :
  addresses_consistent d ->
  first_index (has_key k) (tokens d) = Some i ->
  nth_error (tokens d) i = Some t ->
  find_token t (tokens d) 0 = Some i.
Proof.
  intros Hadr Hfirst Hnth.
  rewrite find_token_first_index.
  apply first_index_Some in Hfirst as [(x & Hx & Hkx) Hmin].
  assert (x = t) by congruence. subst x.
  rewrite (first_index_unique (fun x => is_ x t) (tokens d) i t); auto.
  - unfold is_. apply Nat.eqb_refl.
  - intros j y Hj Hy. destruct (is_ y t) eqn:E; [|reflexivity].
    unfold is_ in E. apply Nat.eqb_eq in E.
    apply Hadr in E; [|eapply nth_error_In; eauto ..].
    subst y. specialize (Hmin j t Hj Hy). congruence.
Qed.

Lemma extract_context_at (d : Doc) (t : Token) (i : nat) :
  find_token t (tokens d) 0 = Some i ->
  _extract_context d t 6 = context_window d i 6.
Proof. unfold _extract_context, context_window. now intros ->. Qed.

(** The window of the code is the window by positions: the slice from
    [i - w] to [min len (i + w + 1)] holds exactly the tokens whose
    position is at most [w] away from [i]. *)
Lemma In_combine_seq {A} (l : list A) (s j : nat) (x : A) :
  In (j, x) (combine (seq s (List.length l)) l) ->
  (s <= j < s + List.length l)%nat.
Proof. intros H. apply in_combine_l in H. apply in_seq in H. lia. Qed.

Lemma slice_positions_from {A} (l : list A) (s a b : nat) :
  map snd (filter (fun jt => (a <=? fst jt)%nat && (fst jt <? b)%nat)
             (combine (seq s (List.length l)) l))
  = firstn (b - Nat.max a s) (skipn (a - s) l).
Proof.
  revert s. induction l as [|x r IH]; intros s.
  - simpl. now rewrite skipn_nil, firstn_nil.
  - cbn [List.length seq combine filter fst].
    destruct (Nat.leb_spec a s) as [Ha|Ha].
    + replace (a - s)%nat with 0%nat by lia. cbn [skipn].
      destruct (Nat.ltb_spec s b) as [Hb|Hb]; cbn [andb map snd].
      * rewrite IH.
        replace (a - S s)%nat with 0%nat by lia. cbn [skipn].
        replace (b - Nat.max a s)%nat with (S (b - Nat.max a (S s))) by lia.
        reflexivity.
      * rewrite IH.
        replace (b - Nat.max a s)%nat with 0%nat by lia.
        replace (b - Nat.max a (S s))%nat with 0%nat by lia.
        reflexivity.
    + cbn [andb]. rewrite IH.
      replace (a - s)%nat with (S (a - S s)) by lia. cbn [skipn].
      replace (Nat.max a s) with (Nat.max a (S s)) by lia. reflexivity.
Qed.

Lemma context_window_near (d : Doc) (i w : nat) :
  context_window d i w = join " " (map text (tokens_near d i w)).
Proof.
  unfold context_window, tokens_near, enumerate, slice. do 2 f_equal.
  rewrite (filter_ext_in _
             (fun jt => (i - w <=? fst jt)%nat
                        && (fst jt <? Nat.min (List.length (tokens d))
                                              (i + w + 1))%nat)).
  - rewrite slice_positions_from, Nat.sub_0_r, Nat.max_0_r. reflexivity.
  - intros [j x] Hin. apply In_combine_seq in Hin. unfold near. cbn [fst].
    destruct (Nat.leb_spec i (j + w)), (Nat.leb_spec j (i + w)),
      (Nat.leb_spec (i - w) j),
      (Nat.ltb_spec j (Nat.min (List.length (tokens d)) (i + w + 1)));
      simpl; try reflexivity; lia.
Qed.

(** *** The loop, token by token *)

Lemma first_index_split {A} (p : A -> bool) (pre post : list A) (t : A) :
  p t = true ->
  first_index p (pre ++ t :: post)
  = match first_index p pre with
    | Some i => Some i
    | None => Some (List.length pre)
    end.
Proof.
  intros Ht. induction pre as [|y pre IH]; simpl; [now rewrite Ht|].
  destruct (p y); [reflexivity|]. rewrite IH.
  now destruct (first_index p pre).
Qed.

(** A token whose key has no entry yet creates the entry, with the
    context of that token; a token whose key has an entry leaves all
    entries as they are. *)
Lemma scan_token_new_key (d : Doc) (st : BuildState) (t : Token) :
  included t = true -> mem (entries st) (key_of t) = false ->
  get (entries (scan_token d st t)) (key_of t)
  = Some (mkEntry (lemma_of t) (pos t) 0 [] (_extract_context d t 6)).
Proof.
  intros Hi Hm. enter_scan_token Hi. split_forms.
  change (lemma_of t, pos t) with (key_of t). rewrite Hm. simpl.
  apply get_set_same.
Qed.

Lemma scan_token_known_key (d : Doc) (st : BuildState) (t : Token) :
  mem (entries st) (key_of t) = true ->
  entries (scan_token d st t) = entries st.
Proof.
  intros Hm. unfold scan_token.
  destruct (negb (str_in (pos t) INCLUDE_POS)); [reflexivity|].
  destruct (default_subscript _ _ _) as [forms1 cur]. simpl.
  change (lemma_of t, pos t) with (key_of t). now rewrite Hm.
Qed.

(** The state of the entries when the loop reaches the token [t] that
    follows the stretch [pre]: the key of [t] is first seen at a position
    [i] that is not after [t]; when [t] is that first occurrence, the key
    has no entry before [t] and gets one at [t], with the window around
    [i]; when [t] is a later occurrence, the entry with the window around
    [i] is there before [t], and [t] changes no entry. *)
Lemma scan_at_occurrence (d : Doc) (pre post : list Token) (t : Token) :
  addresses_consistent d ->
  tokens d = pre ++ t :: post -> included t = true ->
  exists i, first_seen d (key_of t) = Some i /\ (i <= List.length pre)%nat
    /\ (i = List.length pre ->
          get (entries (scan_over d pre)) (key_of t) = None
          /\ get (entries (scan_over d (pre ++ [t]))) (key_of t)
             = Some (mkEntry (lemma_of t) (pos t) 0 []
                       (context_window d i 6)))
    /\ ((i < List.length pre)%nat ->
          get (entries (scan_over d pre)) (key_of t)
          = Some (mkEntry (lemma_of t) (pos t) 0 [] (context_window d i 6))
          /\ entries (scan_over d (pre ++ [t])) = entries (scan_over d pre)).
Proof.
  intros Hadr Htoks Hi.
  pose proof (has_key_key_of t Hi) as Hk.
  assert (Hfirst : first_seen d (key_of t)
                   = match first_index (has_key (key_of t)) pre with
                     | Some i => Some i
                     | None => Some (List.length pre)
                     end).
  { unfold first_seen. rewrite Htoks. now apply first_index_split. }
  pose proof (scan_entries d pre (key_of t)) as Hent.
  destruct (occurrences pre (key_of t)) as [|o os] eqn:Eo.
  - (* the first occurrence *)
    assert (E : first_index (has_key (key_of t)) pre = None)
      by now apply first_index_None.
    rewrite E in Hfirst. exists (List.length pre).
    split; [exact Hfirst|]. split; [lia|]. split; [|lia].
    intros _. split; [exact Hent|].
    rewrite scan_over_snoc, scan_token_new_key;
      [|exact Hi|unfold mem; now rewrite Hent].
    do 2 f_equal. apply extract_context_at.
    eapply find_token_at_first_seen; eauto.
    rewrite Htoks, nth_error_app2, Nat.sub_diag by lia. reflexivity.
  - (* a later occurrence *)
    destruct (filter_head_first_index _ _ _ _ Eo) as (i & Ei & Hnth).
    rewrite Ei in Hfirst. exists i.
    pose proof (first_index_lt _ _ _ Ei) as Hlt.
    split; [exact Hfirst|]. split; [lia|]. split; [lia|].
    intros _. split.
    + rewrite Hent. cbn [key_of fst snd]. do 2 f_equal.
      apply extract_context_at.
      eapply find_token_at_first_seen; eauto.
      rewrite Htoks, nth_error_app1 by exact Hlt. exact Hnth.
    + rewrite scan_over_snoc. apply scan_token_known_key.
      unfold mem. now rewrite Hent.
Qed.

(** *** The entries of the result *)

Lemma result_keys_NoDup (d : Doc) :
  NoDup (map entry_key (map (entry_for d) (most_common (freq (scan d))))).
Proof.
  rewrite map_map.
  rewrite (map_ext _ fst) by (intros; apply entry_key_entry_for).
  apply (Permutation_NoDup (l := keys (freq (scan d))));
    [|apply freq_keys_NoDup].
  symmetry. apply Permutation_map, sorted_by_perm.
Qed.

Lemma content_token_has_entry (d : Doc) (t : Token) :
  In t (tokens d) -> included t = true ->
  exists e, In e (map (entry_for d) (most_common (freq (scan d))))
            /\ entry_key e = key_of t.
Proof.
  intros Ht Hi.
  assert (Hk : In (key_of t) (keys (freq (scan d)))).
  { apply freq_key_seen.
    destruct (first_index (has_key (key_of t)) (tokens d)) eqn:E; [eauto|].
    apply first_index_None in E.
    assert (Hin : In t (filter (has_key (key_of t)) (tokens d))).
    { apply filter_In. split; [exact Ht | now apply has_key_key_of]. }
    rewrite E in Hin. contradiction. }
  apply in_map_iff in Hk as ([k c] & <- & Hin).
  exists (entry_for d (k, c)). split; [|apply entry_key_entry_for].
  apply In_result. eauto.
Qed.

Lemma example_of_entry (d : Doc) (e : Entry) :
  addresses_consistent d ->
  In e (map (entry_for d) (most_common (freq (scan d)))) ->
  exists i, first_seen d (entry_key e) = Some i
            /\ e_example e = context_window d i 6.
Proof.
  intros Hadr He. apply In_result in He as (k & c & Hin & ->).
  apply occurrences_nonempty in Hin as [Hne _].
  rewrite entry_key_entry_for. simpl.
  destruct (occurrences (tokens d) k) as [|t os] eqn:Eo; [congruence|].
  destruct (filter_head_first_index _ _ _ _ Eo) as (i & Hfirst & Hnth).
  exists i. split; [exact Hfirst|].
  apply extract_context_at. eapply find_token_at_first_seen; eauto.
Qed.

(** A list of token objects with pairwise distinct addresses is
    consistent. *)
Lemma distinct_addresses_consistent (d : Doc) :
  NoDup (map addr (tokens d)) -> addresses_consistent d.
Proof.
  unfold addresses_consistent. induction (tokens d) as [|x l IH]; simpl.
  - intros _ a b [].
  - intros ND a b Ha Hb E. inversion ND as [|? ? Hx ND']; subst.
    destruct Ha as [<-|Ha], Hb as [<-|Hb].
    + reflexivity.
    + exfalso. apply Hx. rewrite E. now apply in_map.
    + exfalso. apply Hx. rewrite <- E. now apply in_map.
    + now apply IH.
Qed.

(** C7 (the example).  In a document in which an address names one token
    object:

    - the builder returns one entry per key, every content token has the
      entry of its key, and the example of every entry is the context
      window of radius 6 around the flat position at which the entry's
      key is first seen;
    - that window is the surface texts of the tokens at most 6 flat
      positions away from that position, in document order, joined by
      single spaces;
    - when the loop reaches a content token [t] after the stretch [pre]
      of the token stream, the key of [t] is first seen at a position [i]
      not after [t]: if [t] is that first occurrence, the key has no
      entry before [t] and [t] creates it with the window around [i]; if
      [t] is a later occurrence, the entry with the window around [i] is
      already there and [t] leaves every entry as it is;
    - in any state, a token whose key has no entry creates the entry with
      the context of that token, and a token whose key has an entry
      leaves all entries, hence the example, as they are. *)
Theorem example_is_context_of_first_occurrence (d : Doc) :
  addresses_consistent d ->
  (exists result, build_dictionary d = Ok result
     /\ NoDup (map entry_key result)
     /\ (forall t, In t (tokens d) -> included t = true ->
           exists e, In e result /\ entry_key e = key_of t)
     /\ (forall e, In e result ->
           exists i, first_seen d (entry_key e) = Some i
                     /\ e_example e = context_window d i 6))
  /\ (forall i,
        context_window d i 6 = join " " (map text (tokens_near d i 6)))
  /\ (forall pre t post,
        tokens d = pre ++ t :: post -> included t = true ->
        exists i, first_seen d (key_of t) = Some i
          /\ (i <= List.length pre)%nat
          /\ (i = List.length pre ->
                get (entries (scan_over d pre)) (key_of t) = None
                /\ get (entries (scan_over d (pre ++ [t]))) (key_of t)
                   = Some (mkEntry (lemma_of t) (pos t) 0 []
                             (context_window d i 6)))
          /\ ((i < List.length pre)%nat ->
                get (entries (scan_over d pre)) (key_of t)
                = Some (mkEntry (lemma_of t) (pos t) 0 []
                          (context_window d i 6))
                /\ entries (scan_over d (pre ++ [t]))
                   = entries (scan_over d pre)))
  /\ (forall st t, included t = true -> mem (entries st) (key_of t) = false ->
        get (entries (scan_token d st t)) (key_of t)
        = Some (mkEntry (lemma_of t) (pos t) 0 [] (_extract_context d t 6)))
  /\ (forall st t, mem (entries st) (key_of t) = true ->
        entries (scan_token d st t) = entries st).
Proof.
  intros Hadr. split; [|split; [|split; [|split]]].
  - exists (map (entry_for d) (most_common (freq (scan d)))).
    split; [apply build_dictionary_eq|].
    split; [apply result_keys_NoDup|].
    split; [apply content_token_has_entry|].
    intros e. now apply example_of_entry.
  - intros i. apply context_window_near.
  - intros pre t post. now apply scan_at_occurrence.
  - apply scan_token_new_key.
  - apply scan_token_known_key.
Qed.

Lemma example_is_context_of_first_occurrence_witness :
  addresses_consistent story_doc
  /\ first_seen story_doc ("house", "NOUN") = Some 8%nat
  /\ (exists result, build_dictionary story_doc = Ok result
        /\ List.length result = 9%nat
        /\ exists e, In e result /\ entry_key e = ("house", "NOUN")
             /\ e_example e
                = "a time there was an old house on a hill and the houses")
  /\ nth_error (tokens story_doc) 14 = Some c_houses
  /\ _extract_context story_doc c_houses 6
     = "house on a hill and the houses were red ."
  /\ get (entries (scan_over story_doc (firstn 14 story_tokens)))
       ("house", "NOUN")
     = Some (mkEntry "house" "NOUN" 0 []
               "a time there was an old house on a hill and the houses")
  /\ entries (scan_over story_doc (firstn 15 story_tokens))
     = entries (scan_over story_doc (firstn 14 story_tokens)).
Proof.
  assert (Hadr : addresses_consistent story_doc).
  { apply distinct_addresses_consistent. simpl.
    repeat constructor; simpl; intuition discriminate. }
  destruct (example_is_context_of_first_occurrence story_doc Hadr)
    as ((result & Hres & _ & Hall & Hex) & _ & Hrun & _).
  split; [exact Hadr|]. split; [reflexivity|]. split.
  - exists result. split; [exact Hres|].
    split; [vm_compute in Hres; now injection Hres as <-|].
    destruct (Hall c_house) as (e & He & Hk); [vm_compute; tauto | reflexivity |].
    exists e. split; [exact He|]. split; [exact Hk|].
    destruct (Hex e He) as (i & Hi & ->). rewrite Hk in Hi.
    vm_compute in Hi. injection Hi as <-. reflexivity.
  - split; [reflexivity|]. split; [reflexivity|].
    destruct (Hrun (firstn 14 story_tokens) c_houses (skipn 15 story_tokens)
                eq_refl eq_refl) as (i & Hi & _ & _ & Hlater).
    vm_compute in Hi. injection Hi as <-.
    destruct Hlater as [Hentry Hsame]; [simpl; lia|].
    split; [exact Hentry | exact Hsame].
Defined.

End DictionaryFacts.

(* ================================================================== *)
(** ** The statistics computer *)
(* ================================================================== *)

Module StatisticsFacts.
Import Statistics.

Lemma for_each_snoc {S X} (body : S -> X -> result S) (xs : list X) (x : X)
    (s : S) :
  for_each body (xs ++ [x]) s
  = bind (for_each body xs s) (fun s' => body s' x).
Proof.
  revert s. induction xs as [|y xs IH]; intros s; simpl.
  - now destruct (body s x).
  - destruct (body s y); simpl; [apply IH | reflexivity].
Qed.

Lemma chars_of_snoc (ts : list Token) (t : Token) :
  chars_of (ts ++ [t])
  = (chars_of ts + Z.of_nat (String.length (text t)))%Z.
Proof.
  unfold chars_of. induction ts as [|x ts IH]; simpl; [lia|].
  rewrite IH. lia.
Qed.

(** The keys of a counter fed with a list are the distinct elements of the
    list. *)
Lemma In_keys_fold_incr (l : list str) (c : dict str Z) (k : str) :
  In k (keys (fold_left incr l c)) <-> In k (keys c) \/ In k l.
Proof.
  revert c. induction l as [|x l IH]; intros c; simpl; [tauto|].
  rewrite IH. unfold incr. rewrite keys_set.
  destruct (mem c x) eqn:E.
  - apply mem_true in E. intuition (subst; auto).
  - rewrite in_app_iff. simpl. tauto.
Qed.

Lemma length_fold_incr (l : list str) :
  List.length (fold_left incr l ([] : dict str Z))
  = List.length (nodup string_dec l).
Proof.
  rewrite <- (length_map fst). fold (keys (fold_left incr l ([] : dict str Z))).
  apply Permutation_length, NoDup_Permutation.
  - apply NoDup_keys_fold_incr. constructor.
  - apply NoDup_nodup.
  - intros k. rewrite In_keys_fold_incr, nodup_In. simpl. tauto.
Qed.

Section WithFloats.
Variable float : Type.
Variable truediv : Z -> Z -> float.
Variable mul_int : float -> Z -> float.
Variable round_to : float -> Z -> float.

(** The state of the loop after the tokens [pre]. *)
Lemma scan_spec (pre : list Token) :
  exists st, for_each scan_token pre initial_state = Ok st
    /\ word_count st = Z.of_nat (List.length (filter is_word pre))
    /\ total_chars st = chars_of (filter is_word pre)
    /\ all_lemmas st
       = fold_left incr (map lemma_of (filter is_word pre)) []
    /\ keys (lemma_counters st) = CONTENT_POS.
Proof.
  induction pre as [|t pre IH] using rev_ind.
  - exists initial_state. repeat split.
  - destruct IH as (st & Hrun & Hw & Hc & Hl & Hk).
    rewrite for_each_snoc, Hrun, filter_app. cbn [bind filter].
    unfold scan_token.
    destruct (str_in (pos t) ["PUNCT"; "SYM"]) eqn:Ep.
    + replace (is_word t) with false by (unfold is_word; now rewrite Ep).
      eexists. split; [reflexivity|]. rewrite app_nil_r.
      cbn [word_count total_chars all_lemmas lemma_counters]. auto.
    + replace (is_word t) with true by (unfold is_word; now rewrite Ep).
      assert (Hsnoc :
        (word_count st + 1)%Z =
          Z.of_nat (List.length (filter is_word pre ++ [t]))
        /\ (total_chars st + Z.of_nat (String.length (text t)))%Z =
             chars_of (filter is_word pre ++ [t])
        /\ incr (all_lemmas st) (lemma_of t) =
             fold_left incr (map lemma_of (filter is_word pre ++ [t])) []).
      { rewrite length_app, chars_of_snoc, map_app, fold_left_app, Hw, Hc, Hl.
        cbn [List.length map fold_left]. repeat split. lia. }
      destruct Hsnoc as (Hw' & Hc' & Hl').
      destruct (str_in (pos t) CONTENT_POS) eqn:Ec.
      * assert (Hm : mem (lemma_counters st) (pos t) = true).
        { apply mem_true. rewrite Hk. now apply str_in_In. }
        unfold subscript. unfold mem in Hm.
        destruct (get (lemma_counters st) (pos t)) as [c|] eqn:Eg;
          [|discriminate].
        cbn [bind]. eexists. split; [reflexivity|].
        cbn [word_count total_chars all_lemmas lemma_counters].
        repeat split; try assumption.
        rewrite keys_set. unfold mem. now rewrite Eg.
      * eexists. split; [reflexivity|].
        cbn [word_count total_chars all_lemmas lemma_counters]. auto.
Qed.

Lemma top_ok (st : ScanState) (top_n : Z) (p : str) :
  keys (lemma_counters st) = CONTENT_POS -> In p CONTENT_POS ->
  exists l, top st top_n p = Ok l.
Proof.
  intros Hk Hp. unfold top, subscript.
  destruct (get (lemma_counters st) p) eqn:Eg; cbn [bind]; [eauto|].
  apply get_None_keys in Eg. rewrite Hk in Eg. contradiction.
Qed.

(** C5 (the two ratios).  The computer returns on every document.
    [total_words] is the number of tokens whose POS is neither PUNCT nor
    SYM and [unique_lemmas] the number of distinct lowercased lemmas of
    those tokens.  When [total_words] is 0 (which is the case exactly
    when every token is PUNCT or SYM) both ratios are the integer 0 and
    no division is performed; otherwise [vocabulary_richness] is
    [round(unique_lemmas / total_words * 100, 2)] and [avg_word_length]
    is [round(chars / total_words, 2)], where [chars] is the sum of the
    lengths of the surface texts of the words. *)
Theorem ratios_guard_zero_words (d : Doc) (top_n : Z) :
  exists r, compute_statistics float truediv mul_int round_to d top_n = Ok r
    /\ total_words float r = Z.of_nat (List.length (words d))
    /\ unique_lemmas float r = Z.of_nat (List.length (distinct_lemmas d))
    /\ vocabulary_richness float r
       = (if (total_words float r =? 0)%Z then Int 0
          else Float (round_to
                 (mul_int (truediv (unique_lemmas float r)
                                   (total_words float r)) 100) 2))
    /\ avg_word_length float r
       = (if (total_words float r =? 0)%Z then Int 0
          else Float (round_to
                 (truediv (word_chars d) (total_words float r)) 2))
    /\ (total_words float r = 0%Z <->
        forall t, In t (tokens d) -> pos t = "PUNCT" \/ pos t = "SYM").
Proof.
  destruct (scan_spec (tokens d)) as (st & Hrun & Hw & Hc & Hl & Hk).
  unfold compute_statistics.
  rewrite Hrun. cbn [bind].
  destruct (top_ok st top_n "NOUN" Hk) as (l1 & ->); [simpl; tauto|].
  destruct (top_ok st top_n "ADJ" Hk) as (l2 & ->); [simpl; tauto|].
  destruct (top_ok st top_n "VERB" Hk) as (l3 & ->); [simpl; tauto|].
  destruct (top_ok st top_n "ADV" Hk) as (l4 & ->); [simpl; tauto|].
  destruct (top_ok st top_n "PROPN" Hk) as (l5 & ->); [simpl; tauto|].
  cbn [bind]. eexists. split; [reflexivity|].
  cbn [total_words unique_lemmas vocabulary_richness avg_word_length].
  split; [exact Hw|]. split.
  { unfold len. rewrite Hl, length_fold_incr. reflexivity. }
  split; [reflexivity|]. split.
  { unfold word_chars, words. now rewrite Hc. }
  rewrite Hw. fold (words d). unfold words. split.
  - intros Hz t Ht.
    assert (Hnil : filter is_word (tokens d) = []).
    { apply length_zero_iff_nil. lia. }
    assert (Hnw : is_word t = false).
    { destruct (is_word t) eqn:E; [|reflexivity].
      assert (Hin : In t (filter is_word (tokens d)))
        by (apply filter_In; auto).
      rewrite Hnil in Hin. contradiction. }
    unfold is_word in Hnw. apply negb_false_iff, str_in_In in Hnw.
    simpl in Hnw. intuition.
  - intros Hall.
    assert (Hnil : filter is_word (tokens d) = []).
    { destruct (filter is_word (tokens d)) as [|t ts] eqn:E; [reflexivity|].
      assert (Hin : In t (filter is_word (tokens d))) by (rewrite E; now left).
      apply filter_In in Hin as [Hin Hw'].
      unfold is_word in Hw'. apply negb_true_iff, str_in_false in Hw'.
      exfalso. apply Hw'. simpl. destruct (Hall t Hin) as [->| ->]; auto. }
    now rewrite Hnil.
Qed.
End WithFloats.

Import Samples.

(** On a document of punctuation both ratios are the integer 0; on
    "Old house, houses red" they are [round(3 / 4 * 100, 2)] and
    [round(17 / 4, 2)]. *)
Lemma ratios_guard_zero_words_witness :
  (exists r, compute_statistics fexpr FDiv FMul FRound punct_doc 100 = Ok r
     /\ vocabulary_richness fexpr r = Int 0
     /\ avg_word_length fexpr r = Int 0)
  /\ (exists r, compute_statistics fexpr FDiv FMul FRound dictionary_doc 100
                = Ok r
        /\ vocabulary_richness fexpr r
           = Float (FRound (FMul (FDiv 3 4) 100) 2)
        /\ avg_word_length fexpr r = Float (FRound (FDiv 17 4) 2)).
Proof.
  split.
  - destruct (ratios_guard_zero_words fexpr FDiv FMul FRound punct_doc 100)
      as (r & Hr & Hw & Hu & Hrich & Havg & _).
    exists r. split; [exact Hr|].
    rewrite Hrich, Havg, Hw. split; reflexivity.
  - destruct (ratios_guard_zero_words fexpr FDiv FMul FRound dictionary_doc 100)
      as (r & Hr & Hw & Hu & Hrich & Havg & _).
    exists r. split; [exact Hr|].
    rewrite Hrich, Havg, Hu, Hw. split; reflexivity.
Defined.



End StatisticsFacts.

(* ================================================================== *)
(** ** Further properties of the collocation extractor *)
(* ================================================================== *)

Module CollocationProperties.
Import Collocations CollocationFacts Samples.

(** *** Loops that succeed *)

Lemma for_each_preserves {S X} (P : S -> Prop) (body : S -> X -> result S)
    (xs : list X) :
  (forall s x s1, In x xs -> P s -> body s x = Ok s1 -> P s1) ->
  forall s s', P s -> for_each body xs s = Ok s' -> P s'.
Proof.
  induction xs as [|x rest IH]; intros Hstep s s' Hs Hrun; simpl in Hrun.
  - now injection Hrun as <-.
  - destruct (body s x) as [s1|e] eqn:E; simpl in Hrun; [|discriminate].
    eapply IH; [|eapply Hstep; eauto; now left | exact Hrun].
    intros s0 y s2 Hy. apply Hstep. now right.
Qed.

(** A fact that the iteration at [x0] establishes and that no iteration
    destroys holds at the end. *)
Lemma for_each_establishes {S X} (Q : S -> Prop) (body : S -> X -> result S)
    (xs : list X) (x0 : X) :
  (forall s x s1, body s x = Ok s1 -> Q s -> Q s1) ->
  (forall s s1, body s x0 = Ok s1 -> Q s1) ->
  In x0 xs ->
  forall s s', for_each body xs s = Ok s' -> Q s'.
Proof.
  intros Hkeep Hset. induction xs as [|x rest IH]; intros Hin s s' Hrun;
    [contradiction|].
  simpl in Hrun. destruct (body s x) as [s1|e] eqn:E; simpl in Hrun;
    [|discriminate].
  destruct Hin as [->|Hin].
  - eapply (for_each_preserves Q); [| |exact Hrun]; eauto.
  - eauto.
Qed.

Lemma In_enumerate {A} (l : list A) (i : nat) (x : A) :
  In (i, x) (enumerate l) <-> nth_error l i = Some x.
Proof.
  unfold enumerate.
  enough (G : forall a, In (i, x) (combine (seq a (List.length l)) l)
                        <-> (a <= i)%nat /\ nth_error l (i - a) = Some x).
  { rewrite G, Nat.sub_0_r. intuition lia. }
  induction l as [|y l IH]; intros a; simpl.
  - split; [tauto|]. intros [_ H]. now destruct (i - a)%nat.
  - rewrite IH. split.
    + intros [[= <- <-]|[Hle Hn]].
      * rewrite Nat.sub_diag. auto.
      * split; [lia|]. replace (i - a)%nat with (S (i - S a)) by lia. exact Hn.
    + intros [Hle Hn]. destruct (i - a)%nat as [|k] eqn:Ek.
      * left. injection Hn as <-. f_equal. lia.
      * right. split; [lia|]. replace (i - S a)%nat with k by lia. exact Hn.
Qed.

(** *** What one recording does *)

Lemma mem_incr (c : dict pair_key Z) (p q : pair_key) :
  mem (incr c p) q = true <-> q = p \/ mem c q = true.
Proof.
  unfold mem. rewrite get_incr.
  destruct (key_eqb p q) eqn:E.
  - apply key_eqb_eq in E. subst. tauto.
  - split; [tauto|]. intros [->|H]; [|exact H].
    rewrite key_eqb_refl in E. discriminate.
Qed.

Lemma pass1_token_cases (ids : dict str Token) (st : PairState) (t : Token) :
  pass1_token ids st t = st
  \/ exists h phrase,
       resolve_head ids t = Some h /\ is_noun h = true
       /\ rel t = Some "amod" /\ In (pos t) ADJ_LIKE_POS
       /\ pass1_token ids st t = record st (lemma_of h, lemma_of t) phrase.
Proof.
  unfold pass1_token.
  destruct (rel t) as [r|] eqn:Er; cbn [andb]; [|now left].
  destruct (String.eqb r "amod") eqn:Ea; cbn [andb]; [|now left].
  apply String.eqb_eq in Ea. subst r.
  destruct (str_in (pos t) ADJ_LIKE_POS) eqn:Ep; [|now left].
  destruct (resolve_head ids t) as [h|]; [|now left].
  destruct (str_in (pos h) ["NOUN"; "PROPN"]) eqn:Eh; [|now left].
  right. exists h. eexists. repeat split; try assumption.
  now apply str_in_In.
Qed.

Lemma pass2_neighbor_cases toks i noun_lemma st j st' :
  pass2_neighbor toks i noun_lemma st j = Ok st' ->
  st' = st
  \/ exists other phrase,
       nth_error toks j = Some other /\ j <> i /\ pos other = "ADJ"
       /\ mem (pair_counter st) (noun_lemma, lemma_of other) = false
       /\ st' = record st (noun_lemma, lemma_of other) phrase.
Proof.
  unfold pass2_neighbor.
  destruct (j =? i)%nat eqn:Eji; [intros [= <-]; now left|].
  apply Nat.eqb_neq in Eji.
  destruct (nth_error toks j) as [other|]; [|discriminate].
  destruct (String.eqb (pos other) "ADJ") eqn:Ep; simpl;
    [|intros [= <-]; now left].
  apply String.eqb_eq in Ep.
  destruct (mem (pair_counter st) (noun_lemma, lemma_of other)) eqn:Em;
    intros [= <-]; [now left|].
  right. exists other. eexists. repeat split; assumption.
Qed.

(** *** Where the examples of a pair come from *)

Lemma get_add_example (examples : dict pair_key (list str)) (p q : pair_key)
    (phrase : str) :
  get (add_example examples p phrase) q
  = if key_eqb p q then
      let cur := examples_for examples p in
      Some (if (List.length cur <? 3)%nat && negb (str_in phrase cur)
            then cur ++ [phrase] else cur)
    else get examples q.
Proof.
  unfold add_example, default_subscript, examples_for.
  destruct (key_eqb p q) eqn:E.
  - apply key_eqb_eq in E. subst q.
    destruct (get examples p) as [cur|] eqn:G; simpl.
    + destruct (List.length cur <? 3)%nat; simpl; [|exact G].
      destruct (str_in phrase cur); simpl; [exact G | apply get_set_same].
    + rewrite !get_set_same. reflexivity.
  - assert (N : p <> q) by (intros ->; rewrite key_eqb_refl in E; discriminate).
    destruct (get examples p) as [cur|] eqn:G; simpl.
    + destruct (List.length cur <? 3)%nat; simpl; [|reflexivity].
      destruct (str_in phrase cur); simpl;
        [reflexivity | now apply get_set_other].
    + rewrite !get_set_other by exact N. reflexivity.
Qed.

Lemma record_examples_ok (st : PairState) (p : pair_key) (phrase : str) :
  examples_ok st -> examples_ok (record st p phrase).
Proof.
  intros Hok q. unfold record. cbn [pair_counter pair_examples].
  rewrite get_add_example. destruct (key_eqb p q) eqn:E.
  - apply key_eqb_eq in E. subst q. cbn zeta.
    assert (Hcur : (List.length (examples_for (pair_examples st) p) <= 3)%nat
                   /\ NoDup (examples_for (pair_examples st) p)).
    { unfold examples_for.
      destruct (get (pair_examples st) p) as [l|] eqn:G.
      - apply (proj2 (Hok p)), G.
      - split; [simpl; lia | constructor]. }
    destruct Hcur as [Hlen Hnd].
    set (cur := examples_for (pair_examples st) p) in *.
    split.
    + intros _. eexists. split; [reflexivity|].
      destruct (List.length cur <? 3)%nat eqn:El; simpl.
      * destruct (str_in phrase cur) eqn:Es; simpl.
        -- apply str_in_In in Es. intros ->. contradiction.
        -- now destruct cur.
      * apply Nat.ltb_ge in El. intros ->. simpl in El. lia.
    + intros l [= <-].
      destruct (List.length cur <? 3)%nat eqn:El; simpl; [|auto].
      apply Nat.ltb_lt in El.
      destruct (str_in phrase cur) eqn:Es; simpl; [auto|].
      apply str_in_false in Es. split.
      * rewrite length_app. simpl. lia.
      * apply NoDup_app; [assumption | repeat constructor; intros [] |].
        intros x Hx [<-|[]]. contradiction.
  - destruct (Hok q) as [H1 H2]. split; [|exact H2].
    intros Hm. apply mem_incr in Hm as [->|Hm]; [|auto].
    rewrite key_eqb_refl in E. discriminate.
Qed.

Lemma pass1_examples_ok (d : Doc) : examples_ok (pass1 d empty_state).
Proof.
  unfold pass1.
  assert (H0 : examples_ok empty_state).
  { intros p. split; [discriminate | discriminate]. }
  revert H0. generalize empty_state as st.
  induction (sents d) as [|s ss IH]; intros st Hst; simpl; [assumption|].
  apply IH. unfold pass1_sent.
  generalize (id_to_token s) as ids. intros ids.
  revert st Hst. induction (sent_tokens s) as [|t ts IHt]; intros st Hst;
    simpl; [assumption|].
  apply IHt.
  destruct (pass1_token_cases ids st t) as [->|(h & ph & _ & _ & _ & _ & ->)];
    [assumption | now apply record_examples_ok].
Qed.

Lemma pass2_examples_ok (d : Doc) (st st' : PairState) :
  examples_ok st -> pass2 d st = Ok st' -> examples_ok st'.
Proof.
  unfold pass2. apply for_each_preserves.
  intros s [i token] s1 _ Hs. unfold pass2_token.
  destruct (negb (str_in (pos token) ["NOUN"; "PROPN"]));
    [now intros [= <-]|].
  apply for_each_preserves; [|assumption].
  intros s2 j s3 _ Hs2 Hstep.
  apply pass2_neighbor_cases in Hstep as [->|(o & ph & _ & _ & _ & _ & ->)];
    [assumption | now apply record_examples_ok].
Qed.

(** *** The final state of the extractor *)

Lemma extract_state (d : Doc) :
  exists st, pass2 d (pass1 d empty_state) = Ok st
    /\ extract_noun_adj_pairs d = Ok (build_output st)
    /\ window_extends (pair_counter (pass1 d empty_state)) (pair_counter st)
    /\ NoDup (keys (pair_counter st)).
Proof.
  destruct (pass2_ok d (pass1 d empty_state) (pass1_NoDup d))
    as (st & E & Hext & ND).
  exists st. unfold extract_noun_adj_pairs. rewrite E. simpl. auto.
Qed.

Lemma final_count_positive (d : Doc) (st : PairState) (p : pair_key) (c : Z) :
  window_extends (pair_counter (pass1 d empty_state)) (pair_counter st) ->
  get (pair_counter st) p = Some c -> (1 <= c)%Z.
Proof.
  intros Hext G. specialize (Hext p). rewrite pass1_get in Hext.
  destruct (pass1_count d p); [destruct Hext|]; try congruence.
  - assert (c = 1%Z) by congruence. lia.
  - assert (c = Z.of_nat (S n)) by congruence. lia.
Qed.

(** X1.  Every entry of the pair list has a count of at least 1 and
    carries between one and three example phrases, no phrase twice. *)
Theorem pair_entries_carry_one_to_three_examples (d : Doc) :
  exists idx, extract_noun_adj_pairs d = Ok idx
    /\ forall e, In e (pair_list idx) ->
         (1 <= pe_count e)%Z
         /\ (1 <= List.length (pe_examples e) <= 3)%nat
         /\ NoDup (pe_examples e).
Proof.
  destruct (extract_state d) as (st & Hrun & Hex & Hext & ND).
  exists (build_output st). split; [exact Hex|].
  intros e He. apply In_pair_list in He as (p & c & G & ->); [|exact ND].
  assert (Hok : examples_ok st).
  { eapply pass2_examples_ok; [apply pass1_examples_ok | exact Hrun]. }
  destruct (Hok p) as [Hhas Hbound].
  destruct Hhas as (l & Gl & Hne); [unfold mem; now rewrite G|].
  destruct (Hbound l Gl) as [Hlen Hnd].
  unfold pair_entry_of, examples_for. cbn [pe_count pe_examples fst snd].
  rewrite Gl. split; [eapply final_count_positive; eauto|].
  split; [|exact Hnd]. split; [|exact Hlen].
  destruct l; [congruence | simpl; lia].
Qed.

(** *** Which pairs the index holds *)

Lemma window_reaches (toks : list Token) (i j : nat) (n a : Token)
    (st st' : PairState) :
  nth_error toks i = Some n -> nth_error toks j = Some a ->
  i <> j -> (i <= j + 2)%nat -> (j <= i + 2)%nat ->
  is_noun n = true -> pos a = "ADJ" ->
  for_each (pass2_token toks) (enumerate toks) st = Ok st' ->
  mem (pair_counter st') (lemma_of n, lemma_of a) = true.
Proof.
  intros Hi Hj Hij Hlo Hhi Hn Ha.
  set (p := (lemma_of n, lemma_of a)).
  assert (Hkeep1 : forall nl k s x s1,
            pass2_neighbor toks k nl s x = Ok s1 ->
            mem (pair_counter s) p = true -> mem (pair_counter s1) p = true).
  { intros nl k s x s1 Hstep Hm.
    apply pass2_neighbor_cases in Hstep as [->|(o & ph & _ & _ & _ & _ & ->)];
      [exact Hm|].
    unfold record. cbn [pair_counter]. apply mem_incr. now right. }
  assert (Hkeep : forall s x s1,
            pass2_token toks s x = Ok s1 ->
            mem (pair_counter s) p = true -> mem (pair_counter s1) p = true).
  { intros s [k token] s1 Hstep Hm. unfold pass2_token in Hstep.
    destruct (negb (str_in (pos token) ["NOUN"; "PROPN"]));
      [now injection Hstep as <-|].
    eapply (for_each_preserves (fun s => mem (pair_counter s) p = true));
      [|exact Hm|exact Hstep].
    intros s2 x s3 _ Hm2 Hs. eapply Hkeep1; eauto. }
  apply (for_each_establishes (fun s => mem (pair_counter s) p = true)
           (pass2_token toks) (enumerate toks) (i, n)); [exact Hkeep| |].
  - intros s s1 Hstep. unfold pass2_token in Hstep.
    unfold is_noun in Hn. rewrite Hn in Hstep. cbn [negb] in Hstep.
    eapply (for_each_establishes (fun s => mem (pair_counter s) p = true)
              (pass2_neighbor toks i (lemma_of n)) _ j); [| | |exact Hstep].
    + intros s2 x s3. apply Hkeep1.
    + intros s2 s3 Hs. unfold pass2_neighbor in Hs.
      destruct (j =? i)%nat eqn:E; [apply Nat.eqb_eq in E; congruence|].
      rewrite Hj, Ha in Hs. cbn in Hs.
      fold p in Hs.
      destruct (mem (pair_counter s2) p) eqn:Em; injection Hs as <-;
        [exact Em|].
      cbn [pair_counter]. apply mem_incr. now left.
    + unfold range. apply in_seq.
      assert (j < List.length toks)%nat by (apply nth_error_Some; congruence).
      lia.
  - now apply In_enumerate.
Qed.

Lemma window_origin (d : Doc) (st st' : PairState) :
  (forall p, mem (pair_counter st) p = true ->
             (1 <= pass1_count d p)%nat \/ window_pair d p) ->
  pass2 d st = Ok st' ->
  forall p, mem (pair_counter st') p = true ->
            (1 <= pass1_count d p)%nat \/ window_pair d p.
Proof.
  unfold pass2.
  apply (for_each_preserves
           (fun s => forall p, mem (pair_counter s) p = true ->
                       (1 <= pass1_count d p)%nat \/ window_pair d p)).
  intros s [i token] s1 Hin Hs. apply In_enumerate in Hin.
  unfold pass2_token.
  destruct (str_in (pos token) ["NOUN"; "PROPN"]) eqn:En; cbn [negb];
    [|now intros [= <-]].
  apply (for_each_preserves
           (fun s => forall p, mem (pair_counter s) p = true ->
                       (1 <= pass1_count d p)%nat \/ window_pair d p));
    [|exact Hs].
  intros s2 j s3 Hj Hs2 Hstep p Hm.
  apply pass2_neighbor_cases in Hstep
    as [->|(o & ph & Ho & Hne & Hpos & _ & ->)]; [auto|].
  unfold record in Hm. cbn [pair_counter] in Hm.
  apply mem_incr in Hm as [->|Hm]; [|auto].
  right. exists i, j, token, o. unfold range in Hj. apply in_seq in Hj.
  repeat split; try assumption; lia.
Qed.

(** The pairs counted at the end are the pairs one of the strategies
    meets. *)
Lemma final_pairs (d : Doc) (st : PairState) :
  pass2 d (pass1 d empty_state) = Ok st ->
  window_extends (pair_counter (pass1 d empty_state)) (pair_counter st) ->
  forall p, mem (pair_counter st) p = true
            <-> (1 <= pass1_count d p)%nat \/ window_pair d p.
Proof.
  intros Hrun Hext p. split.
  - apply (window_origin d (pass1 d empty_state) st); [|exact Hrun].
    intros q Hq. left. unfold mem in Hq. rewrite pass1_get in Hq.
    destruct (pass1_count d q); [discriminate | lia].
  - intros [Hsyn|(i & j & n & a & Hi & Hj & Hij & Hlo & Hhi & Hn & Ha & ->)].
    + specialize (Hext p). rewrite pass1_get in Hext.
      destruct (pass1_count d p); [lia|]. unfold mem. now rewrite Hext.
    + eapply window_reaches; eauto.
Qed.

Lemma pair_list_mem (st : PairState) (p : pair_key) :
  NoDup (keys (pair_counter st)) ->
  (exists e, In e (pair_list (build_output st)) /\ pair_of e = p)
  <-> mem (pair_counter st) p = true.
Proof.
  intros ND. unfold mem. split.
  - intros (e & He & <-).
    apply In_pair_list in He as ([n a] & c & G & ->); [|exact ND].
    unfold pair_of. simpl. now rewrite G.
  - destruct (get (pair_counter st) p) as [c|] eqn:G; [|discriminate].
    intros _. exists (pair_entry_of (pair_examples st) (p, c)).
    split; [apply In_pair_list; eauto | now destruct p].
Qed.

(** X2.  The pairs of the index are exactly the pairs one of the two
    strategies meets: a pair is in [pair_list] if and only if the
    syntactic pass records it or a NOUN/PROPN token with that noun lemma
    has an ADJ token with that adjective lemma at most two flat positions
    away. *)
Theorem pair_list_holds_syntactic_and_window_pairs (d : Doc) :
  exists idx, extract_noun_adj_pairs d = Ok idx
    /\ forall p, (exists e, In e (pair_list idx) /\ pair_of e = p)
                 <-> (1 <= pass1_count d p)%nat \/ window_pair d p.
Proof.
  destruct (extract_state d) as (st & Hrun & Hex & Hext & ND).
  exists (build_output st). split; [exact Hex|].
  intros p. rewrite (pair_list_mem st p ND).
  now apply final_pairs.
Qed.

(** *** The three views *)

Lemma get_append_to {V} (index : dict str (list V)) (k k' : str) (x : V) :
  get (append_to index k x) k'
  = if String.eqb k k' then Some (lookup_list index k ++ [x])
    else get index k'.
Proof.
  unfold append_to, default_subscript, lookup_list.
  destruct (String.eqb k k') eqn:E.
  - apply String.eqb_eq in E. subst k'.
    destruct (get index k); apply get_set_same.
  - apply String.eqb_neq in E.
    destruct (get index k); rewrite !get_set_other by exact E; reflexivity.
Qed.

Lemma append_to_nonempty {V} (index : dict str (list V)) (k : str) (x : V) :
  lists_nonempty index -> lists_nonempty (append_to index k x).
Proof.
  intros [ND Hne]. split.
  - unfold append_to, default_subscript.
    destruct (get index k); repeat apply NoDup_keys_set; exact ND.
  - intros k' l. rewrite get_append_to.
    destruct (String.eqb k k'); [|apply Hne].
    intros [= <-]. now destruct (lookup_list index k).
Qed.

Lemma fold_build_nonempty examples l b :
  lists_nonempty (b_noun_adj b) -> lists_nonempty (b_adj_noun b) ->
  lists_nonempty (b_noun_adj (fold_left (build_step examples) l b))
  /\ lists_nonempty (b_adj_noun (fold_left (build_step examples) l b)).
Proof.
  revert b. induction l as [|x l IH]; intros b H1 H2; simpl; [auto|].
  apply IH; rewrite build_step_eq; cbn [b_noun_adj b_adj_noun];
    now apply append_to_nonempty.
Qed.

Lemma keys_sort_lists {V} (count : V -> Z) (index : dict str (list V)) :
  keys (sort_lists count index) = keys index.
Proof.
  unfold keys, sort_lists. rewrite map_map. now apply map_ext.
Qed.

Lemma get_lookup_list {V} (index : dict str (list V)) (k : str) (l : list V) :
  get index k = Some l -> lookup_list index k = l.
Proof. unfold lookup_list. now intros ->. Qed.

Lemma lookup_nonempty_get {V} (index : dict str (list V)) (k : str) :
  lookup_list index k <> [] -> get index k = Some (lookup_list index k).
Proof. unfold lookup_list. destruct (get index k); congruence. Qed.

Lemma NoDup_second_components (l : list (pair_key * Z)) (n : str) :
  NoDup (map fst l) ->
  NoDup (map (fun it => snd (fst it))
           (filter (fun it => String.eqb (fst (fst it)) n) l)).
Proof.
  induction l as [|x l IH]; simpl; intros ND; [constructor|].
  inversion ND as [|? ? Hx ND']; subst.
  destruct (String.eqb (fst (fst x)) n) eqn:E; [|auto].
  simpl. constructor; [|auto].
  intros Hin. apply in_map_iff in Hin as (y & Ey & Hy).
  apply filter_In in Hy as [Hy En].
  apply String.eqb_eq in E, En. apply Hx.
  replace (fst x) with (fst y); [now apply in_map|].
  destruct x as [[? ?] ?], y as [[? ?] ?]; simpl in *. congruence.
Qed.

Lemma NoDup_first_components (l : list (pair_key * Z)) (a : str) :
  NoDup (map fst l) ->
  NoDup (map (fun it => fst (fst it))
           (filter (fun it => String.eqb (snd (fst it)) a) l)).
Proof.
  induction l as [|x l IH]; simpl; intros ND; [constructor|].
  inversion ND as [|? ? Hx ND']; subst.
  destruct (String.eqb (snd (fst x)) a) eqn:E; [|auto].
  simpl. constructor; [|auto].
  intros Hin. apply in_map_iff in Hin as (y & Ey & Hy).
  apply filter_In in Hy as [Hy En].
  apply String.eqb_eq in E, En. apply Hx.
  replace (fst x) with (fst y); [now apply in_map|].
  destruct x as [[? ?] ?], y as [[? ?] ?]; simpl in *. congruence.
Qed.

Lemma most_common_keys_NoDup (c : dict pair_key Z) :
  NoDup (keys c) -> NoDup (map fst (most_common c)).
Proof.
  intros ND. eapply Permutation_NoDup; [|exact ND].
  symmetry. apply Permutation_map, sorted_by_perm.
Qed.

Lemma get_sort_lists {V} (count : V -> Z) (index : dict str (list V)) k :
  get (sort_lists count index) k
  = option_map (sorted_desc count) (get index k).
Proof.
  unfold sort_lists. induction index as [|[k0 l0] r IH]; simpl; [reflexivity|].
  destruct (key_eqb k0 k); [reflexivity | exact IH].
Qed.

(** An entry of a sorted index is the sorted form of a list that is not
    empty. *)
Lemma sorted_index_entry {V} (count : V -> Z) (b : dict str (list V)) k l :
  lists_nonempty b -> In (k, l) (sort_lists count b) ->
  l = sorted_desc count (lookup_list b k) /\ lookup_list b k <> [].
Proof.
  intros [ND Hne] Hin.
  apply In_get_Some in Hin; [|now rewrite keys_sort_lists].
  rewrite get_sort_lists in Hin. unfold lookup_list.
  destruct (get b k) as [l0|] eqn:G; [|discriminate].
  injection Hin as <-. split; [reflexivity | exact (Hne k l0 G)].
Qed.

Lemma sorted_desc_nonempty {V} (count : V -> Z) (l : list V) :
  l <> [] -> sorted_desc count l <> [].
Proof.
  intros Hne E. apply Hne, Permutation_nil.
  rewrite <- E. apply sorted_by_perm.
Qed.

(** X3.  The three views of the index hold the same facts: an entry
    (noun, adjective, count, examples) is in the pair list exactly when
    the noun index lists (adjective, count, examples) under the noun, and
    exactly when the adjective index lists (noun, count) under the
    adjective. *)
Theorem index_views_agree (d : Doc) :
  exists idx, extract_noun_adj_pairs d = Ok idx
    /\ (forall n a c ex,
          In (mkPairEntry n a c ex) (pair_list idx)
          <-> In (mkAdjEntry a c ex) (lookup_list (noun_adj_index idx) n))
    /\ (forall n a c,
          (exists ex, In (mkPairEntry n a c ex) (pair_list idx))
          <-> In (mkNounEntry n c) (lookup_list (adj_noun_index idx) a)).
Proof.
  destruct (extract_state d) as (st & _ & Hex & _ & ND).
  exists (build_output st). split; [exact Hex|]. split.
  - intros n a c ex. rewrite In_pair_list, In_noun_adj_index by exact ND.
    split.
    + intros ([n' a'] & c' & G & E). injection E as -> -> -> ->.
      exists a', c'. split; [exact G | reflexivity].
    + intros (a' & c' & G & E). injection E as -> -> ->.
      exists (n, a'), c'. split; [exact G | reflexivity].
  - intros n a c. rewrite In_adj_noun_index by exact ND. split.
    + intros (ex & He). apply In_pair_list in He as ([n' a'] & c' & G & E);
        [|exact ND].
      injection E as -> -> -> _. exists n', c'. split; [exact G | reflexivity].
    + intros (n' & c' & G & E). injection E as -> ->.
      exists (examples_for (pair_examples st) (n', a)).
      apply In_pair_list; [exact ND|].
      exists (n', a), c'. split; [exact G | reflexivity].
Qed.

Lemma built_lists_nonempty (st : PairState) :
  lists_nonempty
    (b_noun_adj (fold_left (build_step (pair_examples st))
                   (most_common (pair_counter st)) (mkBuilt [] [] [])))
  /\ lists_nonempty
       (b_adj_noun (fold_left (build_step (pair_examples st))
                      (most_common (pair_counter st)) (mkBuilt [] [] []))).
Proof.
  apply fold_build_nonempty; (split; [constructor | discriminate]).
Qed.

(** The list the built index keeps under a noun. *)
Lemma noun_list_ranked (st : PairState) (n : str) (l : list AdjEntry) :
  NoDup (keys (pair_counter st)) ->
  In (n, l) (noun_adj_index (build_output st)) ->
  l <> []
  /\ StronglySorted (fun a b => (ae_count b <= ae_count a)%Z) l
  /\ NoDup (map ae_adj l).
Proof.
  intros ND Hin. unfold build_output in Hin. cbn [noun_adj_index] in Hin.
  apply sorted_index_entry in Hin as [-> Hl0];
    [|apply built_lists_nonempty].
  split; [now apply sorted_desc_nonempty|].
  split; [apply sorted_desc_sorted|].
  eapply Permutation_NoDup;
    [symmetry; apply Permutation_map, sorted_by_perm|].
  rewrite fold_build_noun_adj. simpl. rewrite map_map.
  apply NoDup_second_components. now apply most_common_keys_NoDup.
Qed.

Lemma adj_list_ranked (st : PairState) (a : str) (l : list NounEntry) :
  NoDup (keys (pair_counter st)) ->
  In (a, l) (adj_noun_index (build_output st)) ->
  l <> []
  /\ StronglySorted (fun x y => (ne_count y <= ne_count x)%Z) l
  /\ NoDup (map ne_noun l).
Proof.
  intros ND Hin. unfold build_output in Hin. cbn [adj_noun_index] in Hin.
  apply sorted_index_entry in Hin as [-> Hl0];
    [|apply built_lists_nonempty].
  split; [now apply sorted_desc_nonempty|].
  split; [apply sorted_desc_sorted|].
  eapply Permutation_NoDup;
    [symmetry; apply Permutation_map, sorted_by_perm|].
  rewrite fold_build_adj_noun. simpl. rewrite map_map.
  apply NoDup_first_components. now apply most_common_keys_NoDup.
Qed.

(** X4.  The index is ranked and has no empty slot: the pair list is
    sorted by count, descending; the keys of the noun index are pairwise
    distinct, and the list under each key is not empty, is sorted by
    count, descending, and names every adjective once; likewise, with
    nouns, for the adjective index. *)
Theorem index_lists_are_ranked (d : Doc) :
  exists idx, extract_noun_adj_pairs d = Ok idx
    /\ StronglySorted (fun a b => (pe_count b <= pe_count a)%Z) (pair_list idx)
    /\ NoDup (keys (noun_adj_index idx))
    /\ NoDup (keys (adj_noun_index idx))
    /\ (forall n l, In (n, l) (noun_adj_index idx) ->
          l <> []
          /\ StronglySorted (fun a b => (ae_count b <= ae_count a)%Z) l
          /\ NoDup (map ae_adj l))
    /\ (forall a l, In (a, l) (adj_noun_index idx) ->
          l <> []
          /\ StronglySorted (fun a b => (ne_count b <= ne_count a)%Z) l
          /\ NoDup (map ne_noun l)).
Proof.
  destruct (extract_state d) as (st & _ & Hex & _ & ND).
  exists (build_output st). split; [exact Hex|].
  destruct (built_lists_nonempty st) as [[ND1 _] [ND2 _]].
  split; [|split; [|split; [|split]]].
  - rewrite pair_list_build. apply DictionaryFacts.StronglySorted_map.
    eapply StronglySorted_weaken; [|apply (sorted_desc_sorted snd)].
    intros [k1 c1] [k2 c2]. auto.
  - unfold build_output. cbn [noun_adj_index]. now rewrite keys_sort_lists.
  - unfold build_output. cbn [adj_noun_index]. now rewrite keys_sort_lists.
  - intros n l. now apply noun_list_ranked.
  - intros a l. now apply adj_list_ranked.
Qed.

(** *** More about the search *)

Lemma prefix_refl (s : str) : String.prefix s s = true.
Proof.
  induction s as [|a s IH]; simpl; [reflexivity|].
  destruct (ascii_dec a a); [exact IH | contradiction].
Qed.

Lemma In_firstn {A} (n : nat) (l : list A) (x : A) :
  In x (firstn n l) -> In x l.
Proof.
  intros H. rewrite <- (firstn_skipn n l). apply in_or_app. now left.
Qed.

Lemma In_slice_to {A} (l : list A) (n : Z) (x : A) :
  In x (slice_to l n) -> In x l.
Proof. unfold slice_to. destruct (0 <=? n)%Z; apply In_firstn. Qed.

Lemma In_dedup_loop limit items seen res x :
  In x (dedup_loop limit items seen res) -> In x res \/ In x items.
Proof.
  revert seen res. induction items as [|y l IH]; intros seen res; simpl;
    [tauto|].
  destruct (negb (str_in (ae_adj y) seen)).
  - destruct (len (res ++ [y]) >=? limit)%Z.
    + rewrite in_app_iff. simpl. tauto.
    + intros H. apply IH in H. rewrite in_app_iff in H. simpl in H. tauto.
  - destruct (len res >=? limit)%Z; [tauto|].
    intros H. apply IH in H. tauto.
Qed.

Lemma In_prefix_matches (index : dict str (list AdjEntry)) (q : str) x :
  In x (prefix_matches index q) <->
  exists k l, In (k, l) index /\ startswith k q = true /\ In x l.
Proof.
  unfold prefix_matches. rewrite in_flat_map. split.
  - intros ([k l] & Hin & Hx). simpl in Hx.
    destruct (startswith k q) eqn:E; [|contradiction]. eauto.
  - intros (k & l & Hin & E & Hx). exists (k, l). split; [exact Hin|].
    simpl. now rewrite E.
Qed.

Lemma search_sound (index : dict str (list AdjEntry)) query limit x :
  In x (search_adjectives_for_noun index query limit) ->
  exists k l, In (k, l) index
              /\ startswith k (lower (strip query)) = true /\ In x l.
Proof.
  unfold search_adjectives_for_noun.
  destruct (get index (lower (strip query))) as [adjs|] eqn:G.
  - intros Hx. apply In_slice_to in Hx.
    exists (lower (strip query)), adjs.
    split; [now apply get_Some_In|]. split; [apply prefix_refl | exact Hx].
  - intros Hx. apply In_dedup_loop in Hx as [[]|Hx].
    apply sorted_by_In in Hx. now apply In_prefix_matches.
Qed.

Lemma search_bounded (index : dict str (list AdjEntry)) query limit :
  (1 <= limit)%Z ->
  (len (search_adjectives_for_noun index query limit) <= limit)%Z.
Proof.
  intros Hl. unfold len.
  destruct (search_with_positive_limit index query limit Hl) as (-> & _).
  destruct (get index _); rewrite length_firstn; lia.
Qed.

(** X5.  Whatever the limit, the search returns only entries that the
    index lists under a noun starting with the lowercased, trimmed query,
    and nothing at all when no noun starts with it; with a limit of at
    least 1 it returns at most [limit] entries. *)
Theorem search_returns_entries_of_matching_nouns
    (index : dict str (list AdjEntry)) (query : str) (limit : Z) :
  (forall x, In x (search_adjectives_for_noun index query limit) ->
     exists k l, In (k, l) index
                 /\ startswith k (lower (strip query)) = true /\ In x l)
  /\ ((forall k l, In (k, l) index ->
         startswith k (lower (strip query)) = false) ->
      search_adjectives_for_noun index query limit = [])
  /\ ((1 <= limit)%Z ->
      (len (search_adjectives_for_noun index query limit) <= limit)%Z).
Proof.
  split; [intros x; apply search_sound|]. split; [|apply search_bounded].
  intros Hnone.
  destruct (search_adjectives_for_noun index query limit) as [|x r] eqn:E;
    [reflexivity|].
  destruct (search_sound index query limit x) as (k & l & Hin & Hs & _).
  - rewrite E. now left.
  - rewrite (Hnone k l Hin) in Hs. discriminate.
Qed.

Lemma dedup_loop_below_one limit items :
  (limit <= 0)%Z ->
  dedup_loop limit items [] [] = firstn 1 (dedup_by_adj [] items).
Proof.
  intros Hl. destruct items as [|x r]; simpl; [reflexivity|].
  unfold len. simpl.
  destruct (Z.geb_spec 1 limit); [reflexivity | lia].
Qed.

(** X6.  With a limit of 0 or less the two paths differ.  On the prefix
    path the loop stops after its first entry, so the search returns the
    single best-ranked entry of the matching nouns (nothing if none
    matches); on the exact path the slice [[:limit]] returns nothing for
    0 and drops the last [-limit] entries for a negative limit. *)
Theorem search_with_limit_below_one
    (index : dict str (list AdjEntry)) (query : str) (limit : Z) :
  (limit <= 0)%Z ->
  search_adjectives_for_noun index query limit
  = match get index (lower (strip query)) with
    | Some adjs =>
        firstn (List.length adjs - Z.to_nat (- limit))
          (if (limit =? 0)%Z then [] else adjs)
    | None =>
        firstn 1 (dedup_by_adj []
                    (sorted_desc ae_count
                       (prefix_matches index (lower (strip query)))))
    end.
Proof.
  intros Hl. unfold search_adjectives_for_noun.
  destruct (get index (lower (strip query))) as [adjs|].
  - unfold slice_to. destruct (Z.eqb_spec limit 0) as [->|N].
    + simpl. now rewrite firstn_nil.
    + destruct (Z.leb_spec 0 limit); [lia | reflexivity].
  - now apply dedup_loop_below_one.
Qed.

Lemma search_with_limit_below_one_witness :
  search_adjectives_for_noun house_index "ho" (-3)
  = [mkAdjEntry "old" 2 ["old house"]]
  /\ search_adjectives_for_noun house_index "house" (-1)
     = [mkAdjEntry "old" 2 ["old house"]].
Proof.
  split.
  - rewrite (search_with_limit_below_one house_index "ho" (-3)) by lia.
    reflexivity.
  - rewrite (search_with_limit_below_one house_index "house" (-1)) by lia.
    reflexivity.
Defined.

(** *** Searching the index the extractor built *)

Lemma NoDup_firstn {A} (n : nat) (l : list A) :
  NoDup l -> NoDup (firstn n l).
Proof.
  intros ND. rewrite <- (firstn_skipn n l) in ND.
  now apply NoDup_app_remove_r in ND.
Qed.

Lemma StronglySorted_firstn {A} (R : A -> A -> Prop) (n : nat) (l : list A) :
  StronglySorted R l -> StronglySorted R (firstn n l).
Proof.
  intros Hs. revert n. induction Hs as [|x l Hs IH Hall]; intros [|n]; simpl;
    try constructor; [apply IH|].
  rewrite Forall_forall in *. intros y Hy. apply Hall.
  eapply In_firstn; eauto.
Qed.

(** X7.  Searching the noun index of an extracted document with a limit
    of at least 1, on either path: no adjective is returned twice, the
    result is sorted by count, descending, and every returned entry is
    the (adjective, count, examples) of an entry of the pair list whose
    noun starts with the lowercased, trimmed query. *)
Theorem search_on_built_index (d : Doc) (query : str) (limit : Z) :
  (1 <= limit)%Z ->
  exists idx, extract_noun_adj_pairs d = Ok idx
    /\ NoDup (map ae_adj
                (search_adjectives_for_noun (noun_adj_index idx) query limit))
    /\ StronglySorted (fun a b => (ae_count b <= ae_count a)%Z)
         (search_adjectives_for_noun (noun_adj_index idx) query limit)
    /\ (forall x,
          In x (search_adjectives_for_noun (noun_adj_index idx) query limit) ->
          exists e, In e (pair_list idx)
                    /\ startswith (pe_noun e) (lower (strip query)) = true
                    /\ pe_adj e = ae_adj x /\ pe_count e = ae_count x
                    /\ pe_examples e = ae_examples x).
Proof.
  intros Hl.
  destruct (extract_state d) as (st & _ & Hex & _ & ND).
  exists (build_output st). split; [exact Hex|].
  set (index := noun_adj_index (build_output st)).
  destruct (search_with_positive_limit index query limit Hl)
    as (Hs & Hnd & Hsorted & _).
  assert (Hranked : NoDup (map ae_adj
                             (search_adjectives_for_noun index query limit))
                    /\ StronglySorted (fun a b => (ae_count b <= ae_count a)%Z)
                         (search_adjectives_for_noun index query limit)).
  { rewrite Hs. destruct (get index (lower (strip query))) as [adjs|] eqn:G.
    - apply get_Some_In in G.
      destruct (noun_list_ranked st _ _ ND G) as (_ & Hso & Hno).
      split; [rewrite <- firstn_map; now apply NoDup_firstn
             | now apply StronglySorted_firstn].
    - split; [rewrite <- firstn_map; now apply NoDup_firstn
             | now apply StronglySorted_firstn]. }
  destruct Hranked as [H1 H2]. repeat split; try assumption.
  intros x Hx. apply search_sound in Hx as (k & l & Hin & Hstart & Hxl).
  assert (NDk : NoDup (keys index)).
  { unfold index, build_output. cbn [noun_adj_index].
    rewrite keys_sort_lists. apply built_lists_nonempty. }
  apply In_get_Some in Hin; [|exact NDk]. apply get_lookup_list in Hin.
  rewrite <- Hin in Hxl.
  apply In_noun_adj_index in Hxl as (a & c & G & ->); [|exact ND].
  exists (pair_entry_of (pair_examples st) ((k, a), c)).
  split; [apply In_pair_list; eauto|]. repeat split. exact Hstart.
Qed.

Lemma search_on_built_index_witness :
  exists idx, extract_noun_adj_pairs precedence_doc = Ok idx
    /\ search_adjectives_for_noun (noun_adj_index idx) " HO" 5
       = [mkAdjEntry "old" 1 ["old house"]].
Proof.
  destruct (search_on_built_index precedence_doc " HO" 5) as (idx & Hex & _);
    [lia|].
  exists idx. split; [exact Hex|].
  vm_compute in Hex. injection Hex as <-. reflexivity.
Defined.

End CollocationProperties.

(* ================================================================== *)
(** ** Blank queries on the index of a document *)
(* ================================================================== *)

Module BlankQueryFacts.
Import Collocations CollocationFacts CollocationProperties Samples.

(** The extractor binds no noun to the empty list, so the noun index of a
    document holds an entry as soon as it has a key. *)
Lemma built_index_has_entries (d : Doc) (idx : CollocationIndex) :
  extract_noun_adj_pairs d = Ok idx -> noun_adj_index idx <> [] ->
  all_entries (noun_adj_index idx) <> [].
Proof.
  intros Hex Hne.
  destruct (extract_state d) as (st & _ & Hex' & _ & ND).
  rewrite Hex in Hex'. injection Hex' as ->.
  destruct (noun_adj_index (build_output st)) as [|[n l] r] eqn:E;
    [congruence|].
  assert (Hin : In (n, l) (noun_adj_index (build_output st)))
    by (rewrite E; now left).
  destruct (noun_list_ranked st n l ND Hin) as (Hl & _).
  unfold all_entries, values. simpl. destruct l; [congruence | discriminate].
Qed.

(** C10.  For the noun index of any document, when the index is not
    empty, the limit is positive, the query trims to the empty string
    and the empty string is no key: every noun key starts with the
    normalised query, the result is the first [limit] entries of the
    ranking of the whole index (one entry per adjective, the one with the
    highest count, by count descending), and the result is not the empty
    list. *)
Theorem blank_query_ranks_whole_index
    (d : Doc) (idx : CollocationIndex) (query : str) (limit : Z) :
  extract_noun_adj_pairs d = Ok idx ->
  noun_adj_index idx <> [] ->
  (0 < limit)%Z -> strip query = "" -> get (noun_adj_index idx) "" = None ->
  let index := noun_adj_index idx in
  let ranking := dedup_by_adj [] (sorted_desc ae_count (all_entries index)) in
  (forall noun adjs, In (noun, adjs) index ->
     startswith noun (lower (strip query)) = true)
  /\ search_adjectives_for_noun index query limit
     = firstn (Z.to_nat limit) ranking
  /\ NoDup (map ae_adj ranking)
  /\ StronglySorted (fun a b => (ae_count b <= ae_count a)%Z) ranking
  /\ (forall x, In x ranking -> In x (all_entries index))
  /\ (forall y, In y (all_entries index) ->
        exists x, In x ranking /\ ae_adj x = ae_adj y
                  /\ (ae_count y <= ae_count x)%Z)
  /\ search_adjectives_for_noun index query limit <> [].
Proof.
  intros Hex Hne Hl Hq Hkey index ranking.
  destruct (blank_query_ranking index query limit Hl Hq Hkey)
    as (H1 & H2 & H3 & H4 & H5 & H6).
  split.
  - intros noun adjs _. rewrite Hq. unfold startswith. now destruct noun.
  - repeat (split; [assumption|]).
    apply H6. now apply (built_index_has_entries d).
Qed.

Lemma blank_query_ranks_whole_index_witness :
  exists idx, extract_noun_adj_pairs hills_doc = Ok idx
    /\ map fst (noun_adj_index idx) = ["hill"; "house"]
    /\ search_adjectives_for_noun (noun_adj_index idx) "  " 1
       = [mkAdjEntry "old" 2 ["old hill"; "Old hill"]]
    /\ search_adjectives_for_noun (noun_adj_index idx) " " 5
       = [mkAdjEntry "old" 2 ["old hill"; "Old hill"];
          mkAdjEntry "red" 1 ["red hill"]].
Proof.
  destruct (extract_noun_adj_pairs hills_doc) as [idx|e] eqn:Hex;
    [|discriminate Hex].
  pose proof Hex as Hidx. vm_compute in Hidx. injection Hidx as Hidx.
  assert (Hne : noun_adj_index idx <> []) by (rewrite <- Hidx; discriminate).
  assert (Hkey : get (noun_adj_index idx) "" = None)
    by (rewrite <- Hidx; reflexivity).
  destruct (blank_query_ranks_whole_index hills_doc idx "  " 1 Hex Hne)
    as (_ & H1 & _); [lia | reflexivity | exact Hkey |].
  destruct (blank_query_ranks_whole_index hills_doc idx " " 5 Hex Hne)
    as (_ & H5 & _); [lia | reflexivity | exact Hkey |].
  exists idx. split; [reflexivity|].
  split; [rewrite <- Hidx; reflexivity|].
  split; [rewrite H1 | rewrite H5]; rewrite <- Hidx; reflexivity.
Defined.

End BlankQueryFacts.

(* ================================================================== *)
(** ** Further properties of the dictionary builder *)
(* ================================================================== *)

Module DictionaryProperties.
Import Dictionary DictionaryFacts Samples.

(** *** Totals *)

Lemma sum_values_set {K} `{HashableLaws K} (c : dict K Z) (k : K) (v : Z) :
  fold_right Z.add 0%Z (values (set c k v))
  = (fold_right Z.add 0 (values c) - count_of c k + v)%Z.
Proof.
  unfold count_of. induction c as [|[k' v'] r IH]; simpl; [lia|].
  destruct (key_eqb k' k); simpl; [lia|]. rewrite IH. lia.
Qed.

Lemma sum_values_incr {K} `{HashableLaws K} (c : dict K Z) (k : K) :
  fold_right Z.add 0%Z (values (incr c k))
  = (fold_right Z.add 0 (values c) + 1)%Z.
Proof. unfold incr. rewrite sum_values_set. lia. Qed.

Lemma freq_scan_token (d : Doc) (st : BuildState) (t : Token) :
  freq (scan_token d st t)
  = if included t then incr (freq st) (key_of t) else freq st.
Proof.
  destruct (included t) eqn:Hi.
  - enter_scan_token Hi. split_forms. reflexivity.
  - now rewrite scan_token_skip.
Qed.

Lemma sum_freq (d : Doc) (pre : list Token) :
  fold_right Z.add 0%Z (values (freq (scan_over d pre)))
  = Z.of_nat (List.length (filter included pre)).
Proof.
  induction pre as [|t pre IH] using rev_ind; [reflexivity|].
  rewrite scan_over_snoc, freq_scan_token, filter_app, length_app. simpl.
  destruct (included t); simpl.
  - rewrite sum_values_incr, IH. lia.
  - rewrite IH. lia.
Qed.

Lemma scan_without_content (d : Doc) (pre : list Token) :
  (forall t, In t pre -> included t = false) ->
  scan_over d pre = empty_state.
Proof.
  induction pre as [|t pre IH] using rev_ind; intros Hall; [reflexivity|].
  rewrite scan_over_snoc, IH.
  - apply scan_token_skip, Hall, in_or_app. right. now left.
  - intros x Hx. apply Hall, in_or_app. now left.
Qed.

(** Every content token has its entry, with the number of its
    occurrences. *)
Lemma entry_of_content_token (d : Doc) (t : Token) :
  In t (tokens d) -> included t = true ->
  In (entry_for d (key_of t,
                   Z.of_nat (List.length (occurrences (tokens d) (key_of t)))))
     (map (entry_for d) (most_common (freq (scan d)))).
Proof.
  intros Ht Hi. apply in_map. apply sorted_by_In. apply get_Some_In.
  unfold scan. rewrite scan_freq.
  assert (Hin : In t (occurrences (tokens d) (key_of t))).
  { apply filter_In. split; [exact Ht | now apply has_key_key_of]. }
  destruct (occurrences (tokens d) (key_of t)); [contradiction | reflexivity].
Qed.

Lemma result_counts_sum (d : Doc) :
  sum_ints (map e_count (map (entry_for d) (most_common (freq (scan d)))))
  = Z.of_nat (List.length (filter included (tokens d))).
Proof.
  rewrite map_map. simpl. rewrite sum_ints_fold_right.
  rewrite <- (sum_freq d (tokens d)). apply fold_right_add_perm.
  apply Permutation_map, sorted_by_perm.
Qed.

(** X8.  The counts of the dictionary add up to the number of content
    tokens of the document, and the dictionary is empty exactly when the
    document has no content token. *)
Theorem dictionary_counts_add_up (d : Doc) :
  exists result, build_dictionary d = Ok result
    /\ sum_ints (map e_count result)
       = Z.of_nat (List.length (filter included (tokens d)))
    /\ (result = [] <-> forall t, In t (tokens d) -> included t = false).
Proof.
  exists (map (entry_for d) (most_common (freq (scan d)))).
  split; [apply build_dictionary_eq|].
  pose proof (result_counts_sum d) as Hsum.
  split; [exact Hsum|]. split.
  - intros E t Ht. rewrite E in Hsum. simpl in Hsum.
    destruct (included t) eqn:Hi; [|reflexivity].
    assert (Hin : In t (filter included (tokens d)))
      by (apply filter_In; auto).
    destruct (filter included (tokens d)); [contradiction | discriminate].
  - intros Hall. unfold scan. now rewrite scan_without_content.
Qed.

(** *** The shape of an entry *)

Lemma length_fold_set_add (l acc : list str) :
  (List.length acc <= List.length (fold_left set_add l acc)
   <= List.length acc + List.length l)%nat.
Proof.
  revert acc. induction l as [|x l IH]; intros acc; simpl; [lia|].
  specialize (IH (set_add acc x)). unfold set_add in *.
  destruct (str_in x acc); [lia|].
  rewrite length_app in IH. simpl in IH. lia.
Qed.

Lemma length_forms_of (toks : list Token) (k : dict_key) :
  occurrences toks k <> [] ->
  (1 <= List.length (forms_of toks k) <= List.length (occurrences toks k))%nat.
Proof.
  unfold forms_of. intros Hne.
  destruct (occurrences toks k) as [|t os]; [congruence|]. simpl.
  pose proof (length_fold_set_add (map (fun t => lower (text t)) os)
                (set_add [] (lower (text t)))) as H.
  rewrite length_map in H. simpl in H. lia.
Qed.

(** X9.  Every entry of the dictionary counts at least one token and
    lists at least one surface form and at most as many as it counts. *)
Theorem dictionary_entries_are_inhabited (d : Doc) :
  exists result, build_dictionary d = Ok result
    /\ forall e, In e result ->
         (1 <= e_count e)%Z
         /\ (1 <= Z.of_nat (List.length (e_surface_forms e)) <= e_count e)%Z.
Proof.
  exists (map (entry_for d) (most_common (freq (scan d)))).
  split; [apply build_dictionary_eq|].
  intros e He. apply In_result in He as (k & c & Hin & ->).
  apply occurrences_nonempty in Hin as [Hne ->].
  pose proof (length_forms_of _ _ Hne) as Hforms.
  unfold entry_for. cbn [e_count e_surface_forms fst snd].
  unfold sorted_str. rewrite (Permutation_length (sorted_by_perm _ _)).
  lia.
Qed.

(** *** The context of a token *)

Lemma slice_around {A} (l : list A) (a i b : nat) (x : A) :
  nth_error l i = Some x -> (a <= i)%nat -> (i < b)%nat ->
  slice l a b = slice l a i ++ x :: slice l (S i) b.
Proof.
  intros Hx Ha Hb. apply nth_error_split in Hx as (l1 & l2 & -> & Hlen).
  unfold slice.
  assert (E1 : skipn a (l1 ++ x :: l2) = skipn a l1 ++ x :: l2).
  { rewrite skipn_app. now replace (a - List.length l1)%nat with 0%nat by lia. }
  assert (E2 : skipn (S i) (l1 ++ x :: l2) = l2).
  { rewrite skipn_app, (@skipn_all2 _ (S i) l1) by lia.
    now replace (S i - List.length l1)%nat with 1%nat by lia. }
  assert (E3 : List.length (skipn a l1) = (i - a)%nat)
    by (rewrite length_skipn; lia).
  rewrite E1, E2, !firstn_app, E3.
  rewrite (@firstn_all2 _ (b - a) (skipn a l1)) by lia.
  rewrite (@firstn_all2 _ (i - a) (skipn a l1)) by lia.
  replace (i - a - (i - a))%nat with 0%nat by lia.
  replace (b - a - (i - a))%nat with (S (b - S i)) by lia.
  simpl. now rewrite app_nil_r.
Qed.

Lemma length_slice {A} (l : list A) (a b : nat) :
  List.length (slice l a b) = Nat.min (b - a) (List.length l - a).
Proof. unfold slice. now rewrite length_firstn, length_skipn. Qed.

Lemma find_token_of_object (d : Doc) (t : Token) (i : nat) :
  distinct_objects d -> nth_error (tokens d) i = Some t ->
  find_token t (tokens d) 0 = Some i.
Proof.
  intros ND Hi. rewrite find_token_first_index.
  rewrite (first_index_unique (fun x => is_ x t) (tokens d) i t); auto.
  - unfold is_. apply Nat.eqb_refl.
  - intros j y Hj Hy. unfold is_. apply Nat.eqb_neq. intros E.
    unfold distinct_objects in ND. rewrite NoDup_nth_error in ND.
    assert (j = i); [|lia]. apply ND.
    + rewrite length_map. apply nth_error_Some. congruence.
    + rewrite !nth_error_map, Hi, Hy. simpl. now rewrite E.
Qed.

(** X10.  For a token object at flat position [i] of a document that
    holds every object once, the context with window [w] is the surface
    text of the token itself between the texts of the [min i w] tokens
    before it and of the [min (len - 1 - i) w] tokens after it, joined
    by single spaces. *)
Theorem context_surrounds_the_token (d : Doc) (t : Token) (i w : nat) :
  distinct_objects d -> nth_error (tokens d) i = Some t ->
  let before := slice (tokens d) (i - w) i in
  let after :=
    slice (tokens d) (S i) (Nat.min (List.length (tokens d)) (i + w + 1)) in
  _extract_context d t w
  = join " " (map text before ++ text t :: map text after)
  /\ List.length before = Nat.min i w
  /\ List.length after = Nat.min (List.length (tokens d) - 1 - i) w.
Proof.
  intros ND Hi before after.
  assert (Hlt : (i < List.length (tokens d))%nat)
    by (apply nth_error_Some; congruence).
  split; [|split].
  - unfold _extract_context. rewrite (find_token_of_object d t i ND Hi).
    simpl Nat.max.
    rewrite (slice_around (tokens d) (i - w) i _ t Hi) by lia.
    rewrite map_app. reflexivity.
  - subst before. rewrite length_slice. lia.
  - subst after. rewrite length_slice. lia.
Qed.

Lemma context_surrounds_the_token_witness :
  distinct_objects dictionary_doc
  /\ _extract_context dictionary_doc w_houses 1 = ", houses red".
Proof.
  assert (ND : distinct_objects dictionary_doc).
  { unfold distinct_objects. simpl. repeat constructor; simpl; intuition lia. }
  split; [exact ND|].
  destruct (context_surrounds_the_token dictionary_doc w_houses 3 1 ND eq_refl)
    as (-> & _). reflexivity.
Defined.

(** X11.  A token that is no object of the document (no token of the flat
    view has its address) gets its own surface text as context. *)
Theorem context_of_a_foreign_token (d : Doc) (t : Token) (w : nat) :
  (forall x, In x (tokens d) -> addr x <> addr t) ->
  _extract_context d t w = text t.
Proof.
  intros Hfor. unfold _extract_context. rewrite find_token_first_index.
  replace (first_index (fun x => is_ x t) (tokens d)) with (@None nat);
    [reflexivity|].
  symmetry. apply first_index_None.
  induction (tokens d) as [|y l IH]; simpl; [reflexivity|].
  unfold is_ at 1.
  destruct (Nat.eqb_spec (addr y) (addr t)) as [E|N].
  - exfalso. apply (Hfor y); [now left | exact E].
  - apply IH. intros x Hx. apply Hfor. now right.
Qed.

Lemma context_of_a_foreign_token_witness :
  _extract_context punct_doc w_red 6 = "red".
Proof.
  apply context_of_a_foreign_token.
  intros x [<-|[<-|[]]]; discriminate.
Defined.



End DictionaryProperties.

(* ================================================================== *)
(** ** Further properties of the statistics computer *)
(* ================================================================== *)

Module StatisticsProperties.
Import Statistics StatisticsFacts DictionaryProperties Samples.

(** *** Counters fed with a list *)

Lemma get_permuted {K V} `{HashableLaws K} (c c' : dict K V) (k : K) :
  NoDup (keys c) -> Permutation c c' -> get c' k = get c k.
Proof.
  intros ND Hp.
  assert (ND' : NoDup (keys c')).
  { eapply Permutation_NoDup; [|exact ND]. now apply Permutation_map. }
  destruct (get c k) as [v|] eqn:G.
  - apply In_get_Some; [exact ND'|].
    eapply Permutation_in; [exact Hp|]. now apply get_Some_In.
  - destruct (get c' k) as [v|] eqn:G'; [|reflexivity].
    apply get_Some_In in G'.
    apply (Permutation_in _ (Permutation_sym Hp)) in G'.
    apply In_get_Some in G'; [congruence | exact ND].
Qed.

Lemma sum_fold_incr (l : list str) :
  fold_right Z.add 0%Z (values (fold_left incr l ([] : dict str Z)))
  = Z.of_nat (List.length l).
Proof.
  induction l as [|x l IH] using rev_ind; [reflexivity|].
  rewrite fold_left_app, length_app. simpl.
  rewrite sum_values_incr, IH. lia.
Qed.

Lemma count_in_counter (l : list str) (k : str) :
  count_of (fold_left incr l ([] : dict str Z)) k
  = Z.of_nat (List.length (filter (String.eqb k) l)).
Proof.
  unfold count_of. rewrite get_fold_incr. simpl.
  change (@key_eqb string Hashable_str k) with (String.eqb k).
  now destruct (List.length (filter (String.eqb k) l)).
Qed.

Lemma filter_lemma_count (p l : str) (toks : list Token) :
  List.length (filter (String.eqb l) (map lemma_of (with_pos p toks)))
  = lemma_count p l toks.
Proof.
  unfold lemma_count. generalize (with_pos p toks) as ts.
  induction ts as [|t ts IH]; simpl; [reflexivity|].
  rewrite (String.eqb_sym l). destruct (String.eqb (lemma_of t) l); simpl; auto.
Qed.

Lemma StronglySorted_app_inv {A} (R : A -> A -> Prop) (l1 l2 : list A) :
  StronglySorted R (l1 ++ l2) ->
  forall x y, In x l1 -> In y l2 -> R x y.
Proof.
  induction l1 as [|a l1 IH]; simpl; intros Hs x y Hx Hy; [contradiction|].
  inversion Hs as [|? ? Hs' Hall]; subst.
  destruct Hx as [->|Hx]; [|eauto].
  rewrite Forall_forall in Hall. apply Hall, in_or_app. now right.
Qed.

(** The first [top_n] items of a counter of lemmas form a top list. *)
Lemma most_common_n_top_list (top_n : Z) (p : str) (toks : list Token) :
  top_list_of top_n p toks
    (map (fun lc => mkLemmaCount (fst lc) (snd lc))
       (most_common_n top_n
          (fold_left incr (map lemma_of (with_pos p toks)) []))).
Proof.
  set (c := fold_left incr (map lemma_of (with_pos p toks)) ([] : dict str Z)).
  assert (NDc : NoDup (keys c)) by (apply NoDup_keys_fold_incr; constructor).
  assert (Hperm : Permutation (most_common c) c) by apply sorted_by_perm.
  assert (Hget : forall k v, In (k, v) (most_common c) ->
                   v = Z.of_nat (lemma_count p k toks) /\ (1 <= v)%Z).
  { intros k v Hin. apply (Permutation_in _ Hperm) in Hin.
    apply In_get_Some in Hin; [|exact NDc].
    unfold c in Hin. rewrite get_fold_incr in Hin.
    change (@key_eqb string Hashable_str k) with (String.eqb k) in Hin.
    rewrite filter_lemma_count in Hin. simpl in Hin.
    destruct (lemma_count p k toks); [discriminate|].
    injection Hin as <-. split; lia. }
  assert (Hsorted : StronglySorted (fun a b => (snd b <= snd a)%Z)
                      (most_common c)) by apply sorted_desc_sorted.
  assert (NDm : NoDup (map fst (most_common c))).
  { eapply Permutation_NoDup; [|exact NDc]. symmetry.
    now apply Permutation_map. }
  unfold most_common_n. destruct (Z.leb_spec top_n 0) as [Hn|Hn].
  - simpl. repeat split; try constructor; try contradiction; simpl; lia.
  - set (n := Z.to_nat top_n).
    rewrite <- (firstn_skipn n (most_common c)) in Hsorted, NDm.
    split; [|split; [|split; [|split]]].
    + rewrite map_map. simpl. rewrite map_app in NDm.
      now apply NoDup_app_remove_r in NDm.
    + apply DictionaryFacts.StronglySorted_map.
      apply CollocationProperties.StronglySorted_firstn.
      apply sorted_desc_sorted.
    + rewrite length_map, length_firstn. lia.
    + intros x Hx. apply in_map_iff in Hx as ([k v] & <- & Hin).
      apply CollocationProperties.In_firstn in Hin. simpl. auto.
    + intros lem Hocc Hnot.
      assert (Hin : In (lem, Z.of_nat (lemma_count p lem toks)) (most_common c)).
      { apply (Permutation_in _ (Permutation_sym Hperm)).
        apply get_Some_In. unfold c. rewrite get_fold_incr.
        change (@key_eqb string Hashable_str lem) with (String.eqb lem).
        rewrite filter_lemma_count. simpl.
        destruct (lemma_count p lem toks); [lia | reflexivity]. }
      rewrite <- (firstn_skipn n (most_common c)) in Hin.
      apply in_app_or in Hin as [Hin|Hin].
      * exfalso. apply Hnot. rewrite map_map. simpl.
        change lem with (fst (lem, Z.of_nat (lemma_count p lem toks))).
        now apply in_map.
      * split.
        -- rewrite length_map, length_firstn.
           assert (n < List.length (most_common c))%nat; [|lia].
           destruct (Nat.lt_ge_cases n (List.length (most_common c)));
             [assumption|].
           rewrite skipn_all2 in Hin by assumption. contradiction.
        -- intros x Hx. apply in_map_iff in Hx as ([k v] & <- & Hk). simpl.
           exact (StronglySorted_app_inv _ _ _ Hsorted _ _ Hk Hin).
Qed.

(** *** The counters of the loop *)

Lemma with_pos_snoc (p : str) (pre : list Token) (t : Token) :
  with_pos p (pre ++ [t])
  = with_pos p pre ++ (if String.eqb (pos t) p then [t] else []).
Proof. unfold with_pos. now rewrite filter_app. Qed.

Lemma content_pos_is_word (t : Token) :
  str_in (pos t) CONTENT_POS = true -> str_in (pos t) ["PUNCT"; "SYM"] = false.
Proof.
  intros Hc. apply str_in_In in Hc. apply str_in_false. simpl in *.
  intros [E|[E|[]]]; rewrite <- E in Hc; intuition discriminate.
Qed.

Lemma scan_counters (pre : list Token) :
  exists st, for_each scan_token pre initial_state = Ok st
    /\ pos_counter st = fold_left incr (map pos pre) []
    /\ (forall p, In p CONTENT_POS ->
          get (lemma_counters st) p
          = Some (fold_left incr (map lemma_of (with_pos p pre)) [])).
Proof.
  induction pre as [|t pre IH] using rev_ind.
  - exists initial_state. repeat split.
    intros p Hp. simpl in Hp.
    repeat (destruct Hp as [<-|Hp]; [reflexivity|]). contradiction.
  - destruct IH as (st & Hrun & Hpos & Hlem).
    rewrite for_each_snoc, Hrun, map_app, fold_left_app. cbn [bind].
    unfold scan_token.
    assert (Hother : str_in (pos t) CONTENT_POS = false ->
              forall p, In p CONTENT_POS ->
                get (lemma_counters st) p
                = Some (fold_left incr
                          (map lemma_of (with_pos p (pre ++ [t]))) [])).
    { intros Hc p Hp. rewrite with_pos_snoc.
      destruct (String.eqb_spec (pos t) p) as [E|N].
      - apply str_in_false in Hc. subst p. contradiction.
      - rewrite app_nil_r. auto. }
    destruct (str_in (pos t) ["PUNCT"; "SYM"]) eqn:Ep.
    + eexists. split; [reflexivity|]. cbn [pos_counter lemma_counters].
      split; [now rewrite Hpos|]. apply Hother.
      destruct (str_in (pos t) CONTENT_POS) eqn:Ec; [|reflexivity].
      apply content_pos_is_word in Ec. congruence.
    + destruct (str_in (pos t) CONTENT_POS) eqn:Ec.
      * unfold subscript. rewrite (Hlem (pos t)) by now apply str_in_In.
        cbn [bind]. eexists. split; [reflexivity|].
        cbn [pos_counter lemma_counters]. split; [now rewrite Hpos|].
        intros p Hp. rewrite with_pos_snoc.
        destruct (String.eqb_spec (pos t) p) as [E|N].
        -- subst p. rewrite get_set_same, map_app, fold_left_app. reflexivity.
        -- rewrite get_set_other by exact N. rewrite app_nil_r. auto.
      * eexists. split; [reflexivity|]. cbn [pos_counter lemma_counters].
        split; [now rewrite Hpos | now apply Hother].
Qed.

Lemma top_eq (st : ScanState) (top_n : Z) (p : str) (c : dict str Z) :
  get (lemma_counters st) p = Some c ->
  top st top_n p
  = Ok (map (fun lc => mkLemmaCount (fst lc) (snd lc)) (most_common_n top_n c)).
Proof. unfold top, subscript. now intros ->. Qed.

Lemma words_and_marks (toks : list Token) :
  (List.length (filter is_word toks) + List.length (with_pos "PUNCT" toks)
   + List.length (with_pos "SYM" toks))%nat
  = List.length toks.
Proof.
  unfold with_pos. induction toks as [|t toks IH]; [reflexivity|].
  cbn [filter].
  replace (is_word t)
    with (negb (String.eqb (pos t) "PUNCT" || String.eqb (pos t) "SYM"))
    by (unfold is_word, str_in; simpl; now rewrite orb_false_r).
  destruct (String.eqb_spec (pos t) "PUNCT") as [E1|N1];
    destruct (String.eqb_spec (pos t) "SYM") as [E2|N2];
    cbn [negb orb List.length]; try lia.
  rewrite E1 in E2. discriminate.
Qed.

Section WithFloats.
Variable float : Type.
Variable truediv : Z -> Z -> float.
Variable mul_int : float -> Z -> float.
Variable round_to : float -> Z -> float.

(** The report in terms of the document. *)
Lemma report_eq (d : Doc) (top_n : Z) :
  exists r, compute_statistics float truediv mul_int round_to d top_n = Ok r
    /\ total_tokens float r = len (tokens d)
    /\ total_words float r = Z.of_nat (List.length (words d))
    /\ unique_lemmas float r = Z.of_nat (List.length (distinct_lemmas d))
    /\ pos_distribution float r
       = most_common (fold_left incr (map pos (tokens d)) [])
    /\ (forall p, In p CONTENT_POS ->
          top_list_of top_n p (tokens d)
            (if String.eqb p "NOUN" then top_nouns float r
             else if String.eqb p "ADJ" then top_adj float r
             else if String.eqb p "VERB" then top_verbs float r
             else if String.eqb p "ADV" then top_adv float r
             else top_propn float r)).
Proof.
  destruct (scan_spec (tokens d)) as (st & Hrun & Hw & _ & Hl & _).
  destruct (scan_counters (tokens d)) as (st' & Hrun' & Hpos & Hlem).
  assert (st' = st) by congruence. subst st'.
  unfold compute_statistics. rewrite Hrun. cbn [bind].
  rewrite (top_eq st top_n "NOUN" _ (Hlem "NOUN" ltac:(simpl; tauto))).
  rewrite (top_eq st top_n "ADJ" _ (Hlem "ADJ" ltac:(simpl; tauto))).
  rewrite (top_eq st top_n "VERB" _ (Hlem "VERB" ltac:(simpl; tauto))).
  rewrite (top_eq st top_n "ADV" _ (Hlem "ADV" ltac:(simpl; tauto))).
  rewrite (top_eq st top_n "PROPN" _ (Hlem "PROPN" ltac:(simpl; tauto))).
  cbn [bind]. eexists. split; [reflexivity|].
  cbn [total_tokens total_words unique_lemmas pos_distribution
       top_nouns top_adj top_verbs top_adv top_propn].
  split; [reflexivity|]. split; [exact Hw|]. split.
  { unfold len. rewrite Hl, length_fold_incr. reflexivity. }
  split; [now rewrite Hpos|].
  intros p Hp. simpl in Hp.
  repeat (destruct Hp as [<-|Hp];
          [cbn [String.eqb Ascii.eqb Bool.eqb]; apply most_common_n_top_list|]).
  contradiction.
Qed.
End WithFloats.

Lemma length_with_pos (p : str) (toks : list Token) :
  List.length (filter (String.eqb p) (map pos toks))
  = List.length (with_pos p toks).
Proof.
  unfold with_pos. induction toks as [|t toks IH]; simpl; [reflexivity|].
  rewrite (String.eqb_sym p). destruct (String.eqb (pos t) p); simpl; auto.
Qed.

Section ReportProperties.
Variable float : Type.
Variable truediv : Z -> Z -> float.
Variable mul_int : float -> Z -> float.
Variable round_to : float -> Z -> float.

(** X12.  [pos_distribution] maps every POS tag that occurs in the token
    stream, and no other, to the number of tokens that carry it, PUNCT
    and SYM included; its tags are pairwise distinct, it is ordered by
    count, descending, and its counts add up to [total_tokens], the
    length of the stream. *)
Theorem pos_distribution_counts_every_token (d : Doc) (top_n : Z) :
  exists r, compute_statistics float truediv mul_int round_to d top_n = Ok r
    /\ total_tokens float r = Z.of_nat (List.length (tokens d))
    /\ NoDup (keys (pos_distribution float r))
    /\ StronglySorted (fun a b => (snd b <= snd a)%Z) (pos_distribution float r)
    /\ (forall p, count_of (pos_distribution float r) p
                  = Z.of_nat (List.length (with_pos p (tokens d))))
    /\ (forall p, In p (keys (pos_distribution float r))
                  <-> exists t, In t (tokens d) /\ pos t = p)
    /\ sum_ints (values (pos_distribution float r)) = total_tokens float r.
Proof.
  destruct (report_eq float truediv mul_int round_to d top_n)
    as (r & Hr & Htok & _ & _ & Hpos & _).
  exists r. split; [exact Hr|]. rewrite Hpos, Htok.
  set (c := fold_left incr (map pos (tokens d)) ([] : dict str Z)).
  assert (NDc : NoDup (keys c)) by (apply NoDup_keys_fold_incr; constructor).
  assert (Hperm : Permutation (most_common c) c) by apply sorted_by_perm.
  assert (Hcount : forall p, count_of (most_common c) p
                     = Z.of_nat (List.length (with_pos p (tokens d)))).
  { intros p. unfold count_of.
    rewrite (get_permuted c (most_common c) p NDc (Permutation_sym Hperm)).
    fold (count_of c p). unfold c.
    now rewrite count_in_counter, length_with_pos. }
  split; [reflexivity|]. split; [|split; [|split; [|split]]].
  - eapply Permutation_NoDup; [|exact NDc]. symmetry.
    now apply Permutation_map.
  - apply sorted_desc_sorted.
  - exact Hcount.
  - intros p. rewrite <- mem_true. unfold mem.
    rewrite (get_permuted c (most_common c) p NDc (Permutation_sym Hperm)).
    unfold c. rewrite get_fold_incr.
    change (@key_eqb string Hashable_str p) with (String.eqb p).
    rewrite length_with_pos. unfold with_pos. split.
    + destruct (filter _ (tokens d)) as [|t ts] eqn:E; [discriminate|].
      intros _. exists t.
      assert (Hin : In t (filter (fun t => String.eqb (pos t) p) (tokens d)))
        by (rewrite E; now left).
      apply filter_In in Hin as [Hin Hp]. apply String.eqb_eq in Hp. auto.
    + intros (t & Hin & Hp).
      assert (Hf : In t (filter (fun t => String.eqb (pos t) p) (tokens d))).
      { apply filter_In. split; [exact Hin | now apply String.eqb_eq]. }
      destruct (filter _ (tokens d)); [contradiction | reflexivity].
  - rewrite sum_ints_fold_right.
    rewrite (fold_right_add_perm _ (values c))
      by now apply Permutation_map.
    unfold c, len. now rewrite sum_fold_incr, length_map.
Qed.

(** X13.  The three totals are ordered, [0 <= unique_lemmas <= total_words
    <= total_tokens], and [total_words] is [total_tokens] less the counts
    that [pos_distribution] gives for PUNCT and SYM. *)
Theorem totals_are_ordered (d : Doc) (top_n : Z) :
  exists r, compute_statistics float truediv mul_int round_to d top_n = Ok r
    /\ (0 <= unique_lemmas float r <= total_words float r)%Z
    /\ (total_words float r <= total_tokens float r)%Z
    /\ total_words float r
       = (total_tokens float r
          - count_of (pos_distribution float r) "PUNCT"
          - count_of (pos_distribution float r) "SYM")%Z.
Proof.
  destruct (report_eq float truediv mul_int round_to d top_n)
    as (r & Hr & Htok & Hw & Hu & Hpos & _).
  exists r. split; [exact Hr|]. rewrite Hpos, Htok, Hw, Hu.
  set (c := fold_left incr (map pos (tokens d)) ([] : dict str Z)).
  assert (NDc : NoDup (keys c)) by (apply NoDup_keys_fold_incr; constructor).
  assert (Hcount : forall p, count_of (most_common c) p
                     = Z.of_nat (List.length (with_pos p (tokens d)))).
  { intros p. unfold count_of.
    rewrite (get_permuted c (most_common c) p NDc
               (Permutation_sym (sorted_by_perm _ _))).
    fold (count_of c p). unfold c.
    now rewrite count_in_counter, length_with_pos. }
  rewrite !Hcount. unfold len.
  pose proof (words_and_marks (tokens d)) as Hsplit. fold (words d) in Hsplit.
  assert (Huniq : (List.length (distinct_lemmas d)
                   <= List.length (words d))%nat).
  { unfold distinct_lemmas.
    rewrite <- (length_map lemma_of (words d)).
    apply NoDup_incl_length; [apply NoDup_nodup|].
    intros x Hx. now apply nodup_In in Hx. }
  repeat split; lia.
Qed.

(** X14.  Each of the five top lists ([top_nouns], [top_adj], [top_verbs],
    [top_adv], [top_propn]) is the top-[top_n] list of the lemmas of its
    POS: lemmas listed once, by count descending, at most [top_n] entries
    (none for [top_n <= 0]), each with the number of tokens of that POS
    and lemma; a lemma of the POS is left out only when the list is full,
    and then no listed count is smaller than its own. *)
Theorem top_lists_rank_the_lemmas (d : Doc) (top_n : Z) :
  exists r, compute_statistics float truediv mul_int round_to d top_n = Ok r
    /\ top_list_of top_n "NOUN" (tokens d) (top_nouns float r)
    /\ top_list_of top_n "ADJ" (tokens d) (top_adj float r)
    /\ top_list_of top_n "VERB" (tokens d) (top_verbs float r)
    /\ top_list_of top_n "ADV" (tokens d) (top_adv float r)
    /\ top_list_of top_n "PROPN" (tokens d) (top_propn float r).
Proof.
  destruct (report_eq float truediv mul_int round_to d top_n)
    as (r & Hr & _ & _ & _ & _ & Htop).
  exists r. split; [exact Hr|].
  split; [|split; [|split; [|split]]].
  - apply (Htop "NOUN"). simpl. tauto.
  - apply (Htop "ADJ"). simpl. tauto.
  - apply (Htop "VERB"). simpl. tauto.
  - apply (Htop "ADV"). simpl. tauto.
  - apply (Htop "PROPN"). simpl. tauto.
Qed.
End ReportProperties.



End StatisticsProperties.

(* ================================================================== *)
(** ** The pipeline: how the three results fit together *)
(* ================================================================== *)

Module PipelineProperties.
Import Pipeline Dictionary Statistics Collocations.
Import DictionaryFacts DictionaryProperties StatisticsProperties.
Import CollocationFacts CollocationProperties Samples.

Lemma included_is_word (t : Token) : included t = true -> is_word t = true.
Proof.
  unfold included, is_word. intros Hi. apply negb_true_iff, str_in_false.
  apply str_in_In in Hi. simpl in *.
  intros [E|[E|[]]]; rewrite <- E in Hi; intuition discriminate.
Qed.

Lemma filter_length_le {A} (f g : A -> bool) (l : list A) :
  (forall x, f x = true -> g x = true) ->
  (List.length (filter f l) <= List.length (filter g l))%nat.
Proof.
  intros Himp. induction l as [|x l IH]; simpl; [lia|].
  destruct (f x) eqn:Ef.
  - rewrite (Himp x Ef). simpl. lia.
  - destruct (g x); simpl; lia.
Qed.

Lemma content_pos_included (p : str) :
  In p CONTENT_POS -> In p INCLUDE_POS.
Proof. simpl. intuition. Qed.

(** For a POS of the dictionary, the occurrences of a key are the tokens
    of that POS with that lemma. *)
Lemma occurrences_lemma_count (toks : list Token) (l p : str) :
  In p INCLUDE_POS ->
  List.length (occurrences toks (l, p)) = lemma_count p l toks.
Proof.
  intros Hp. unfold occurrences, lemma_count, with_pos.
  induction toks as [|t toks IH]; simpl; [reflexivity|].
  replace (has_key (l, p) t)
    with (String.eqb (pos t) p && String.eqb (lemma_of t) l).
  - destruct (String.eqb (pos t) p); simpl; [|exact IH].
    destruct (String.eqb (lemma_of t) l); simpl; auto.
  - unfold has_key, included, pair_eqb, key_of. cbn [fst snd].
    rewrite (String.eqb_sym l), (String.eqb_sym p).
    destruct (String.eqb_spec (pos t) p) as [->|N].
    + apply str_in_In in Hp. rewrite Hp. simpl. now rewrite andb_true_r.
    + simpl. now rewrite !andb_false_r.
Qed.

Lemma lemma_count_token (p l : str) (toks : list Token) :
  (1 <= lemma_count p l toks)%nat ->
  exists t, In t toks /\ pos t = p /\ lemma_of t = l.
Proof.
  unfold lemma_count, with_pos. intros H.
  destruct (filter _ (filter _ toks)) as [|t ts] eqn:E; [simpl in H; lia|].
  assert (Hin : In t (filter (fun t => String.eqb (lemma_of t) l)
                        (filter (fun t => String.eqb (pos t) p) toks)))
    by (rewrite E; now left).
  apply filter_In in Hin as [Hin Hl]. apply filter_In in Hin as [Hin Hp].
  apply String.eqb_eq in Hl, Hp. eauto.
Qed.

Section WithCollaborators.
Variable float : Type.
Variable truediv : Z -> Z -> float.
Variable mul_int : float -> Z -> float.
Variable round_to : float -> Z -> float.
Variable process_text : str -> Doc.
Variable elapsed : float.

(** The analysis of a text, part by part. *)
Lemma analyze_text_eq (text : str) (top_n : Z) :
  exists r st,
    compute_statistics float truediv mul_int round_to (process_text text) top_n
    = Ok r
    /\ pass2 (process_text text) (pass1 (process_text text) empty_state) = Ok st
    /\ window_extends
         (pair_counter (pass1 (process_text text) empty_state))
         (pair_counter st)
    /\ NoDup (keys (pair_counter st))
    /\ analyze_text float truediv mul_int round_to process_text elapsed
         text top_n
       = Ok (mkAnalysis float
               (mkMeta float (Z.of_nat (String.length text)) elapsed)
               (map (entry_for (process_text text))
                  (most_common (freq (scan (process_text text)))))
               r (build_output st)).
Proof.
  destruct (report_eq float truediv mul_int round_to (process_text text) top_n)
    as (r & Hr & _).
  destruct (extract_state (process_text text)) as (st & Hrun & Hex & Hext & ND).
  exists r, st. repeat (split; [assumption|]).
  unfold analyze_text. rewrite build_dictionary_eq. cbn [bind].
  rewrite Hr. cbn [bind]. rewrite Hex. reflexivity.
Qed.

(** X15.  [analyze_text] returns for every text (given that the NLP
    producer does), with [char_count] the length of the text, and its
    dictionary and statistics agree: the dictionary counts add up to at
    most [total_words], and every entry (lemma, count) of a top list has
    a dictionary entry with that lemma, the POS of the list and the same
    count. *)
Theorem analysis_parts_agree (text : str) (top_n : Z) :
  exists a,
    analyze_text float truediv mul_int round_to process_text elapsed
      text top_n = Ok a
    /\ char_count float (meta float a) = Z.of_nat (String.length text)
    /\ (sum_ints (map e_count (dictionary float a))
        <= total_words float (statistics float a))%Z
    /\ (forall p l x, In (p, l) (tops_of (statistics float a)) -> In x l ->
          exists e, In e (dictionary float a)
                    /\ e_lemma e = lc_lemma x /\ e_pos e = p
                    /\ e_count e = lc_count x).
Proof.
  set (d := process_text text).
  destruct (analyze_text_eq text top_n) as (r & st & Hr & _ & _ & _ & Ha).
  eexists. split; [exact Ha|].
  cbn [meta char_count dictionary statistics]. fold d.
  destruct (report_eq float truediv mul_int round_to d top_n)
    as (r' & Hr' & _ & Hw & _ & _ & Htop).
  assert (r' = r) by (fold d in Hr; congruence). subst r'.
  split; [reflexivity|]. split.
  - rewrite result_counts_sum, Hw. unfold words.
    apply inj_le, filter_length_le, included_is_word.
  - intros p l x Hin Hx.
    assert (Hp : In p CONTENT_POS /\ top_list_of top_n p (tokens d) l).
    { unfold tops_of in Hin. simpl in Hin.
      repeat (destruct Hin as [[= <- <-]|Hin];
              [split; [simpl; tauto|];
               match goal with
               | |- top_list_of _ ?q _ _ =>
                   exact (Htop q ltac:(simpl; tauto))
               end|]).
      contradiction. }
    destruct Hp as [Hp (_ & _ & _ & Hcount & _)].
    destruct (Hcount x Hx) as [Hc Hpos].
    destruct (lemma_count_token p (lc_lemma x) (tokens d))
      as (t & Ht & Hpt & Hlt); [lia|].
    assert (Hi : included t = true).
    { unfold included. apply str_in_In. rewrite Hpt.
      now apply content_pos_included. }
    pose proof (entry_of_content_token d t Ht Hi) as He.
    eexists. split; [exact He|].
    unfold entry_for, key_of. cbn [e_lemma e_pos e_count fst snd].
    rewrite Hlt, Hpt. repeat split.
    rewrite Hc. f_equal. apply occurrences_lemma_count.
    now apply content_pos_included.
Qed.
End WithCollaborators.

(** Where a syntactic recording comes from. *)
Lemma syntactic_origin (d : Doc) (p : str * str) :
  (1 <= pass1_count d p)%nat ->
  exists s h t, In s (sents d) /\ In h (sent_tokens s) /\ In t (sent_tokens s)
    /\ is_noun h = true /\ In (pos t) ["ADJ"; "VERB"]
    /\ p = (lemma_of h, lemma_of t).
Proof.
  unfold pass1_count. intros H.
  destruct (filter (pair_eqb p) (pass1_recordings d)) as [|q qs] eqn:E;
    [simpl in H; lia|].
  assert (Hq : In q (filter (pair_eqb p) (pass1_recordings d)))
    by (rewrite E; now left).
  apply filter_In in Hq as [Hq Hpq].
  apply (key_eqb_eq p q) in Hpq. subst q.
  unfold pass1_recordings in Hq. apply in_flat_map in Hq as (s & Hs & Hq).
  unfold recordings_of_sent in Hq. apply in_flat_map in Hq as (t & Ht & Hq).
  destruct (syntactic_pair s t) as [q|] eqn:Esyn; [|contradiction].
  destruct Hq as [->|[]].
  unfold syntactic_pair in Esyn.
  destruct (rel t) as [r|]; [|discriminate].
  destruct (head_of s t) as [h|] eqn:Eh; [|discriminate].
  destruct (String.eqb r "amod"); [|discriminate]. cbn [andb] in Esyn.
  destruct (String.eqb (pos t) "ADJ" || String.eqb (pos t) "VERB") eqn:Et;
    [|discriminate].
  cbn [andb] in Esyn.
  destruct (String.eqb (pos h) "NOUN" || String.eqb (pos h) "PROPN") eqn:Ehp;
    [|discriminate].
  injection Esyn as <-.
  exists s, h, t. split; [exact Hs|]. split.
  { unfold head_of in Eh. destruct (head_id t); [|discriminate].
    apply find_some in Eh as [Hin _]. now apply in_rev in Hin. }
  split; [exact Ht|]. split.
  { unfold is_noun, str_in. simpl. now rewrite orb_false_r. }
  split; [|reflexivity].
  apply orb_true_iff in Et as [Et|Et]; apply String.eqb_eq in Et;
    rewrite Et; simpl; tauto.
Qed.

Lemma entry_with_lemma (d : Doc) (t : Token) :
  In t (tokens d) -> included t = true ->
  exists e, In e (map (entry_for d) (most_common (freq (scan d))))
            /\ e_lemma e = lemma_of t /\ e_pos e = pos t.
Proof.
  intros Ht Hi. eexists. split; [exact (entry_of_content_token d t Ht Hi)|].
  split; reflexivity.
Qed.

Section Collocates.
Variable float : Type.
Variable truediv : Z -> Z -> float.
Variable mul_int : float -> Z -> float.
Variable round_to : float -> Z -> float.
Variable process_text : str -> Doc.
Variable elapsed : float.

(** X16.  When the flat view of the produced document lists the tokens of
    its sentences, the words of every collocation are in the dictionary:
    for each entry of the pair list the dictionary has an entry with the
    noun lemma and POS NOUN or PROPN, and an entry with the adjective
    lemma and POS ADJ or VERB. *)
Theorem collocates_are_in_the_dictionary (text : str) (top_n : Z) :
  flat_view (process_text text) ->
  exists a,
    analyze_text float truediv mul_int round_to process_text elapsed
      text top_n = Ok a
    /\ forall e, In e (pair_list (collocations float a)) ->
         (exists en, In en (dictionary float a)
                     /\ e_lemma en = pe_noun e
                     /\ In (e_pos en) ["NOUN"; "PROPN"])
         /\ (exists ea, In ea (dictionary float a)
                        /\ e_lemma ea = pe_adj e
                        /\ In (e_pos ea) ["ADJ"; "VERB"]).
Proof.
  intros Hflat. set (d := process_text text) in *.
  destruct (analyze_text_eq float truediv mul_int round_to process_text
              elapsed text top_n)
    as (r & st & _ & Hrun & Hext & ND & Ha).
  eexists. split; [exact Ha|].
  cbn [collocations dictionary]. fold d. fold d in Hrun, Hext.
  intros e He.
  assert (Hmem : mem (pair_counter st) (pair_of e) = true).
  { apply pair_list_mem; [exact ND|]. eauto. }
  apply (final_pairs d st Hrun Hext) in Hmem.
  assert (Htoks : exists h t, In h (tokens d) /\ In t (tokens d)
            /\ is_noun h = true /\ In (pos t) ["ADJ"; "VERB"]
            /\ pair_of e = (lemma_of h, lemma_of t)).
  { destruct Hmem as [Hsyn|(i & j & n & a & Hi & Hj & _ & _ & _ & Hn & Hp & E)].
    - apply syntactic_origin in Hsyn as (s & h & t & Hs & Hh & Ht & Hn & Hp & E).
      exists h, t. unfold flat_view in Hflat. rewrite Hflat.
      repeat split; try assumption; apply in_flat_map; eauto.
    - exists n, a. repeat split; try assumption.
      + eapply nth_error_In; eauto.
      + eapply nth_error_In; eauto.
      + rewrite Hp. simpl. tauto. }
  destruct Htoks as (h & t & Hh & Ht & Hn & Hp & E).
  unfold pair_of in E. injection E as En Ea.
  split.
  - destruct (entry_with_lemma d h Hh) as (en & Hin & Hl & Hpos).
    + unfold included. apply str_in_In. unfold is_noun in Hn.
      apply str_in_In in Hn. simpl in *. intuition.
    + exists en. split; [exact Hin|]. split; [congruence|].
      rewrite Hpos. unfold is_noun in Hn. now apply str_in_In.
  - destruct (entry_with_lemma d t Ht) as (ea & Hin & Hl & Hpos).
    + unfold included. apply str_in_In. simpl in *. intuition.
    + exists ea. split; [exact Hin|]. split; [congruence|].
      now rewrite Hpos.
Qed.
End Collocates.

Lemma collocates_are_in_the_dictionary_witness :
  flat_view precedence_doc
  /\ exists a,
       analyze_text fexpr FDiv FMul FRound (fun _ => precedence_doc)
         (FDiv 1 100) "old house. House Old" 100 = Ok a
       /\ map pair_of (pair_list (collocations fexpr a)) = [("house", "old")]
       /\ map entry_key (dictionary fexpr a)
          = [("old", "ADJ"); ("house", "NOUN")].
Proof.
  assert (Hflat : flat_view precedence_doc) by reflexivity.
  split; [exact Hflat|].
  destruct (collocates_are_in_the_dictionary fexpr FDiv FMul FRound
              (fun _ => precedence_doc) (FDiv 1 100)
              "old house. House Old" 100 Hflat) as (a & Ha & _).
  exists a. split; [exact Ha|].
  vm_compute in Ha. injection Ha as <-. split; reflexivity.
Defined.

End PipelineProperties.

(* ================================================================== *)
(** ** The upload filter *)
(* ================================================================== *)

Module AppProperties.
Import App.

Lemma rsplit_last_None (c : ascii) (s : str) :
  rsplit_last c s = None <-> contains_char c s = false.
Proof.
  induction s as [|a s IH]; simpl; [tauto|].
  destruct (rsplit_last c s) as [[b e]|].
  - split; [discriminate|]. intros H. apply orb_false_iff in H as [_ H].
    apply IH in H. discriminate.
  - destruct (Ascii.eqb a c); simpl; [split; discriminate|].
    split; [intros _; now apply IH | reflexivity].
Qed.

Lemma rsplit_last_Some (c : ascii) (s before after : str) :
  rsplit_last c s = Some (before, after) ->
  s = (before ++ String c after)%string /\ contains_char c after = false.
Proof.
  revert before. induction s as [|a s IH]; intros before; simpl;
    [discriminate|].
  destruct (rsplit_last c s) as [[b e]|] eqn:Es.
  - intros [= <- <-]. destruct (IH b eq_refl) as [-> He]. auto.
  - apply rsplit_last_None in Es.
    destruct (Ascii.eqb_spec a c) as [->|N]; [|discriminate].
    intros [= <- <-]. auto.
Qed.

Lemma rsplit_last_at (c : ascii) (before after : str) :
  contains_char c after = false ->
  rsplit_last c (before ++ String c after)%string = Some (before, after).
Proof.
  intros He. induction before as [|a b IH]; simpl.
  - rewrite (proj2 (rsplit_last_None c after) He).
    now rewrite Ascii.eqb_refl.
  - now rewrite IH.
Qed.

(** X17.  The upload filter never raises, and it accepts a file name
    exactly when the name has a dot and what follows its last dot
    lowercases to "txt". *)
Theorem allowed_file_checks_the_last_extension (filename : str) :
  exists b, _allowed_file filename = Ok b
    /\ (b = true <->
        exists stem ext,
          filename = (stem ++ "." ++ ext)%string
          /\ contains_char "." ext = false
          /\ lower ext = "txt").
Proof.
  unfold _allowed_file, rsplit1, item.
  destruct (contains_char "." filename) eqn:Ec.
  - destruct (rsplit_last "." filename) as [[stem ext]|] eqn:Er.
    + simpl. eexists. split; [reflexivity|].
      apply rsplit_last_Some in Er as [-> He].
      unfold ALLOWED_EXTENSIONS, str_in. simpl. rewrite orb_false_r.
      rewrite String.eqb_eq. split.
      * intros Hl. exists stem, ext. auto.
      * intros (stem' & ext' & E & He' & Hl).
        assert (G : Some (stem, ext) = Some (stem', ext')).
        { rewrite <- (rsplit_last_at "." stem ext He).
          change (stem' ++ "." ++ ext')%string
            with (stem' ++ String "." ext')%string in E.
          rewrite E. now apply rsplit_last_at. }
        injection G as -> ->. exact Hl.
    + apply rsplit_last_None in Er. congruence.
  - exists false. split; [reflexivity|]. split; [discriminate|].
    intros (stem & ext & -> & He & _). exfalso.
    apply rsplit_last_None in Ec.
    change (stem ++ "." ++ ext)%string
      with (stem ++ String "." ext)%string in Ec.
    rewrite rsplit_last_at in Ec by exact He. discriminate.
Qed.

(** X18.  The download name never fails to be built: it is the uploaded
    name with what follows its last dot, and the dot, replaced by
    "_analysis.json", or the whole name followed by "_analysis.json" when
    the name has no dot.  In particular every name the upload filter
    accepts loses its extension. *)
Theorem export_name_replaces_the_extension (filename : str) :
  exists name, export_filename filename = Ok name
    /\ (contains_char "." filename = false ->
        name = (filename ++ "_analysis.json")%string)
    /\ (forall stem ext,
          filename = (stem ++ "." ++ ext)%string ->
          contains_char "." ext = false ->
          name = (stem ++ "_analysis.json")%string)
    /\ (_allowed_file filename = Ok true ->
        exists stem ext,
          filename = (stem ++ "." ++ ext)%string
          /\ name = (stem ++ "_analysis.json")%string).
Proof.
  unfold export_filename, rsplit1, item.
  destruct (rsplit_last "." filename) as [[stem ext]|] eqn:Er; simpl;
    eexists; (split; [reflexivity|]).
  - apply rsplit_last_Some in Er as [-> He]. split; [|split].
    + intros Hc. apply rsplit_last_None in Hc.
      rewrite rsplit_last_at in Hc by exact He. discriminate.
    + intros stem' ext' E He'.
      assert (G : Some (stem, ext) = Some (stem', ext')).
      { rewrite <- (rsplit_last_at "." stem ext He).
        change (stem' ++ "." ++ ext')%string
          with (stem' ++ String "." ext')%string in E.
        rewrite E. now apply rsplit_last_at. }
      now injection G as -> ->.
    + intros _. exists stem, ext. auto.
  - apply rsplit_last_None in Er. split; [|split].
    + reflexivity.
    + intros stem ext -> He. exfalso. apply rsplit_last_None in Er.
      change (stem ++ "." ++ ext)%string
        with (stem ++ String "." ext)%string in Er.
      rewrite rsplit_last_at in Er by exact He. discriminate.
    + unfold _allowed_file. rewrite Er. discriminate.
Qed.

End AppProperties.
